(** * A saga orchestrator over a store without transactions

    Shallow embedding of the transaction module: the distributed lock
    service ([distributed-lock.service.ts]), the step registry
    ([step-registry.ts]), the compensation service
    ([compensation.service.ts]), the queue consumer
    ([simple-transaction.consumer.ts]) and the transaction manager
    ([simple-transaction-manager.ts]).

    Conventions of the embedding.
    - A JavaScript string is a [string] of bytes (UTF-8).
    - A thrown value is an [Error] with its [name], [message] and [stack],
      as the signatures of the classifiers ([error: Error]) declare.
    - An [async] method is a function from the state it reads to its
      outcome ([Return] or [Throw]) and the state it leaves.
    - The Redis server is a record of its keyspace, split by the type of
      the value (the key families [tx_lock:], [idempotent:], [dlq:] and
      [compensation_failure:] never collide), and a fault plan: the
      outcome the environment has decided for each of the next commands.
    - Logger calls have no effect on the state and are left out. *)

From Stdlib Require Import ZArith String Ascii List Bool Lia Sorted.
From stdpp Require Import gmap strings list fin_maps pretty.

Local Open Scope string_scope.
Local Open Scope list_scope.

(** ** JavaScript primitives used by the module *)

Module Js.

(** [Error]: the value a [throw] carries. *)
Record Error := mkError {
  name : string;
  message : string;
  stack : string
}.

(** Outcome of a call that may throw. *)
Inductive outcome (A : Type) :=
| Return (a : A)
| Throw (e : Error).
Arguments Return {A} a.
Arguments Throw {A} e.

(** Truthiness of a string: the empty string is falsy. *)
Definition truthy (s : string) : bool :=
  match s with
  | EmptyString => false
  | String _ _ => true
  end.

(** Truthiness of [string | undefined]. *)
Definition truthy_opt (o : option string) : bool :=
  match o with
  | Some s => truthy s
  | None => false
  end.

(** [hay.includes(needle)]. *)
Fixpoint includes (needle hay : string) : bool :=
  String.prefix needle hay ||
  match hay with
  | EmptyString => false
  | String _ hay' => includes needle hay'
  end.

(** [c.toLowerCase()] on one byte: the letters A to Z move to a to z,
    every other byte stays. *)
Definition lower_ascii (c : ascii) : ascii :=
  let n := nat_of_ascii c in
  if (65 <=? n)%nat && (n <=? 90)%nat then ascii_of_nat (n + 32) else c.

(** [s.toLowerCase()]. *)
Fixpoint toLowerCase (s : string) : string :=
  match s with
  | EmptyString => EmptyString
  | String c s' => String (lower_ascii c) (toLowerCase s')
  end.

(** [xs.some(p)]. *)
Definition some {A} (p : A -> bool) (xs : list A) : bool := existsb p xs.

(** [xs.every(p)]. *)
Definition every {A} (p : A -> bool) (xs : list A) : bool := forallb p xs.

(** [xs.join(sep)]. *)
Fixpoint join (sep : string) (xs : list string) : string :=
  match xs with
  | [] => ""
  | [x] => x
  | x :: rest => x +:+ sep +:+ join sep rest
  end.

End Js.

Import Js.

(** ** The Redis server *)

Module Redis.

Section Server.
(** [H]: what a hash key holds (the records of the services). *)
Variable H : Type.

(** A string key holds its value and the expiry it was set with
    ([EX seconds]). *)
Record t := mk {
  strings : gmap string (string * Z);
  hashes : gmap string H;
  sets : gmap string (gset string);
  expiry : gmap string Z;
  faults : list (option Error)
}.

Definition with_strings (r : t) (m : gmap string (string * Z)) : t :=
  mk m (hashes r) (sets r) (expiry r) (faults r).
Definition with_hashes (r : t) (m : gmap string H) : t :=
  mk (strings r) m (sets r) (expiry r) (faults r).
Definition with_sets (r : t) (m : gmap string (gset string)) : t :=
  mk (strings r) (hashes r) m (expiry r) (faults r).
Definition with_expiry (r : t) (m : gmap string Z) : t :=
  mk (strings r) (hashes r) (sets r) m (faults r).
Definition with_faults (r : t) (fs : list (option Error)) : t :=
  mk (strings r) (hashes r) (sets r) (expiry r) fs.

(** Every command first meets the environment: the head of the fault
    plan says whether the command is refused (and with which error);
    an exhausted plan refuses nothing. A refused command has no
    effect on the keyspace. *)
Definition command {A} (body : t -> A * t) (r : t) : outcome A * t :=
  match faults r with
  | Some e :: fs => (Throw e, with_faults r fs)
  | None :: fs =>
      let '(a, r') := body (with_faults r fs) in (Return a, r')
  | [] => let '(a, r') := body r in (Return a, r')
  end.

(** [SET key value EX ttl NX]: true when the key was set. *)
Definition set_nx (key value : string) (ttl : Z) : t -> outcome bool * t :=
  command (fun r =>
    match strings r !! key with
    | Some _ => (false, r)
    | None => (true, with_strings r (<[key := (value, ttl)]> (strings r)))
    end).

(** [SET key value EX ttl]. *)
Definition set_ex (key value : string) (ttl : Z) : t -> outcome unit * t :=
  command (fun r => (tt, with_strings r (<[key := (value, ttl)]> (strings r)))).

(** [GET key]. *)
Definition get (key : string) : t -> outcome (option string) * t :=
  command (fun r => (fst <$> strings r !! key, r)).

(** The release script of the lock service, run atomically by [EVAL]:
    for each key of KEYS in order, delete it when its value is ARGV[1];
    the count of deleted keys is returned. *)
Fixpoint release_script (KEYS : list string) (ARGV1 : string)
    (m : gmap string (string * Z)) : nat * gmap string (string * Z) :=
  match KEYS with
  | [] => (0%nat, m)
  | key :: rest =>
      if decide (fst <$> m !! key = Some ARGV1)
      then let '(n, m') := release_script rest ARGV1 (delete key m) in (S n, m')
      else release_script rest ARGV1 m
  end.

Definition eval_release (KEYS : list string) (ARGV1 : string)
    : t -> outcome nat * t :=
  command (fun r =>
    let '(n, m) := release_script KEYS ARGV1 (strings r) in
    (n, with_strings r m)).

(** [HSET key fields]. *)
Definition hset (key : string) (h : H) : t -> outcome unit * t :=
  command (fun r => (tt, with_hashes r (<[key := h]> (hashes r)))).

(** [SADD key member]. *)
Definition sadd (key member : string) : t -> outcome unit * t :=
  command (fun r =>
    (tt, with_sets r (<[key := {[member]} ∪ default ∅ (sets r !! key)]> (sets r)))).

(** [EXPIRE key seconds]: only an existing key gets an expiry. *)
Definition expire (key : string) (seconds : Z) : t -> outcome unit * t :=
  command (fun r =>
    if decide (is_Some (hashes r !! key))
    then (tt, with_expiry r (<[key := seconds]> (expiry r)))
    else (tt, r)).

(** [HGETALL key]: the fields of the hash; a key that holds no hash
    gives the empty object. *)
Definition hgetall (key : string) : t -> outcome (option H) * t :=
  command (fun r => (hashes r !! key, r)).

(** The members of the set under [key]; no key is the empty set. *)
Definition members (r : t) (key : string) : gset string :=
  default ∅ (sets r !! key).

(** [SMEMBERS key]: the members, in the order the server chooses. *)
Definition smembers (order : gset string -> list string) (key : string)
    : t -> outcome (list string) * t :=
  command (fun r => (order (members r key), r)).

(** [SREM key member]: the number of members removed; a set left
    empty is no key any more. *)
Definition srem (key member : string) : t -> outcome nat * t :=
  command (fun r =>
    if decide (member ∈ members r key)
    then
      let rest := members r key ∖ {[member]} in
      (1%nat,
       with_sets r (if decide (rest = ∅) then delete key (sets r)
                    else <[key := rest]> (sets r)))
    else (0%nat, r)).

(** The key holds a value of some type. *)
Definition holds_value (r : t) (key : string) : bool :=
  bool_decide (is_Some (strings r !! key) \/ is_Some (hashes r !! key) \/
               members r key ≠ ∅).

(** [EXISTS key]: 1 or 0. *)
Definition exists_ (key : string) : t -> outcome nat * t :=
  command (fun r => (if holds_value r key then 1%nat else 0%nat, r)).

(** [DEL key]: the key goes, whatever the type of its value, and its
    expiry with it; the number of keys deleted is returned. *)
Definition del (key : string) : t -> outcome nat * t :=
  command (fun r =>
    (if holds_value r key then 1%nat else 0%nat,
     mk (delete key (strings r)) (delete key (hashes r))
        (delete key (sets r)) (delete key (expiry r)) (faults r))).

End Server.

Arguments mk {H}.
Arguments strings {H}.
Arguments hashes {H}.
Arguments sets {H}.
Arguments expiry {H}.
Arguments faults {H}.
Arguments with_strings {H}.
Arguments with_hashes {H}.
Arguments with_sets {H}.
Arguments with_expiry {H}.
Arguments with_faults {H}.
Arguments command {H A}.
Arguments set_nx {H}.
Arguments set_ex {H}.
Arguments get {H}.
Arguments eval_release {H}.
Arguments hset {H}.
Arguments sadd {H}.
Arguments expire {H}.
Arguments hgetall {H}.
Arguments members {H}.
Arguments smembers {H}.
Arguments srem {H}.
Arguments holds_value {H}.
Arguments exists_ {H}.
Arguments del {H}.

End Redis.

(** ** types/transaction.types.ts *)

(** Modelled from the spec: the declaration of [ResourceIdentifier] is not
    among the source files; the spec's data model gives it a [type]
    (string), an [id] (string or integer) and an optional [action]
    (string). *)
Inductive ResourceId :=
| IdString (s : string)
| IdNumber (n : Z).

Record ResourceIdentifier := mkResource {
  type : string;
  id : ResourceId;
  action : option string
}.

(** How a template literal renders the [id]. *)
Definition render_id (i : ResourceId) : string :=
  match i with
  | IdString s => s
  | IdNumber n => pretty n
  end.

(** ** services/distributed-lock.service.ts *)

Module DistributedLockService.

Definition LOCK_PREFIX : string := "tx_lock:".

Definition lockKey (resource : ResourceIdentifier) : string :=
  let action :=
    match action resource with
    | Some a => if truthy a then "_" +:+ a else ""
    | None => ""
    end in
  LOCK_PREFIX +:+ type resource +:+ "_" +:+ render_id (id resource) +:+ action.

Definition generateResourceLockKeys
    (resourceIdentifiers : list ResourceIdentifier) : list string :=
  map lockKey resourceIdentifiers.

Section Service.
Context {H : Type}.
Abbreviation Redis := (Redis.t H).

(** [releaseLockInternal]: the owner-verified delete. The count the
    script returns is only logged; an error of [EVAL] is logged and
    thrown again. *)
Definition releaseLockInternal (lockKeys : list string) (jobId : string)
    (r : Redis) : outcome unit * Redis :=
  match Redis.eval_release lockKeys jobId r with
  | (Return deletedCount, r') => (Return tt, r')
  | (Throw error, r') => (Throw error, r')
  end.

(** The [for] loop of [acquireLock] with its two local arrays. It
    leaves with the outcome of the [try] block, the [acquiredKeys] at
    that point (the [catch] block reads them) and the server. *)
Fixpoint acquireLoop (lockKeys : list string) (lockResults : list bool)
    (acquiredKeys : list string) (jobId : string) (ttl : Z) (r : Redis)
    : outcome bool * list string * Redis :=
  match lockKeys with
  | [] => (Return (every (fun result => result) lockResults), acquiredKeys, r)
  | lockKey :: rest =>
      match Redis.set_nx lockKey jobId ttl r with
      | (Throw error, r1) => (Throw error, acquiredKeys, r1)
      | (Return acquired, r1) =>
          let lockResults := lockResults ++ [acquired] in
          if acquired
          then acquireLoop rest lockResults (acquiredKeys ++ [lockKey]) jobId ttl r1
          else
            match releaseLockInternal acquiredKeys jobId r1 with
            | (Throw error, r2) => (Throw error, acquiredKeys, r2)
            | (Return _, r2) => (Return false, acquiredKeys, r2)
            end
      end
  end.

Definition acquireLock (resourceIdentifiers : list ResourceIdentifier)
    (jobId : string) (ttl : Z) (r : Redis) : outcome bool * Redis :=
  let lockKeys := generateResourceLockKeys resourceIdentifiers in
  match acquireLoop lockKeys [] [] jobId ttl r with
  | (Return b, _, r1) => (Return b, r1)
  | (Throw error, acquiredKeys, r1) =>
      match releaseLockInternal acquiredKeys jobId r1 with
      | (Throw error', r2) => (Throw error', r2)
      | (Return _, r2) => (Throw error, r2)
      end
  end.

Definition releaseLock (resourceIdentifiers : list ResourceIdentifier)
    (jobId : string) (r : Redis) : outcome unit * Redis :=
  let lockKeys := generateResourceLockKeys resourceIdentifiers in
  releaseLockInternal lockKeys jobId r.

(** The loop of [getLockStatus]: the object [status] gets, under each
    lock key, what [GET] answers (null for a key that is not there). *)
Fixpoint statusLoop (lockKeys : list string)
    (status : gmap string (option string)) (r : Redis)
    : outcome (gmap string (option string)) * Redis :=
  match lockKeys with
  | [] => (Return status, r)
  | lockKey :: rest =>
      match Redis.get lockKey r with
      | (Throw error, r1) => (Throw error, r1)
      | (Return holder, r1) => statusLoop rest (<[lockKey := holder]> status) r1
      end
  end.

Definition getLockStatus (resourceIdentifiers : list ResourceIdentifier)
    (r : Redis) : outcome (gmap string (option string)) * Redis :=
  let lockKeys := generateResourceLockKeys resourceIdentifiers in
  statusLoop lockKeys ∅ r.

End Service.

End DistributedLockService.

(** ** step-registry.ts *)

Module StepRegistry.

Section Registry.
(** [V]: the payloads steps return; [W]: the business state the step
    functions act on (the tables of the store without transactions). *)
Variables V W : Type.

(** A value of type [any], as far as the module tells them apart. *)
Inductive any :=
| undefined
| null
| value (v : V).

Record StepFunction := mkStep {
  sf_name : string;
  execute : W -> outcome any * W;
  compensate : option (any -> W -> outcome unit * W)
}.

(** The [Map] behind the singleton [stepRegistry]. *)
Definition t := gmap string StepFunction.

Definition register (name : string) (execute : W -> outcome any * W)
    (compensate : option (any -> W -> outcome unit * W)) (steps : t) : t :=
  <[name := mkStep name execute compensate]> steps.

Definition get (name : string) (steps : t) : option StepFunction :=
  steps !! name.

Definition has (name : string) (steps : t) : bool :=
  bool_decide (is_Some (steps !! name)).

Definition unregister (name : string) (steps : t) : bool * t :=
  (has name steps, delete name steps).

Definition clear (steps : t) : t := ∅.

End Registry.

Arguments undefined {V}.
Arguments null {V}.
Arguments value {V} v.
Arguments mkStep {V W}.
Arguments sf_name {V W}.
Arguments execute {V W}.
Arguments compensate {V W}.
Arguments register {V W}.
Arguments get {V W}.
Arguments has {V W}.
Arguments unregister {V W}.
Arguments clear {V W}.

End StepRegistry.

Import StepRegistry.

(** ** The job payload and the records of the services *)

Module Types.

Inductive StepStatus := pending | in_progress | completed | failed.

Global Instance StepStatus_eq_dec : EqDecision StepStatus.
Proof. solve_decision. Defined.

Inductive Priority := high | normal.

Global Instance Priority_eq_dec : EqDecision Priority.
Proof. solve_decision. Defined.

Section Payload.
Variable V : Type.

(** One element of [job.data.steps]. *)
Record JobStepData := mkJobStep {
  step_name : string;
  step_status : StepStatus;
  step_index : nat;
  step_result : any V
}.

(** [job.data]. The job is created with [currentStepIndex] 0 and only
    the consumer changes it, so it is a natural number. *)
Record JobData := mkJobData {
  userId : Z;
  steps : list JobStepData;
  currentStepIndex : nat;
  createdAt : string;
  idempotencyKey : option string;
  resourceIdentifiers : option (list ResourceIdentifier)
}.

(** A job of the queue: the consumer reads its [id] and [data] and
    writes its [data] and [progress]. *)
Record Job := mkJob {
  job_id : string;
  data : JobData;
  progress : Z
}.

(** The object [handleDeadLetterQueue] hands to [addToDLQ]. *)
Record DLQJobData := mkDLQJobData {
  originalJobId : string;
  originalJobData : JobData;
  failureReason : string;
  failureStack : string;
  finalFailedAt : string;
  completedBenefits : list string;
  failedStep : string;
  customerInfo : Z;
  manualActionRequired : string;
  canRetry : bool;
  priority : Priority;
  stepCount : nat;
  failedStepIndex : nat
}.

(** The fields [recordCompensationFailure] writes. *)
Record CompensationFailure := mkCompensationFailure {
  cf_jobId : string;
  cf_stepName : string;
  cf_stepResult : string;
  cf_errorMessage : string;
  cf_errorStack : string;
  cf_retryable : string;
  cf_failedAt : string
}.

(** What the hash keys of the server hold. The quarantine record is
    kept as the object it was built from, next to its id, in place of
    the field by field rendering [hset] makes of it. *)
Inductive Hash :=
| CompensationFailureHash (fields : CompensationFailure)
| DLQHash (dlqId : string) (dlqJobData : DLQJobData).

End Payload.

Arguments mkJobStep {V}.
Arguments step_name {V}.
Arguments step_status {V}.
Arguments step_index {V}.
Arguments step_result {V}.
Arguments mkJobData {V}.
Arguments userId {V}.
Arguments steps {V}.
Arguments currentStepIndex {V}.
Arguments createdAt {V}.
Arguments idempotencyKey {V}.
Arguments resourceIdentifiers {V}.
Arguments mkJob {V}.
Arguments job_id {V}.
Arguments data {V}.
Arguments progress {V}.
Arguments mkDLQJobData {V}.
Arguments originalJobId {V}.
Arguments originalJobData {V}.
Arguments failureReason {V}.
Arguments failureStack {V}.
Arguments finalFailedAt {V}.
Arguments completedBenefits {V}.
Arguments failedStep {V}.
Arguments customerInfo {V}.
Arguments manualActionRequired {V}.
Arguments canRetry {V}.
Arguments priority {V}.
Arguments stepCount {V}.
Arguments failedStepIndex {V}.
Arguments CompensationFailureHash {V}.
Arguments DLQHash {V}.

(** What the environment supplies to one invocation: the clock
    ([new Date().toISOString()], [Date.now()]), the random suffix of a
    quarantine id, and the time the invocation is found to have taken. *)
Record Env := mkEnv {
  now_iso : string;
  now_ms : Z;
  random_suffix : string;
  duration : Z
}.

(** [b.toString()]. *)
Definition bool_toString (b : bool) : string :=
  if b then "true" else "false".

End Types.

Import Types.

(** ** The state the services run in *)

Module Runtime.

Section World.
Context {V W : Type}.

(** Calls of user code, in the order they are made. *)
Inductive Event :=
| EvExecute (step : string)
| EvCompensate (step : string) (result : any V).

(** The server, the job in the hands of the consumer with the payloads
    it has persisted so far ([job.updateData], oldest first), the
    business state and the calls of user code made so far. *)
Record World := mkWorld {
  redis : Redis.t (Hash V);
  job : Job V;
  persisted : list (JobData V);
  user : W;
  trace : list Event
}.

Definition with_redis (w : World) (r : Redis.t (Hash V)) : World :=
  mkWorld r (job w) (persisted w) (user w) (trace w).
Definition with_job (w : World) (j : Job V) : World :=
  mkWorld (redis w) j (persisted w) (user w) (trace w).
Definition with_persisted (w : World) (p : list (JobData V)) : World :=
  mkWorld (redis w) (job w) p (user w) (trace w).
Definition with_user (w : World) (u : W) : World :=
  mkWorld (redis w) (job w) (persisted w) u (trace w).
Definition with_trace (w : World) (t : list Event) : World :=
  mkWorld (redis w) (job w) (persisted w) (user w) t.

(** An [async] computation. *)
Definition M (A : Type) : Type := World -> outcome A * World.

Definition ret {A} (a : A) : M A := fun w => (Return a, w).

Definition throw {A} (e : Error) : M A := fun w => (Throw e, w).

Definition bind {A B} (m : M A) (k : A -> M B) : M B :=
  fun w =>
    match m w with
    | (Return a, w') => k a w'
    | (Throw e, w') => (Throw e, w')
    end.

(** [try { m } catch (e) { handler e }]. *)
Definition try_catch {A} (m : M A) (handler : Error -> M A) : M A :=
  fun w =>
    match m w with
    | (Return a, w') => (Return a, w')
    | (Throw e, w') => handler e w'
    end.

(** [try { m } finally { cleanup }]: an exception of the cleanup
    replaces the outcome of [m]. *)
Definition try_finally {A} (m : M A) (cleanup : M unit) : M A :=
  fun w =>
    let '(o, w') := m w in
    match cleanup w' with
    | (Return _, w'') => (o, w'')
    | (Throw e, w'') => (Throw e, w'')
    end.

(** A command sent to the server. *)
Definition on_redis {A} (c : Redis.t (Hash V) -> outcome A * Redis.t (Hash V))
    : M A :=
  fun w => let '(a, r) := c (redis w) in (a, with_redis w r).

(** A call of user code. *)
Definition on_user {A} (ev : Event) (f : W -> outcome A * W) : M A :=
  fun w =>
    let '(a, u) := f (user w) in
    (a, with_user (with_trace w (trace w ++ [ev])) u).

End World.

Arguments Event : clear implicits.
Arguments World : clear implicits.
Arguments M : clear implicits.

End Runtime.

Import Runtime.

Declare Scope saga_scope.
Notation "'let*' x := m 'in' k" := (bind m (fun x => k))
  (at level 10, x pattern, m at level 100, k at level 200) : saga_scope.
Notation "m ;;; k" := (bind m (fun _ => k))
  (at level 100, k at level 200, right associativity) : saga_scope.
Local Open Scope saga_scope.

(** ** services/compensation.service.ts *)

Module CompensationService.

Definition retryableCompensationErrors : list string :=
  [ "ECONNREFUSED"; "ETIMEDOUT"; "Lock wait timeout"; "Connection lost";
    "Server temporarily unavailable"; "Redis connection failed" ].

Definition nonRetryableErrors : list string :=
  [ "not found"; "Invalid parameter"; "Permission denied";
    "Constraint violation" ].

Definition isRetryableCompensationError (error : Error) : bool :=
  let isNonRetryable :=
    some (fun nonRetryable =>
            includes (toLowerCase nonRetryable) (toLowerCase (message error)))
         nonRetryableErrors in
  if isNonRetryable then false
  else
    some (fun retryable =>
            includes retryable (message error) || includes retryable (name error))
         retryableCompensationErrors.

Section Service.
Context {V W : Type}.
(** [JSON.stringify] on a step result. *)
Variable JSON_stringify : any V -> string.

(** One element of [executionResults]. *)
Record ExecutionResult := mkExecutionResult {
  step : string;
  result : any V;
  stepFunction : option (StepFunction V W)
}.

Record FailureInfo := mkFailureInfo {
  fi_jobId : string;
  fi_stepName : string;
  fi_stepResult : any V;
  fi_error : Error;
  fi_retryable : bool
}.

(** Seven days, in seconds. *)
Definition RETENTION : Z := 7 * 24 * 60 * 60.

(** [recordCompensationFailure]: the three writes, and a [catch] that
    only logs. *)
Definition recordCompensationFailure (env : Env) (failureInfo : FailureInfo)
    : M V W unit :=
  try_catch
    (let key := "compensation_failure:" +:+ fi_jobId failureInfo +:+ ":"
                +:+ fi_stepName failureInfo in
     on_redis (Redis.hset key (CompensationFailureHash {|
       cf_jobId := fi_jobId failureInfo;
       cf_stepName := fi_stepName failureInfo;
       cf_stepResult := JSON_stringify (fi_stepResult failureInfo);
       cf_errorMessage := message (fi_error failureInfo);
       cf_errorStack := stack (fi_error failureInfo);
       cf_retryable := bool_toString (fi_retryable failureInfo);
       cf_failedAt := now_iso env |})) ;;;
     on_redis (Redis.sadd "compensation_failures:index" key) ;;;
     on_redis (Redis.expire key RETENTION))
    (fun recordError => ret tt).

(** The body of the [try] of one round of the loop:
    [if (stepFunction?.compensate) await stepFunction.compensate(result)]. *)
Definition compensateOne (entry : ExecutionResult) : M V W unit :=
  match stepFunction entry with
  | Some sf =>
      match compensate sf with
      | Some action =>
          on_user (EvCompensate (step entry) (result entry))
                  (action (result entry))
      | None => ret tt
      end
  | None => ret tt
  end.

(** [executeCompensation]: the entries in the order given. *)
Fixpoint executeCompensation (env : Env)
    (executionResults : list ExecutionResult) (job : Job V) : M V W unit :=
  match executionResults with
  | [] => ret tt
  | entry :: rest =>
      try_catch (compensateOne entry)
        (fun compensationError =>
           if isRetryableCompensationError compensationError
           then recordCompensationFailure env
                  (mkFailureInfo (job_id job) (step entry) (result entry)
                                 compensationError true)
           else recordCompensationFailure env
                  (mkFailureInfo (job_id job) (step entry) (result entry)
                                 compensationError false)) ;;;
      executeCompensation env rest job
  end.

(** [JSON.parse] on the text of a step result. *)
Variable JSON_parse : string -> outcome (any V).
(** The registry the service reads. *)
Variable stepRegistry : StepRegistry.t V W.
(** The order in which the server lists the members of a set. *)
Variable order : gset string -> list string.
(** [a < b] on two strings. *)
Variable string_lt : string -> string -> bool.

(** The fields the service reads in a reply of [HGETALL]; a field the
    hash does not have is undefined. Of these a quarantine record has
    [failedAt] only. *)
Definition field_jobId (failure : option (Hash V)) : option string :=
  match failure with
  | Some (CompensationFailureHash fields) => Some (cf_jobId fields)
  | _ => None
  end.

Definition field_stepName (failure : option (Hash V)) : option string :=
  match failure with
  | Some (CompensationFailureHash fields) => Some (cf_stepName fields)
  | _ => None
  end.

Definition field_stepResult (failure : option (Hash V)) : option string :=
  match failure with
  | Some (CompensationFailureHash fields) => Some (cf_stepResult fields)
  | _ => None
  end.

Definition field_retryable (failure : option (Hash V)) : option string :=
  match failure with
  | Some (CompensationFailureHash fields) => Some (cf_retryable fields)
  | _ => None
  end.

Definition field_failedAt (failure : option (Hash V)) : option string :=
  match failure with
  | Some (CompensationFailureHash fields) => Some (cf_failedAt fields)
  | Some (DLQHash _ dlqJobData) => Some (finalFailedAt dlqJobData)
  | None => None
  end.

(** [retryCompensationFailure]: whatever is thrown on the way is
    logged, and the answer is false. *)
Definition retryCompensationFailure (failureKey : string) : M V W bool :=
  try_catch
    (let* failure := on_redis (Redis.hgetall failureKey) in
     if negb (truthy_opt (field_jobId failure)) then ret false
     else if negb (bool_decide (field_retryable failure = Some "true"))
     then ret false
     else
       (* stepRegistry.get(failure.stepName), then stepFunction?.compensate *)
       match field_stepName failure with
       | None => ret false
       | Some stepName =>
           match StepRegistry.get stepName stepRegistry with
           | None => ret false
           | Some stepFunction =>
               match compensate stepFunction with
               | None => ret false
               | Some action =>
                   (* JSON.parse(failure.stepResult || '{}') *)
                   let text :=
                     match field_stepResult failure with
                     | Some text => if truthy text then text else "{}"
                     | None => "{}"
                     end in
                   let* stepResult := (fun w => (JSON_parse text, w)) in
                   on_user (EvCompensate stepName stepResult)
                           (action stepResult) ;;;
                   on_redis (Redis.del failureKey) ;;;
                   on_redis (Redis.srem "compensation_failures:index" failureKey) ;;;
                   ret true
               end
           end
       end)
    (fun error => ret false).

(** What [getCompensationFailureStats] returns. *)
Record FailureStats := mkFailureStats {
  total : nat;
  retryable : nat;
  nonRetryable : Z;
  oldestFailure : option string
}.

(** [a < b] where either side may be undefined: a comparison with
    undefined is false. *)
Definition lt_undefined (a b : option string) : bool :=
  match a, b with
  | Some a, Some b => string_lt a b
  | _, _ => false
  end.

(** The loop of [getCompensationFailureStats]. *)
Fixpoint statsLoop (failureKeys : list string) (retryableCount : nat)
    (oldestFailure : option string) : M V W (nat * option string) :=
  match failureKeys with
  | [] => ret (retryableCount, oldestFailure)
  | key :: rest =>
      let* failure := on_redis (Redis.hgetall key) in
      let retryableCount :=
        if bool_decide (field_retryable failure = Some "true")
        then S retryableCount else retryableCount in
      let oldestFailure :=
        if negb (truthy_opt oldestFailure) ||
           lt_undefined (field_failedAt failure) oldestFailure
        then field_failedAt failure else oldestFailure in
      statsLoop rest retryableCount oldestFailure
  end.

Definition getCompensationFailureStats : M V W FailureStats :=
  let* failureKeys := on_redis (Redis.smembers order "compensation_failures:index") in
  let* (retryableCount, oldestFailure) := statsLoop failureKeys 0 None in
  ret (mkFailureStats (length failureKeys) retryableCount
         (Z.of_nat (length failureKeys) - Z.of_nat retryableCount)
         oldestFailure).

(** The loop of [cleanupExpiredCompensationFailures]. *)
Fixpoint cleanupLoop (failureKeys : list string) (cleanedCount : nat)
    : M V W nat :=
  match failureKeys with
  | [] => ret cleanedCount
  | key :: rest =>
      let* exists_ := on_redis (Redis.exists_ key) in
      if bool_decide (exists_ = 0%nat)
      then
        on_redis (Redis.srem "compensation_failures:index" key) ;;;
        cleanupLoop rest (S cleanedCount)
      else cleanupLoop rest cleanedCount
  end.

Definition cleanupExpiredCompensationFailures : M V W nat :=
  let* failureKeys := on_redis (Redis.smembers order "compensation_failures:index") in
  cleanupLoop failureKeys 0.

End Service.

Arguments ExecutionResult : clear implicits.
Arguments mkExecutionResult {V W}.
Arguments FailureInfo : clear implicits.

End CompensationService.

(** ** services/dlq.service.ts *)

Module DLQService.

Section Service.
Context {V W : Type}.

(** [addToDLQ]: the record under [dlq:<id>], its id in the index of
    active records and, for a high priority, in the index of those. *)
Definition addToDLQ (env : Env) (dlqJobData : DLQJobData V) : M V W string :=
  let dlqId := "dlq_" +:+ pretty (now_ms env) +:+ "_" +:+ random_suffix env in
  on_redis (Redis.hset ("dlq:" +:+ dlqId) (DLQHash dlqId dlqJobData)) ;;;
  on_redis (Redis.sadd "dlq:job_ids" dlqId) ;;;
  (if decide (priority dlqJobData = high)
   then on_redis (Redis.sadd "dlq:high_priority" dlqId)
   else ret tt) ;;;
  ret dlqId.

End Service.

End DLQService.

(** ** simple-transaction.consumer.ts *)

Module SimpleTransactionConsumer.
Import CompensationService.

Definition retryableErrors : list string :=
  [ "ECONNREFUSED"; "ETIMEDOUT"; "Step function not found";
    "Redis connection failed"; "Database temporarily unavailable";
    "External API timeout" ].

Definition nonRetryableErrors : list string :=
  [ "Duplicate"; "Insufficient"; "already"; "Invalid"; "Permission denied" ].

Definition isDLQRetryable (error : Error) : bool :=
  let isNonRetryable :=
    some (fun nonRetryable =>
            includes (toLowerCase nonRetryable) (toLowerCase (message error)))
         nonRetryableErrors in
  if isNonRetryable then false
  else
    some (fun retryable =>
            includes retryable (message error) || includes retryable (name error))
         retryableErrors.

(** What reading, and what setting, a property of [undefined] throws. *)
Definition TypeError_reading (property : string) : Error :=
  mkError "TypeError"
    ("Cannot read properties of undefined (reading '" +:+ property +:+ "')") "".

Definition TypeError_setting (property : string) : Error :=
  mkError "TypeError"
    ("Cannot set properties of undefined (setting '" +:+ property +:+ "')") "".

(** [new Error(message)]. *)
Definition new_Error (message : string) : Error := mkError "Error" message "".

Section Consumer.
Context {V W : Type}.
Variable JSON_stringify : any V -> string.
(** [Math.floor((i / steps.length) * 100)], a computation on floats. *)
Variable percent : nat -> nat -> Z.
(** The registry the consumer reads; the steps do not change it. *)
Variable stepRegistry : StepRegistry.t V W.

(** What [process] returns. *)
Record ProcessResult := mkProcessResult {
  success : bool;
  executedSteps : nat;
  pr_duration : Z;
  results : list (ExecutionResult V W)
}.

(** [job.updateProgress]. *)
Definition updateProgress (p : Z) : M V W unit :=
  fun w => (Return tt, with_job w (mkJob (job_id (job w)) (data (job w)) p)).

(** [job.updateData]: the payload replaces the job's and is on record
    as persisted. *)
Definition updateData (jobData : JobData V) : M V W unit :=
  fun w =>
    (Return tt,
     with_persisted
       (with_job w (mkJob (job_id (job w)) jobData (progress (job w))))
       (persisted w ++ [jobData])).

Definition updateJobStepStatus (stepIndex : nat) (status : StepStatus)
    (result : any V) : M V W unit :=
  fun w =>
    let jobData := data (job w) in
    match steps jobData !! stepIndex with
    | None => (Throw (TypeError_setting "status"), w)
    | Some s =>
        (* jobData.steps[stepIndex].status = status *)
        let s := mkJobStep (step_name s) status (step_index s) (step_result s) in
        (* if (result !== undefined) jobData.steps[stepIndex].result = result *)
        let s :=
          match result with
          | undefined => s
          | _ => mkJobStep (step_name s) (step_status s) (step_index s) result
          end in
        let steps' := <[stepIndex := s]> (steps jobData) in
        let current := currentStepIndex jobData in
        let current :=
          if decide (status = in_progress \/ status = completed)
          then Nat.max current stepIndex else current in
        let current :=
          if bool_decide (status = completed) &&
             (Z.of_nat stepIndex <? Z.of_nat (length steps') - 1)%Z
          then (stepIndex + 1)%nat else current in
        updateData
          (mkJobData (userId jobData) steps' current (createdAt jobData)
                     (idempotencyKey jobData) (resourceIdentifiers jobData))
          w
    end.

(** [resourceIdentifiers || [{ type: 'user', id: userId }]]. *)
Definition finalResourceIdentifiers (userId : Z)
    (resourceIdentifiers : option (list ResourceIdentifier))
    : list ResourceIdentifier :=
  match resourceIdentifiers with
  | Some rs => rs
  | None => [mkResource "user" (IdNumber userId) None]
  end.

(** The message of the error thrown when the lock is not acquired. *)
Definition busyMessage (resources : list ResourceIdentifier) : string :=
  let resourceNames :=
    join ", " (map (fun r => type r +:+ ":" +:+ render_id (id r)) resources) in
  "리소스(" +:+ resourceNames +:+ ")에 대한 다른 트랜잭션이 진행 중입니다".

(** The first loop of [process]: the trail of the steps completed by
    earlier invocations, for [i] from [from] on, [count] rounds. *)
Fixpoint rebuildTrail (steps : list (JobStepData V)) (count from : nat)
    (executionResults : list (ExecutionResult V W))
    : outcome (list (ExecutionResult V W)) :=
  match count with
  | O => Return executionResults
  | S count' =>
      match steps !! from with
      | None => Throw (TypeError_reading "status")
      | Some step =>
          let executionResults :=
            if decide (step_status step = completed)
            then
              match StepRegistry.get (step_name step) stepRegistry with
              | Some stepFunction =>
                  executionResults ++
                    [mkExecutionResult (step_name step) (step_result step)
                                       (Some stepFunction)]
              | None => executionResults
              end
            else executionResults in
          rebuildTrail steps count' (S from) executionResults
      end
  end.

(** The [try] block of one round of the second loop; it leaves the
    entry to push on [executionResults]. *)
Definition runStep (steps : list (JobStepData V)) (i : nat) (name : string)
    : M V W (ExecutionResult V W) :=
  updateProgress (percent i (length steps)) ;;;
  updateJobStepStatus i in_progress undefined ;;;
  match StepRegistry.get name stepRegistry with
  | None => throw (new_Error ("Step function not found: " +:+ name))
  | Some stepFunction =>
      let* result := on_user (EvExecute name) (execute stepFunction) in
      updateJobStepStatus i completed result ;;;
      ret (mkExecutionResult name result (Some stepFunction))
  end.

(** The second loop of [process], [count] rounds from [i] on. A step
    that fails is marked, the trail is compensated in reverse and the
    error of the step is thrown again. The loop stops before
    [steps.length], so [steps[i]] is defined in every round; were it
    not, marking the step would throw. *)
Fixpoint executeSteps (env : Env) (steps : list (JobStepData V))
    (count i : nat) (executionResults : list (ExecutionResult V W))
    : M V W (list (ExecutionResult V W)) :=
  match count with
  | O => ret executionResults
  | S count' =>
      match steps !! i with
      | None => throw (TypeError_setting "status")
      | Some step =>
          let* entry :=
            try_catch (runStep steps i (step_name step))
              (fun stepError =>
                 updateJobStepStatus i failed undefined ;;;
                 (fun w => executeCompensation JSON_stringify env
                             (rev executionResults) (job w) w) ;;;
                 throw stepError) in
          executeSteps env steps count' (S i) (executionResults ++ [entry])
      end
  end.

(** The object [dlqData] that [handleDeadLetterQueue] builds from the
    job and the final error. *)
Definition dlqData (env : Env) (job : Job V) (finalError : Error)
    : DLQJobData V :=
  let completedBenefits :=
    map step_name
      (map snd
         (filter (fun '(index, step) =>
                    (index < currentStepIndex (data job))%nat /\
                    step_status step = completed)
                 (imap (fun index step => (index, step))
                       (steps (data job))))) in
  {|
    originalJobId := job_id job;
    originalJobData := data job;
    failureReason := message finalError;
    failureStack := stack finalError;
    finalFailedAt := now_iso env;
    completedBenefits := completedBenefits;
    failedStep :=
      match steps (data job) !! currentStepIndex (data job) with
      | Some step => if truthy (step_name step) then step_name step
                     else "Unknown"
      | None => "Unknown"
      end;
    customerInfo := userId (data job);
    manualActionRequired := "CS팀 검토 필요: " +:+ message finalError;
    canRetry := isDLQRetryable finalError;
    priority := if isDLQRetryable finalError then high else normal;
    stepCount := length (steps (data job));
    failedStepIndex := currentStepIndex (data job)
  |}.

(** [handleDeadLetterQueue]: build the quarantine record and hand it
    to the quarantine; an error on the way is only logged. *)
Definition handleDeadLetterQueue (env : Env) (finalError : Error)
    : M V W unit :=
  try_catch
    (fun w =>
       (DLQService.addToDLQ env (dlqData env (job w) finalError) ;;; ret tt) w)
    (fun dlqError => ret tt).

(** The lock TTL the manager passes on to the lock service. *)
Definition LOCK_TTL : Z := 30.

(** The [try] block of [process] after the lock was asked for. *)
Definition transaction (env : Env) (steps : list (JobStepData V))
    (currentStepIndex : nat) (resources : list ResourceIdentifier)
    (lockAcquired : bool) : M V W ProcessResult :=
  if negb lockAcquired then throw (new_Error (busyMessage resources))
  else
    let* executionResults :=
      (fun w => (rebuildTrail steps currentStepIndex 0 [], w)) in
    let* executionResults :=
      executeSteps env steps (length steps - currentStepIndex)
                   currentStepIndex executionResults in
    updateProgress 100 ;;;
    ret (mkProcessResult true (length steps) (duration env) executionResults).

(** [process(job)], the job being the one of the world it runs in. *)
Definition process (env : Env) : M V W ProcessResult :=
  fun w =>
    let jobData := data (job w) in
    let steps := steps jobData in
    let currentStepIndex := currentStepIndex jobData in
    let resources :=
      finalResourceIdentifiers (userId jobData) (resourceIdentifiers jobData) in
    let jobId := job_id (job w) in
    let catch (error : Error) : M V W ProcessResult :=
      handleDeadLetterQueue env error ;;; throw error in
    match on_redis (DistributedLockService.acquireLock resources jobId LOCK_TTL) w with
    | (Throw error, w1) =>
        (* lockAcquired is still false: nothing to release *)
        catch error w1
    | (Return lockAcquired, w1) =>
        try_finally
          (try_catch
             (transaction env steps currentStepIndex resources lockAcquired)
             catch)
          (if lockAcquired
           then on_redis (DistributedLockService.releaseLock resources jobId)
           else ret tt)
          w1
    end.

End Consumer.

Arguments ProcessResult : clear implicits.

End SimpleTransactionConsumer.

(** ** simple-transaction-manager.ts *)

Module SimpleTransactionManager.

(** The options [execute] enqueues with. *)
Record JobsOptions := mkJobsOptions {
  attempts : nat;
  removeOnComplete : nat;
  removeOnFail : nat
}.

Section Manager.
Context {V W : Type}.

(** The queue, as far as [execute] relies on it: [add] appends the job
    and names it with the next value of a counter, in decimal. *)
Record Queue := mkQueue {
  jobs : list (string * Job V * JobsOptions);
  counter : nat
}.

Definition add (name : string) (jobData : JobData V) (opts : JobsOptions)
    (q : Queue) : Job V * Queue :=
  let job := mkJob (pretty (S (counter q))) jobData 0 in
  (job, mkQueue (jobs q ++ [(name, job, opts)]) (S (counter q))).

Record State := mkState {
  redis : Redis.t (Hash V);
  transactionQueue : Queue
}.

(** One hour, in seconds. *)
Definition IDEMPOTENCY_TTL : Z := 3600.

(** The part of [execute] after the duplicate check. *)
Definition enqueue (env : Env) (userId : Z) (steps : list (StepFunction V W))
    (finalResourceIdentifiers : list ResourceIdentifier)
    (idempotencyKey : option string) (s : State) : outcome string * State :=
  let '(job, q) :=
    add "process-transaction"
      (mkJobData userId
         (imap (fun index s => mkJobStep (sf_name s) pending index null) steps)
         0 (now_iso env) idempotencyKey (Some finalResourceIdentifiers))
      (mkJobsOptions 1 10 50)
      (transactionQueue s) in
  match idempotencyKey with
  | Some key =>
      if truthy key
      then
        match Redis.set_ex ("idempotent:" +:+ key) (job_id job)
                           IDEMPOTENCY_TTL (redis s) with
        | (Throw error, r) => (Throw error, mkState r q)
        | (Return _, r) => (Return (job_id job), mkState r q)
        end
      else (Return (job_id job), mkState (redis s) q)
  | None => (Return (job_id job), mkState (redis s) q)
  end.

Definition execute (env : Env) (userId : Z) (steps : list (StepFunction V W))
    (resourceIdentifiers : option (list ResourceIdentifier))
    (idempotencyKey : option string) (s : State) : outcome string * State :=
  let finalResourceIdentifiers :=
    match resourceIdentifiers with
    | Some rs => rs
    | None => [mkResource "user" (IdNumber userId) None]
    end in
  match idempotencyKey with
  | Some key =>
      if truthy key
      then
        match Redis.get ("idempotent:" +:+ key) (redis s) with
        | (Throw error, r) => (Throw error, mkState r (transactionQueue s))
        | (Return existingJobId, r) =>
            match existingJobId with
            | Some existing =>
                if truthy existing
                then (Return existing, mkState r (transactionQueue s))
                else enqueue env userId steps finalResourceIdentifiers
                             idempotencyKey (mkState r (transactionQueue s))
            | None =>
                enqueue env userId steps finalResourceIdentifiers
                        idempotencyKey (mkState r (transactionQueue s))
            end
        end
      else enqueue env userId steps finalResourceIdentifiers idempotencyKey s
  | None => enqueue env userId steps finalResourceIdentifiers idempotencyKey s
  end.

End Manager.

Arguments Queue : clear implicits.
Arguments State : clear implicits.
Arguments execute {V W}.
Arguments enqueue {V W}.

End SimpleTransactionManager.

(** ** Two invocations of [process] at once

    Every [await] of a command to the server is a point where another
    invocation may run; the server runs one command (a [SET], an [EVAL]
    of the release script) at a time. As far as the lock goes, an
    invocation is at one of the points below. The steps of the saga do
    not touch the lock keys; no command is refused and no key expires
    while the two run. *)

Module Interleaving.
Import DistributedLockService.

Inductive Phase :=
(** in the loop of [acquireLock], the keys [todo] still to set *)
| Acquiring (todo acquiredKeys : list string)
(** a [SET] answered null: [acquiredKeys] are about to be released *)
| RollingBack (acquiredKeys : list string)
(** [acquireLock] returned false: the busy error was thrown and the
    failure filed; nothing is released *)
| Busy
(** [acquireLock] returned true: the steps run *)
| Holding
(** the steps are over, with or without success, and [finally] has
    released the lock *)
| Finished (success : bool).

Record Invocation := mkInvocation {
  jobId : string;
  lockKeys : list string;
  phase : Phase
}.

Definition at_phase (inv : Invocation) (p : Phase) : Invocation :=
  mkInvocation (jobId inv) (lockKeys inv) p.

(** [process] is called for the job. *)
Definition invoke (jobId : string) (resources : list ResourceIdentifier)
    : Invocation :=
  let lockKeys := generateResourceLockKeys resources in
  mkInvocation jobId lockKeys (Acquiring lockKeys []).

(** The next atomic move of an invocation on the string keys of the
    server; [success] is what the steps of the saga come to, read when
    they are over. An invocation that is over has no move. *)
Definition advance (success : bool) (inv : Invocation)
    (m : gmap string (string * Z))
    : option (Invocation * gmap string (string * Z)) :=
  match phase inv with
  | Acquiring [] acquiredKeys => Some (at_phase inv Holding, m)
  | Acquiring (lockKey :: rest) acquiredKeys =>
      match m !! lockKey with
      | None =>
          Some (at_phase inv (Acquiring rest (acquiredKeys ++ [lockKey])),
                <[lockKey := (jobId inv, SimpleTransactionConsumer.LOCK_TTL)]> m)
      | Some _ => Some (at_phase inv (RollingBack acquiredKeys), m)
      end
  | RollingBack acquiredKeys =>
      Some (at_phase inv Busy,
            (Redis.release_script acquiredKeys (jobId inv) m).2)
  | Holding =>
      Some (at_phase inv (Finished success),
            (Redis.release_script (lockKeys inv) (jobId inv) m).2)
  | Busy | Finished _ => None
  end.

Inductive Side := First | Second.

Record System := mkSystem {
  store : gmap string (string * Z);
  first : Invocation;
  second : Invocation
}.

(** One move of the invocation on [side]. *)
Definition step (side : Side) (success : bool) (sys : System) : option System :=
  match side with
  | First =>
      match advance success (first sys) (store sys) with
      | Some (inv, m) => Some (mkSystem m inv (second sys))
      | None => None
      end
  | Second =>
      match advance success (second sys) (store sys) with
      | Some (inv, m) => Some (mkSystem m (first sys) inv)
      | None => None
      end
  end.

(** A schedule: who moves, one after the other. *)
Fixpoint run (schedule : list (Side * bool)) (sys : System) : option System :=
  match schedule with
  | [] => Some sys
  | (side, success) :: rest =>
      match step side success sys with
      | Some sys' => run rest sys'
      | None => None
      end
  end.

End Interleaving.

(** * Properties *)

(** ** The Redis server *)

Module RedisFacts.
Import Redis.

Section Facts.
Context {H : Type}.
Implicit Types (r : Redis.t H) (m : gmap string (string * Z)).

(** Number of refusals left in the fault plan. *)
Definition refusals (fs : list (option Error)) : nat :=
  length (filter is_Some fs).
Arguments refusals : simpl never.

(** No command is refused. *)
Definition quiet (fs : list (option Error)) : Prop := refusals fs = 0%nat.

(** Write the same entry under each key. *)
Definition set_all (keys : list string) (v : string * Z) m :=
  foldl (fun m k => <[k := v]> m) m keys.

Lemma command_cases {A} (body : Redis.t H -> A * Redis.t H) r out r' :
  command body r = (out, r') ->
  (exists e, out = Throw e /\ strings r' = strings r /\
             hashes r' = hashes r /\ sets r' = sets r /\ expiry r' = expiry r /\
             S (refusals (faults r')) = refusals (faults r) /\
             Some e ∈ faults r /\ faults r' ⊆ faults r) \/
  (exists a r0, out = Return a /\ body r0 = (a, r') /\
                strings r0 = strings r /\ hashes r0 = hashes r /\
                sets r0 = sets r /\ expiry r0 = expiry r /\
                refusals (faults r0) = refusals (faults r) /\
                faults r0 ⊆ faults r).
Proof.
  unfold command. destruct r as [s h st ex fs]; simpl.
  destruct fs as [|[e|] fs]; simpl.
  - destruct (body _) as [a r1] eqn:Hb. intros [= <- <-].
    right. exists a, (mk s h st ex []). by rewrite Hb.
  - intros [= <- <-]. left. exists e. simpl.
    split_and!; try done; set_solver.
  - unfold with_faults; simpl. destruct (body _) as [a r1] eqn:Hb.
    intros [= <- <-]. right. exists a, (mk s h st ex fs). rewrite Hb. simpl.
    split_and!; try done; set_solver.
Qed.

Lemma release_script_lookup KEYS a m k :
  (release_script KEYS a m).2 !! k =
  if decide (k ∈ KEYS /\ fst <$> m !! k = Some a) then None else m !! k.
Proof.
  revert m. induction KEYS as [|key rest IH]; intros m; cbn [release_script snd].
  - case_decide as Hd; [|done]. destruct Hd as [Hin _]. by apply elem_of_nil in Hin.
  - destruct (decide (fst <$> m !! key = Some a)) as [Hv|Hv].
    + destruct (release_script rest a (delete key m)) as [n m'] eqn:Hr. cbn [snd].
      change m' with ((n, m').2). rewrite <- Hr, IH.
      destruct (decide (k = key)) as [->|Hne].
      * rewrite lookup_delete_eq.
        repeat case_decide; try done; exfalso; set_solver.
      * rewrite lookup_delete_ne by done.
        repeat case_decide; try done; exfalso; set_solver.
    + rewrite IH.
      destruct (decide (k = key)) as [->|Hne];
        repeat case_decide; try done; exfalso; set_solver.
Qed.

Lemma set_all_lookup keys v m k :
  set_all keys v m !! k = if decide (k ∈ keys) then Some v else m !! k.
Proof.
  unfold set_all. revert m. induction keys as [|key rest IH]; intros m; cbn [foldl].
  - case_decide as Hd; [by apply elem_of_nil in Hd|done].
  - rewrite IH. destruct (decide (k = key)) as [->|Hne].
    + rewrite lookup_insert_eq. repeat case_decide; try done; exfalso; set_solver.
    + rewrite lookup_insert_ne by done.
      repeat case_decide; try done; exfalso; set_solver.
Qed.

Lemma release_set_all keys jobId ttl m :
  (forall k, k ∈ keys -> m !! k = None) ->
  (release_script keys jobId (set_all keys (jobId, ttl) m)).2 = m.
Proof.
  intros Habs. apply map_eq. intros k.
  rewrite release_script_lookup, set_all_lookup.
  destruct (decide (k ∈ keys)) as [Hin|Hin].
  - rewrite Habs by done. case_decide as Hd; [done|].
    exfalso. apply Hd. by split.
  - case_decide as Hd; [|done]. by destruct Hd.
Qed.

End Facts.

Global Arguments refusals : simpl never.
End RedisFacts.

(** ** The distributed lock service *)

Module LockFacts.
Import Redis RedisFacts DistributedLockService.

Section Facts.
Context {H : Type}.
Implicit Types (r : Redis.t H).

Lemma releaseLockInternal_cases lockKeys jobId r out r' :
  releaseLockInternal lockKeys jobId r = (out, r') ->
  hashes r' = hashes r /\ sets r' = sets r /\ expiry r' = expiry r /\
  faults r' ⊆ faults r /\
  ((exists e, out = Throw e /\ strings r' = strings r /\
              S (refusals (faults r')) = refusals (faults r) /\
              Some e ∈ faults r) \/
   (out = Return tt /\
    strings r' = (release_script lockKeys jobId (strings r)).2 /\
    refusals (faults r') = refusals (faults r))).
Proof.
  unfold releaseLockInternal, eval_release.
  destruct (command _ r) as [o r1] eqn:Hc.
  destruct (command_cases _ _ _ _ Hc)
    as [(e & -> & ? & ? & ? & ? & ? & ? & ?)|(n & r0 & -> & Hb & Hs & ? & ? & ? & ? & ?)].
  - intros [= <- <-]. split_and!; try done. left. by exists e.
  - intros [= <- <-]. rewrite <- Hs.
    destruct (release_script lockKeys jobId (strings r0)) as [n' m] eqn:Hr.
    injection Hb as <- <-. simpl. split_and!; try done. by right.
Qed.

Lemma every_snoc_true (lockResults : list bool) :
  every (fun result => result) lockResults = true ->
  every (fun result => result) (lockResults ++ [true]) = true.
Proof.
  unfold every. intros Hl. rewrite forallb_app, Hl. reflexivity.
Qed.

Local Ltac loop_base :=
  unfold set_all; cbn [foldl];
  split_and!; try congruence; try (by constructor); try done;
  try (by intros ? ?%elem_of_nil); try (by eexists); try set_solver.

(** What the loop of [acquireLock] leaves behind: the keys [done] it
    set, in input order, each absent before the call. *)
Lemma acquireLoop_spec jobId ttl lockKeys :
  forall lockResults acquiredKeys r out acquired' r',
  every (fun result => result) lockResults = true ->
  acquireLoop lockKeys lockResults acquiredKeys jobId ttl r = (out, acquired', r') ->
  exists done,
    acquired' = acquiredKeys ++ done /\ NoDup done /\
    (forall k, k ∈ done -> strings r !! k = None) /\
    hashes r' = hashes r /\ sets r' = sets r /\ expiry r' = expiry r /\
    faults r' ⊆ faults r /\
    match out with
    | Return true =>
        done = lockKeys /\
        strings r' = set_all done (jobId, ttl) (strings r) /\
        refusals (faults r') = refusals (faults r)
    | Return false =>
        (exists key rest, lockKeys = done ++ key :: rest /\
           (is_Some (strings r !! key) \/ key ∈ done)) /\
        strings r' =
          (release_script (acquiredKeys ++ done) jobId
             (set_all done (jobId, ttl) (strings r))).2 /\
        refusals (faults r') = refusals (faults r)
    | Throw e =>
        (exists rest, lockKeys = done ++ rest) /\
        strings r' = set_all done (jobId, ttl) (strings r) /\
        S (refusals (faults r')) = refusals (faults r) /\
        Some e ∈ faults r
    end.
Proof.
  induction lockKeys as [|lockKey rest IH];
    intros lockResults acquiredKeys r out acquired' r' Hall; cbn [acquireLoop].
  - intros [= <- <- <-]. exists []. rewrite Hall, app_nil_r. loop_base.
  - unfold set_nx. destruct (command _ r) as [o r1] eqn:Hc.
    destruct (command_cases _ _ _ _ Hc)
      as [(e & -> & Hs & ? & ? & ? & ? & ? & ?)
         |(a & r0 & -> & Hb & Hs & Hh & Hst & Hex & Hf & Hsub)].
    { intros [= <- <- <-]. exists []. rewrite app_nil_r. loop_base. }
    destruct (strings r0 !! lockKey) as [held|] eqn:Hk.
    + injection Hb as <- <-.
      destruct (releaseLockInternal acquiredKeys jobId r0) as [o2 r2] eqn:Hrel.
      destruct (releaseLockInternal_cases _ _ _ _ _ Hrel)
        as (Hh2 & Hst2 & Hex2 & Hsub2 & [(e & -> & Hs2 & Hf2 & He)|(-> & Hs2 & Hf2)]).
      * intros [= <- <- <-]. exists []. rewrite app_nil_r. loop_base.
      * intros [= <- <- <-]. exists []. rewrite app_nil_r. loop_base.
        exists lockKey, rest. split; [done|]. left. rewrite <- Hs, Hk. by eexists.
    + injection Hb as <- <-.
      intros Hloop. apply IH in Hloop; [|by apply every_snoc_true].
      destruct Hloop as (done & -> & Hnd & Habs & Hh' & Hst' & Hex' & Hsub' & Hout).
      cbn [strings hashes sets expiry faults with_strings] in *.
      assert (Hfresh : lockKey ∉ done).
      { intros Hin. specialize (Habs _ Hin). by rewrite lookup_insert_eq in Habs. }
      assert (Habs' : forall k, k ∈ lockKey :: done -> strings r !! k = None).
      { intros k [->|Hin]%elem_of_cons; [congruence|].
        specialize (Habs _ Hin). rewrite <- Hs.
        rewrite lookup_insert_ne in Habs; [done|]. intros ->. done. }
      exists (lockKey :: done). rewrite <- app_assoc. cbn [app].
      split_and!; try congruence; [by apply NoDup_cons | done | set_solver | ].
      unfold set_all in *. cbn [foldl]. rewrite <- Hs.
      destruct out as [[|]|e].
      * destruct Hout as (-> & -> & ->). done.
      * destruct Hout as ((key & rest' & -> & Hconf) & -> & ->).
        split_and!; try done; [|by rewrite <- app_assoc].
        exists key, rest'. split; [done|].
        destruct Hconf as [Hsome|Hin]; [|right; by right].
        destruct (decide (key = lockKey)) as [->|Hne]; [right; by left|].
        left. by rewrite lookup_insert_ne in Hsome.
      * destruct Hout as ((rest' & ->) & -> & Hf' & He). split_and!; try done.
        -- by exists rest'.
        -- congruence.
        -- set_solver.
Qed.

Lemma releaseLockInternal_quiet lockKeys jobId r :
  quiet (faults r) ->
  exists r', releaseLockInternal lockKeys jobId r = (Return tt, r') /\
    strings r' = (release_script lockKeys jobId (strings r)).2 /\
    hashes r' = hashes r /\ sets r' = sets r /\ expiry r' = expiry r /\
    quiet (faults r').
Proof.
  intros Hq. destruct (releaseLockInternal lockKeys jobId r) as [out r'] eqn:Hrel.
  destruct (releaseLockInternal_cases _ _ _ _ _ Hrel)
    as (? & ? & ? & ? & [(e & _ & _ & Hf & _)|(-> & ? & Hf)]).
  - unfold quiet in Hq. lia.
  - exists r'. unfold quiet in *. split_and!; try done. lia.
Qed.

(** C9. For the empty list of resource identifiers [acquireLock]
    returns true and issues no command at all: the server, its
    keyspace and its fault plan, is left as it was. *)
Theorem acquireLock_empty (jobId : string) (ttl : Z) r :
  generateResourceLockKeys [] = [] /\
  acquireLock [] jobId ttl r = (Return true, r).
Proof. split; reflexivity. Qed.

(** C2. Owner-verified release. When the server runs the script,
    [releaseLock resources jobX] returns without error, deletes
    exactly the lock keys whose value is [jobX], and so leaves a key
    held by another job [jobY] in place; a later release by [jobY]
    deletes that key. *)
Theorem releaseLock_owner_verified resources (jobX jobY : string) (ttl : Z)
    (key : string) r :
  jobX ≠ jobY ->
  key ∈ generateResourceLockKeys resources ->
  strings r !! key = Some (jobY, ttl) ->
  quiet (faults r) ->
  exists r1 r2,
    releaseLock resources jobX r = (Return tt, r1) /\
    (forall k, strings r1 !! k =
               if decide (k ∈ generateResourceLockKeys resources /\
                          fst <$> strings r !! k = Some jobX)
               then None else strings r !! k) /\
    strings r1 !! key = Some (jobY, ttl) /\
    releaseLock resources jobY r1 = (Return tt, r2) /\
    strings r2 !! key = None.
Proof.
  intros Hne Hin Hheld Hq. unfold releaseLock.
  destruct (releaseLockInternal_quiet (generateResourceLockKeys resources) jobX r Hq)
    as (r1 & Hrel1 & Hs1 & _ & _ & _ & Hq1).
  destruct (releaseLockInternal_quiet (generateResourceLockKeys resources) jobY r1 Hq1)
    as (r2 & Hrel2 & Hs2 & _).
  assert (Hkeep : strings r1 !! key = Some (jobY, ttl)).
  { rewrite Hs1, release_script_lookup, Hheld. cbn.
    case_decide as Hd; [|done]. destruct Hd as [_ [=]]. congruence. }
  exists r1, r2. split_and!; try done.
  - intros k. by rewrite Hs1, release_script_lookup.
  - rewrite Hs2, release_script_lookup, Hkeep. cbn.
    case_decide as Hd; [done|]. exfalso. apply Hd. by split.
Qed.

(** The three ways out of [acquireLock]. *)
Lemma acquireLock_outcomes resources (jobId : string) (ttl : Z)
    r out r' :
  acquireLock resources jobId ttl r = (out, r') ->
  let lockKeys := generateResourceLockKeys resources in
  (out = Return true ->
     NoDup lockKeys /\
     (forall k, k ∈ lockKeys -> strings r !! k = None) /\
     strings r' = set_all lockKeys (jobId, ttl) (strings r)) /\
  (out = Return false ->
     exists acquired key rest,
       lockKeys = acquired ++ key :: rest /\
       (forall k, k ∈ acquired -> strings r !! k = None) /\
       (is_Some (strings r !! key) \/ key ∈ acquired) /\
       strings r' = strings r) /\
  (quiet (faults r) ->
     (exists key, key ∈ lockKeys /\ is_Some (strings r !! key)) ->
     out = Return false) /\
  (forall e, out = Throw e -> refusals (faults r) <= 1 ->
     Some e ∈ faults r /\ strings r' = strings r).
Proof.
  intros Hacq lockKeys. unfold acquireLock in Hacq. fold lockKeys in Hacq.
  destruct (acquireLoop lockKeys [] [] jobId ttl r) as [[o acq] r1] eqn:Hloop.
  apply acquireLoop_spec in Hloop; [|done].
  destruct Hloop as (done & Hacq' & Hnd & Habs & _ & _ & _ & Hsub & Hout).
  cbn [app] in Hacq'. subst acq.
  destruct o as [[|]|e0].
  - injection Hacq as <- <-. destruct Hout as (-> & Hs & Hf).
    split_and!; try done.
    intros Hq (key & Hin & Hsome). rewrite Habs in Hsome by done.
    by destruct Hsome.
  - injection Hacq as <- <-. destruct Hout as ((key & rest & Hk & Hconf) & Hs & Hf).
    cbn [app] in Hs. rewrite release_set_all in Hs by done.
    split_and!; try done. intros _. by exists done, key, rest.
  - destruct Hout as (_ & Hs & Hf & He).
    destruct (releaseLockInternal done jobId r1) as [o2 r2] eqn:Hrel.
    destruct (releaseLockInternal_cases _ _ _ _ _ Hrel)
      as (_ & _ & _ & Hsub2 & [(e2 & -> & Hs2 & Hf2 & He2)|(-> & Hs2 & Hf2)]);
      injection Hacq as <- <-.
    + split_and!; try done.
      * intros Hq. unfold quiet in Hq. lia.
      * intros e [= <-] Hone. lia.
    + split_and!; try done.
      * intros Hq. unfold quiet in Hq. lia.
      * intros e [= <-] _. split; [done|].
        rewrite Hs2, Hs. by apply release_set_all.
Qed.

(** C3. [acquireLock] is all-or-nothing. Whatever it answers:
    - true: the lock keys were pairwise distinct and absent, and each
      now holds [jobId] with the expiry [ttl], set in input order;
    - false: the keys before the first one that already existed were
      set by this call and are released again, the keyspace is as it
      was; and an existing key forces that answer when no command is
      refused;
    - an exception [e]: when the plan holds one refusal at most, [e]
      is that refusal, raised again after the rollback of the keys
      acquired so far, and the keyspace is as it was. *)
Theorem acquireLock_all_or_nothing resources (jobId : string) (ttl : Z)
    r out r' :
  acquireLock resources jobId ttl r = (out, r') ->
  let lockKeys := generateResourceLockKeys resources in
  (out = Return true ->
     NoDup lockKeys /\
     (forall k, k ∈ lockKeys -> strings r !! k = None) /\
     strings r' = set_all lockKeys (jobId, ttl) (strings r)) /\
  (out = Return false ->
     exists acquired key rest,
       lockKeys = acquired ++ key :: rest /\
       (forall k, k ∈ acquired -> strings r !! k = None) /\
       (is_Some (strings r !! key) \/ key ∈ acquired) /\
       strings r' = strings r) /\
  (quiet (faults r) ->
     (exists key, key ∈ lockKeys /\ is_Some (strings r !! key)) ->
     out = Return false) /\
  (forall e, out = Throw e -> refusals (faults r) <= 1 ->
     Some e ∈ faults r /\ strings r' = strings r).
Proof. apply acquireLock_outcomes. Qed.

End Facts.
(** A server where job-y holds the lock of user 1. *)
Definition held_by_y : Redis.t unit :=
  Redis.mk {[ "tx_lock:user_1" := ("job-y", 30%Z) ]} ∅ ∅ ∅ [].

Definition user_1 : ResourceIdentifier := mkResource "user" (IdNumber 1) None.
Definition cart_7 : ResourceIdentifier :=
  mkResource "cart" (IdString "7") (Some "checkout").

Lemma releaseLock_owner_verified_witness :
  "job-x" ≠ "job-y" /\
  "tx_lock:user_1" ∈ generateResourceLockKeys [cart_7; user_1] /\
  strings held_by_y !! "tx_lock:user_1" = Some ("job-y", 30%Z) /\
  quiet (faults held_by_y) /\
  exists r1 r2,
    releaseLock [cart_7; user_1] "job-x" held_by_y = (Return tt, r1) /\
    (forall k, strings r1 !! k =
               if decide (k ∈ generateResourceLockKeys [cart_7; user_1] /\
                          fst <$> strings held_by_y !! k = Some "job-x")
               then None else strings held_by_y !! k) /\
    strings r1 !! "tx_lock:user_1" = Some ("job-y", 30%Z) /\
    releaseLock [cart_7; user_1] "job-y" r1 = (Return tt, r2) /\
    strings r2 !! "tx_lock:user_1" = None.
Proof.
  assert (Hne : "job-x" ≠ "job-y") by discriminate.
  assert (Hin : "tx_lock:user_1" ∈ generateResourceLockKeys [cart_7; user_1]).
  { vm_compute. right. left. }
  assert (Hheld : strings held_by_y !! "tx_lock:user_1" = Some ("job-y", 30%Z))
    by (vm_compute; reflexivity).
  assert (Hq : quiet (faults held_by_y)) by reflexivity.
  split_and!; try done.
  exact (releaseLock_owner_verified [cart_7; user_1] "job-x" "job-y" 30
           "tx_lock:user_1" held_by_y Hne Hin Hheld Hq).
Defined.

(** The lock of user 1 is taken: a call for the cart and the user sets
    the cart's key, meets the user's key, rolls back and answers false. *)
Lemma acquireLock_all_or_nothing_witness :
  acquireLock [cart_7; user_1] "job-x" 30 held_by_y = (Return false, held_by_y) /\
  (Return false = Return false ->
     exists acquired key rest,
       generateResourceLockKeys [cart_7; user_1] = acquired ++ key :: rest /\
       (forall k, k ∈ acquired -> strings held_by_y !! k = None) /\
       (is_Some (strings held_by_y !! key) \/ key ∈ acquired) /\
       strings held_by_y = strings held_by_y).
Proof.
  assert (Hrun : acquireLock [cart_7; user_1] "job-x" 30 held_by_y =
                 (Return false, held_by_y)) by (vm_compute; reflexivity).
  split; [exact Hrun|].
  exact (proj1 (proj2 (acquireLock_all_or_nothing _ _ _ _ _ _ Hrun))).
Defined.

End LockFacts.

(** ** Strings *)

Module JsFacts.

(** [needle] occurs in [hay]. *)
Definition contains (needle hay : string) : Prop :=
  exists pre post, hay = pre +:+ needle +:+ post.

Lemma append_nil (s : string) : "" +:+ s = s.
Proof. reflexivity. Qed.

Lemma append_cons (c : ascii) (s t : string) :
  String c s +:+ t = String c (s +:+ t).
Proof. reflexivity. Qed.

Lemma prefix_spec needle hay :
  String.prefix needle hay = true <-> exists post, hay = needle +:+ post.
Proof.
  revert hay. induction needle as [|a needle IH]; intros hay.
  - destruct hay; simpl; split; eauto.
  - destruct hay as [|b hay]; simpl.
    + split; [discriminate|]. intros [post [=]].
    + destruct (ascii_dec a b) as [->|Hne].
      * rewrite IH. split; intros [post Hp]; exists post;
          rewrite append_cons in *; congruence.
      * split; [discriminate|]. intros [post Hp].
        rewrite append_cons in Hp. congruence.
Qed.

Lemma includes_spec needle hay :
  includes needle hay = true <-> contains needle hay.
Proof.
  unfold contains. induction hay as [|c hay IH]; cbn [includes].
  - rewrite orb_false_r, prefix_spec. split.
    + intros [post ->]. by exists "", post.
    + intros (pre & post & Hp). destruct pre; [by exists post|discriminate].
  - rewrite orb_true_iff, prefix_spec, IH. split.
    + intros [[post ->]|(pre & post & ->)].
      * by exists "", post.
      * by exists (String c pre), post.
    + intros (pre & post & Hp). destruct pre as [|c' pre].
      * left. by exists post.
      * right. rewrite append_cons in Hp. injection Hp as -> ->.
        by exists pre, post.
Qed.

Lemma some_spec {A} (p : A -> bool) (xs : list A) :
  some p xs = true <-> exists x, x ∈ xs /\ p x = true.
Proof.
  unfold some. rewrite existsb_exists.
  split; intros (x & Hin & Hp); exists x; split; try done;
    by apply list_elem_of_In.
Qed.

End JsFacts.

(** ** Classification of errors *)

Module ClassificationFacts.
Import JsFacts.

(** Some term of [terms] occurs in [text], letter case apart. *)
Definition matches_ci (terms : list string) (text : string) : Prop :=
  exists term, term ∈ terms /\ contains (toLowerCase term) (toLowerCase text).

(** Some term of [terms] occurs, as it is written, in the message or in
    the name of [error]. *)
Definition matches_cs (terms : list string) (error : Error) : Prop :=
  exists term, term ∈ terms /\
    (contains term (message error) \/ contains term (name error)).

Lemma nonRetryable_spec terms text :
  some (fun nonRetryable =>
          includes (toLowerCase nonRetryable) (toLowerCase text)) terms = true
  <-> matches_ci terms text.
Proof.
  rewrite some_spec. unfold matches_ci.
  split; intros (t & Hin & Hm); exists t; split; try done;
    by apply includes_spec.
Qed.

Lemma retryable_spec terms error :
  some (fun retryable =>
          includes retryable (message error) || includes retryable (name error))
       terms = true
  <-> matches_cs terms error.
Proof.
  rewrite some_spec. unfold matches_cs.
  split; intros (t & Hin & Hm); exists t; split; try done.
  - apply orb_true_iff in Hm. by rewrite <- !includes_spec.
  - apply orb_true_iff. by rewrite !includes_spec.
Qed.

(** C8. Classification of a compensation failure: it is retryable
    exactly when none of the four terminal terms occurs in the message,
    letter case apart, and one of the retryable terms occurs, as written,
    in the message or in the name of the error. A terminal term so
    makes the failure non-retryable whatever else matches. *)
Theorem isRetryableCompensationError_spec (error : Error) :
  CompensationService.nonRetryableErrors =
    [ "not found"; "Invalid parameter"; "Permission denied";
      "Constraint violation" ] /\
  (CompensationService.isRetryableCompensationError error = true <->
     ~ matches_ci CompensationService.nonRetryableErrors (message error) /\
     matches_cs CompensationService.retryableCompensationErrors error) /\
  (matches_ci CompensationService.nonRetryableErrors (message error) ->
     CompensationService.isRetryableCompensationError error = false).
Proof.
  split; [reflexivity|].
  unfold CompensationService.isRetryableCompensationError.
  pose proof (nonRetryable_spec CompensationService.nonRetryableErrors
                (message error)) as Hn.
  pose proof (retryable_spec CompensationService.retryableCompensationErrors
                error) as Hr.
  destruct (some _ CompensationService.nonRetryableErrors) eqn:Hterm.
  - split; [|done]. split; [discriminate|].
    intros [Hno _]. exfalso. apply Hno. by apply Hn.
  - split.
    + rewrite Hr. split; [|by intros [_ ?]].
      intros Hm. split; [|done]. intros Hci. apply Hn in Hci. discriminate.
    + intros Hci. apply Hn in Hci. discriminate.
Qed.

End ClassificationFacts.

(** ** The compensation service *)

Module CompensationFacts.
Import Redis RedisFacts CompensationService.

Section Facts.
Context {V W : Type}.
Variable JSON_stringify : any V -> string.
Implicit Types (w : World V W).

(** The part of the world a call of the server cannot reach. *)
Definition same_but_redis w w' : Prop :=
  job w' = job w /\ persisted w' = persisted w /\
  user w' = user w /\ trace w' = trace w.

Lemma same_but_redis_refl w : same_but_redis w w.
Proof. by repeat split. Qed.

Lemma same_but_redis_trans w1 w2 w3 :
  same_but_redis w1 w2 -> same_but_redis w2 w3 -> same_but_redis w1 w3.
Proof. unfold same_but_redis. intros (?&?&?&?) (?&?&?&?). split_and!; congruence. Qed.

Lemma on_redis_inv {A} (c : Redis.t (Hash V) -> outcome A * Redis.t (Hash V))
    w out w' :
  on_redis c w = (out, w') ->
  exists r', c (redis w) = (out, r') /\ w' = with_redis w r'.
Proof.
  unfold on_redis. destruct (c (redis w)) as [a r'].
  intros [= <- <-]. by exists r'.
Qed.

(** A command that does not write strings. *)
Definition keeps_strings {A} (body : Redis.t (Hash V) -> A * Redis.t (Hash V)) :=
  forall r, strings (body r).2 = strings r /\ faults (body r).2 = faults r.

Lemma command_keeps_strings {A}
    (body : Redis.t (Hash V) -> A * Redis.t (Hash V)) r out r' :
  keeps_strings body ->
  command body r = (out, r') ->
  strings r' = strings r /\ faults r' ⊆ faults r /\
  refusals (faults r') <= refusals (faults r).
Proof.
  intros Hk Hc.
  destruct (command_cases _ _ _ _ Hc)
    as [(e & -> & ? & ? & ? & ? & ? & ? & ?)
       |(a & r0 & -> & Hb & Hs & ? & ? & ? & Hf & Hsub)].
  - split_and!; try done. lia.
  - destruct (Hk r0) as [Hs' Hf']. rewrite Hb in Hs', Hf'. cbn in Hs', Hf'.
    rewrite Hs', Hf'. split_and!; try done. lia.
Qed.

Lemma hset_keeps key (h : Hash V) r out r' :
  hset key h r = (out, r') ->
  strings r' = strings r /\ faults r' ⊆ faults r /\
  refusals (faults r') <= refusals (faults r).
Proof. apply command_keeps_strings. by intros r0. Qed.

Lemma sadd_keeps key member (r : Redis.t (Hash V)) out r' :
  sadd key member r = (out, r') ->
  strings r' = strings r /\ faults r' ⊆ faults r /\
  refusals (faults r') <= refusals (faults r).
Proof. apply command_keeps_strings. by intros r0. Qed.

Lemma expire_keeps key seconds (r : Redis.t (Hash V)) out r' :
  expire key seconds r = (out, r') ->
  strings r' = strings r /\ faults r' ⊆ faults r /\
  refusals (faults r') <= refusals (faults r).
Proof.
  apply command_keeps_strings. intros r0. by case_decide.
Qed.

(** What a service that only talks to the server, and writes no
    string key, leaves of the world. *)
Definition quiet_on_locks w w' : Prop :=
  same_but_redis w w' /\
  strings (redis w') = strings (redis w) /\
  faults (redis w') ⊆ faults (redis w) /\
  refusals (faults (redis w')) <= refusals (faults (redis w)).

Lemma quiet_on_locks_refl w : quiet_on_locks w w.
Proof. split; [apply same_but_redis_refl|]. split_and!; done. Qed.

Lemma quiet_on_locks_trans w1 w2 w3 :
  quiet_on_locks w1 w2 -> quiet_on_locks w2 w3 -> quiet_on_locks w1 w3.
Proof.
  intros (Ha & ? & ? & ?) (Hb & ? & ? & ?).
  split; [by eapply same_but_redis_trans|].
  split_and!; [congruence|set_solver|lia].
Qed.

Lemma on_redis_quiet {A}
    (c : Redis.t (Hash V) -> outcome A * Redis.t (Hash V)) w out w' :
  (forall r o r', c r = (o, r') ->
     strings r' = strings r /\ faults r' ⊆ faults r /\
     refusals (faults r') <= refusals (faults r)) ->
  on_redis c w = (out, w') -> quiet_on_locks w w'.
Proof.
  intros Hc Hon. apply on_redis_inv in Hon as (r' & Hr & ->).
  apply Hc in Hr as (? & ? & ?).
  split; [by repeat split|]. by split_and!.
Qed.

Lemma recordCompensationFailure_spec env info w out w' :
  recordCompensationFailure JSON_stringify env info w = (out, w') ->
  out = Return tt /\ quiet_on_locks w w'.
Proof.
  unfold recordCompensationFailure, try_catch, bind, ret.
  destruct (on_redis (hset _ _) w) as [[[]|e1] w1] eqn:H1;
    pose proof (on_redis_quiet _ _ _ _ (hset_keeps _ _) H1) as Hq1.
  2: { intros [= <- <-]. done. }
  destruct (on_redis (sadd _ _) w1) as [[[]|e2] w2] eqn:H2;
    pose proof (on_redis_quiet _ _ _ _ (sadd_keeps _ _) H2) as Hq2.
  2: { intros [= <- <-]. split; [done|]. by eapply quiet_on_locks_trans. }
  destruct (on_redis (expire _ _) w2) as [[[]|e3] w3] eqn:H3;
    pose proof (on_redis_quiet _ _ _ _ (expire_keeps _ _) H3) as Hq3.
  all: intros [= <- <-]; split; [done|].
  all: eapply quiet_on_locks_trans; [|exact Hq3].
  all: by eapply quiet_on_locks_trans.
Qed.

(** The entry has a compensate action to call. *)
Definition compensable (entry : ExecutionResult V W) : bool :=
  match stepFunction entry with
  | Some sf => bool_decide (is_Some (compensate sf))
  | None => false
  end.

(** The calls of compensate actions a trail gives rise to, in the
    order of the trail: one for each entry that has the action, with
    the result the entry stores. *)
Definition compensation_calls (trail : list (ExecutionResult V W))
    : list (Event V) :=
  map (fun entry => EvCompensate (step entry) (result entry))
      (filter (fun entry => compensable entry = true) trail).

Lemma compensation_calls_cons entry trail :
  compensation_calls (entry :: trail) =
  (if compensable entry then [EvCompensate (step entry) (result entry)] else [])
  ++ compensation_calls trail.
Proof.
  unfold compensation_calls. rewrite filter_cons.
  destruct (compensable entry); by case_decide.
Qed.

Lemma compensation_calls_app t1 t2 :
  compensation_calls (t1 ++ t2) = compensation_calls t1 ++ compensation_calls t2.
Proof. unfold compensation_calls. by rewrite filter_app, map_app. Qed.

(** One round of the loop of [executeCompensation]: the action, when
    there is one, is called once, and a throw ends in a record, not
    in an exception. *)
Lemma compensate_round env (job0 : Job V) entry w out w' :
  try_catch (compensateOne entry)
    (fun compensationError =>
       if isRetryableCompensationError compensationError
       then recordCompensationFailure JSON_stringify env
              (mkFailureInfo (job_id job0) (step entry) (result entry)
                             compensationError true)
       else recordCompensationFailure JSON_stringify env
              (mkFailureInfo (job_id job0) (step entry) (result entry)
                             compensationError false)) w = (out, w') ->
  out = Return tt /\
  trace w' = trace w ++
    (if compensable entry then [EvCompensate (step entry) (result entry)] else []) /\
  job w' = job w /\ persisted w' = persisted w /\
  strings (redis w') = strings (redis w) /\
  faults (redis w') ⊆ faults (redis w) /\
  refusals (faults (redis w')) <= refusals (faults (redis w)) /\
  (compensable entry = false -> w' = w).
Proof.
  unfold try_catch, compensateOne, compensable.
  destruct (stepFunction entry) as [sf|].
  2: { intros [= <- <-]. rewrite app_nil_r. by split_and!. }
  destruct (compensate sf) as [action|].
  2: { intros [= <- <-]. rewrite app_nil_r. by split_and!. }
  rewrite bool_decide_eq_true_2 by by eexists.
  unfold on_user. destruct (action (result entry) (user w)) as [[[]|e] u].
  - intros [= <- <-]. by split_and!.
  - intros Hrec.
    assert (exists b, recordCompensationFailure JSON_stringify env
              (mkFailureInfo (job_id job0) (step entry) (result entry) e b)
              (with_user (with_trace w (trace w ++ [EvCompensate (step entry) (result entry)])) u)
            = (out, w')) as [b Hb].
    { destruct (isRetryableCompensationError e); eauto. }
    apply recordCompensationFailure_spec in Hb
      as (-> & (Hj & Hp & Hu & Ht) & Hs & Hsub & Hf).
    cbn in *. by split_and!.
Qed.

Lemma executeCompensation_spec env (job0 : Job V) trail :
  forall w out w',
  executeCompensation JSON_stringify env trail job0 w = (out, w') ->
  out = Return tt /\
  trace w' = trace w ++ compensation_calls trail /\
  job w' = job w /\ persisted w' = persisted w /\
  strings (redis w') = strings (redis w) /\
  faults (redis w') ⊆ faults (redis w) /\
  refusals (faults (redis w')) <= refusals (faults (redis w)).
Proof.
  induction trail as [|entry rest IH]; intros w out w'; cbn [executeCompensation].
  - intros [= <- <-]. rewrite app_nil_r. by split_and!.
  - unfold bind at 1.
    destruct (try_catch _ _ w) as [o1 w1] eqn:Hround.
    apply compensate_round in Hround as (-> & Ht1 & Hj1 & Hp1 & Hs1 & Hsub1 & Hf1 & _).
    intros Hrest. apply IH in Hrest as (-> & Ht & Hj & Hp & Hs & Hsub & Hf).
    rewrite compensation_calls_cons, app_assoc, <- Ht1.
    split_and!; try congruence; [set_solver|lia].
Qed.

(** C10. A trail entry without a compensate action is passed over in
    silence: alone it leaves the world as it is (no call of user code,
    no compensation-failure record, no command to the server), and in
    the middle of a trail the entries around it are processed as if it
    were not there. *)
Theorem executeCompensation_skips_missing_compensate env (job0 : Job V)
    (before after : list (ExecutionResult V W)) entry w :
  compensable entry = false ->
  executeCompensation JSON_stringify env [entry] job0 w = (Return tt, w) /\
  executeCompensation JSON_stringify env (before ++ entry :: after) job0 w =
  executeCompensation JSON_stringify env (before ++ after) job0 w.
Proof.
  intros Hno.
  assert (Hskip : forall w0 rest,
    executeCompensation JSON_stringify env (entry :: rest) job0 w0 =
    executeCompensation JSON_stringify env rest job0 w0).
  { intros w0 rest. cbn [executeCompensation]. unfold bind at 1.
    destruct (try_catch _ _ w0) as [o1 w1] eqn:Hround.
    apply compensate_round in Hround as (-> & _ & _ & _ & _ & _ & _ & Hsame).
    by rewrite (Hsame Hno). }
  split; [by rewrite Hskip|].
  revert w. induction before as [|b before IH]; intros w; cbn [app].
  - apply Hskip.
  - cbn [executeCompensation]. unfold bind.
    destruct (try_catch _ _ w) as [[[]|e] w1]; [apply IH|done].
Qed.

End Facts.
(** A step with no compensate action between two that have one. *)
Definition undo_noop : StepFunction Z (list string) :=
  mkStep "audit" (fun u => (Return (value 0%Z), u)) None.
Definition undo_log (name : string) : StepFunction Z (list string) :=
  mkStep name (fun u => (Return (value 1%Z), u))
         (Some (fun _ u => (Return tt, u ++ [name +:+ "-"]))).

Definition idle_world : World Z (list string) :=
  mkWorld (Redis.mk ∅ ∅ ∅ ∅ []) (mkJob "1" (mkJobData 7 [] 0 "" None None) 0)
          [] [] [].

Definition no_env : Env := mkEnv "2025-09-12T00:00:00.000Z" 0 "x" 0.

Definition entry_of (sf : StepFunction Z (list string)) :=
  mkExecutionResult (sf_name sf) (value 1%Z) (Some sf).

Lemma executeCompensation_skips_missing_compensate_witness :
  compensable (entry_of undo_noop) = false /\
  executeCompensation (fun _ => "") no_env [entry_of undo_noop]
    (job idle_world) idle_world = (Return tt, idle_world) /\
  executeCompensation (fun _ => "") no_env
    ([entry_of (undo_log "B")] ++ entry_of undo_noop :: [entry_of (undo_log "A")])
    (job idle_world) idle_world =
  executeCompensation (fun _ => "") no_env
    ([entry_of (undo_log "B")] ++ [entry_of (undo_log "A")])
    (job idle_world) idle_world.
Proof.
  split; [reflexivity|].
  exact (executeCompensation_skips_missing_compensate (fun _ => "") no_env
           (job idle_world) [entry_of (undo_log "B")] [entry_of (undo_log "A")]
           (entry_of undo_noop) idle_world eq_refl).
Defined.

End CompensationFacts.

(** ** The consumer *)

Module ConsumerFacts.
Import Redis RedisFacts LockFacts CompensationService CompensationFacts.
Import JsFacts ClassificationFacts SimpleTransactionConsumer.

Section Facts.
Context {V W : Type}.
Variable JSON_stringify : any V -> string.
Variable percent : nat -> nat -> Z.
Variable stepRegistry : StepRegistry.t V W.
Implicit Types (w : World V W) (d : JobData V).

Lemma hset_cases key (h : Hash V) (r : Redis.t (Hash V)) out r' :
  hset key h r = (out, r') ->
  strings r' = strings r /\ faults r' ⊆ faults r /\
  ((exists e, out = Throw e /\ hashes r' = hashes r /\
              S (refusals (faults r')) = refusals (faults r)) \/
   (out = Return tt /\ hashes r' = <[key := h]> (hashes r) /\
    refusals (faults r') = refusals (faults r))).
Proof.
  unfold hset. intros Hc.
  destruct (command_cases _ _ _ _ Hc)
    as [(e & -> & ? & ? & ? & ? & ? & ? & ?)
       |(a & r0 & -> & Hb & Hs & Hh & ? & ? & Hf & Hsub)].
  - split_and!; try done. left. by exists e.
  - injection Hb as <- <-. cbn. rewrite Hh.
    split_and!; try done. by right.
Qed.

Lemma sadd_cases key member (r : Redis.t (Hash V)) out r' :
  sadd key member r = (out, r') ->
  strings r' = strings r /\ faults r' ⊆ faults r /\ hashes r' = hashes r /\
  ((exists e, out = Throw e /\
              S (refusals (faults r')) = refusals (faults r)) \/
   (out = Return tt /\ refusals (faults r') = refusals (faults r))).
Proof.
  unfold sadd. intros Hc.
  destruct (command_cases _ _ _ _ Hc)
    as [(e & -> & ? & ? & ? & ? & ? & ? & ?)
       |(a & r0 & -> & Hb & Hs & Hh & ? & ? & Hf & Hsub)].
  - split_and!; try done. left. by exists e.
  - injection Hb as <- <-. cbn.
    split_and!; try done. by right.
Qed.

(** The key and the id [addToDLQ] files a record under. *)
Definition dlqId (env : Env) : string :=
  "dlq_" +:+ pretty (now_ms env) +:+ "_" +:+ random_suffix env.
Definition dlqKey (env : Env) : string := "dlq:" +:+ dlqId env.

Lemma addToDLQ_spec env (record : DLQJobData V) w out w' :
  DLQService.addToDLQ env record w = (out, w') ->
  quiet_on_locks w w' /\
  (hashes (redis w') = hashes (redis w) \/
   hashes (redis w') =
     <[dlqKey env := DLQHash (dlqId env) record]> (hashes (redis w))) /\
  (quiet (faults (redis w)) ->
     out = Return (dlqId env) /\
     hashes (redis w') =
       <[dlqKey env := DLQHash (dlqId env) record]> (hashes (redis w)) /\
     quiet (faults (redis w'))).
Proof.
  unfold DLQService.addToDLQ, bind, ret. fold (dlqId env). fold (dlqKey env).
  destruct (on_redis (hset _ _) w) as [o1 w1] eqn:H1.
  apply on_redis_inv in H1 as (r1 & H1 & ->).
  apply hset_cases in H1 as (Hs1 & Hsub1 & [(e & -> & Hh1 & Hf1)|(-> & Hh1 & Hf1)]).
  { intros [= <- <-]. split_and!.
    - split; [by repeat split|]. cbn. split_and!; try done. lia.
    - by left.
    - unfold quiet. cbn. lia. }
  destruct (on_redis (sadd _ _) _) as [o2 w2] eqn:H2.
  apply on_redis_inv in H2 as (r2 & H2 & ->). cbn in H2.
  apply sadd_cases in H2 as (Hs2 & Hsub2 & Hh2 & [(e & -> & Hf2)|(-> & Hf2)]).
  { intros [= <- <-]. split_and!.
    - split; [by repeat split|]. cbn. split_and!; [congruence|set_solver|lia].
    - right. cbn. congruence.
    - unfold quiet. cbn. lia. }
  case_decide as Hprio.
  - destruct (on_redis (sadd _ _) _) as [o3 w3] eqn:H3.
    apply on_redis_inv in H3 as (r3 & H3 & ->). cbn in H3.
    apply sadd_cases in H3 as (Hs3 & Hsub3 & Hh3 & [(e & -> & Hf3)|(-> & Hf3)]).
    + intros [= <- <-]. split_and!.
      * split; [by repeat split|]. cbn. split_and!; [congruence|set_solver|lia].
      * right. cbn. congruence.
      * unfold quiet. cbn. lia.
    + intros [= <- <-]. split_and!.
      * split; [by repeat split|]. cbn. split_and!; [congruence|set_solver|lia].
      * right. cbn. congruence.
      * unfold quiet. cbn. intros Hq. split_and!; [done|congruence|lia].
  - intros [= <- <-]. split_and!.
    + split; [by repeat split|]. cbn. split_and!; [congruence|set_solver|lia].
    + right. cbn. congruence.
    + unfold quiet. cbn. intros Hq. split_and!; [done|congruence|lia].
Qed.

Lemma handleDeadLetterQueue_spec env (finalError : Error) w out w' :
  handleDeadLetterQueue env finalError w = (out, w') ->
  out = Return tt /\ quiet_on_locks w w' /\
  (hashes (redis w') = hashes (redis w) \/
   hashes (redis w') =
     <[dlqKey env := DLQHash (dlqId env) (dlqData env (job w) finalError)]>
       (hashes (redis w))) /\
  (quiet (faults (redis w)) ->
     hashes (redis w') =
       <[dlqKey env := DLQHash (dlqId env) (dlqData env (job w) finalError)]>
         (hashes (redis w)) /\
     quiet (faults (redis w'))).
Proof.
  unfold handleDeadLetterQueue, try_catch, bind, ret.
  destruct (DLQService.addToDLQ _ _ w) as [[id|e] w1] eqn:Hadd;
    apply addToDLQ_spec in Hadd as (Hq & Hh & Hquiet);
    intros [= <- <-]; split_and!; try done.
  - intros Hqq. by destruct (Hquiet Hqq) as (_ & ? & ?).
  - intros Hqq. by destruct (Hquiet Hqq) as ([=] & _).
Qed.

(** The index [updateJobStepStatus] leaves in [currentStepIndex]. *)
Definition next_index (status : StepStatus) (stepIndex count current : nat) : nat :=
  match status with
  | completed => if decide (stepIndex + 1 < count) then stepIndex + 1
                 else Nat.max current stepIndex
  | in_progress => Nat.max current stepIndex
  | _ => current
  end.

Lemma updateJobStepStatus_ok (i : nat) (status : StepStatus) (res : any V) w s :
  steps (data (job w)) !! i = Some s ->
  exists d',
    updateJobStepStatus i status res w =
      (Return tt,
       with_persisted (with_job w (mkJob (job_id (job w)) d' (progress (job w))))
                      (persisted w ++ [d'])) /\
    length (steps d') = length (steps (data (job w))) /\
    (forall j, j ≠ i -> steps d' !! j = steps (data (job w)) !! j) /\
    (exists s', steps d' !! i = Some s' /\ step_status s' = status /\
                step_name s' = step_name s /\
                (res = undefined \/ step_result s' = res)) /\
    currentStepIndex d' =
      next_index status i (length (steps (data (job w))))
                 (currentStepIndex (data (job w))).
Proof.
  intros Hs. unfold updateJobStepStatus, updateData. rewrite Hs.
  eexists. split; [reflexivity|]. cbn [steps currentStepIndex].
  assert (Hi : i < length (steps (data (job w)))) by by eapply lookup_lt_Some.
  split_and!.
  - by rewrite length_insert.
  - intros j Hj. by rewrite list_lookup_insert_ne.
  - eexists. split; [by apply list_lookup_insert_eq|].
    destruct res; split_and!; try done; first [by left|by right].
  - rewrite length_insert. unfold next_index.
    destruct status; cbn.
    + case_decide as Hd; [by destruct Hd|done].
    + case_decide as Hd; [done|]. exfalso. apply Hd. by left.
    + case_decide as Hd; [|exfalso; apply Hd; by right].
      destruct (Z.ltb_spec (Z.of_nat i) (Z.of_nat (length (steps (data (job w)))) - 1));
        case_decide; try done; lia.
    + case_decide as Hd; [by destruct Hd|done].
Qed.

(** [d'] is [d] after [updateJobStepStatus i status]. *)
Definition updated (status : StepStatus) (i : nat) d d' : Prop :=
  length (steps d') = length (steps d) /\
  (forall j, j ≠ i -> steps d' !! j = steps d !! j) /\
  (exists s', steps d' !! i = Some s' /\ step_status s' = status) /\
  currentStepIndex d' =
    next_index status i (length (steps d)) (currentStepIndex d).

(** Step [i] of [d'] stores [res], when [res] is not [undefined]. *)
Definition stored (res : any V) (i : nat) d' : Prop :=
  exists s', steps d' !! i = Some s' /\
             (res = undefined \/ step_result s' = res).

Lemma updateJobStepStatus_updated (i : nat) (status : StepStatus) (res : any V) w :
  i < length (steps (data (job w))) ->
  exists d',
    updateJobStepStatus i status res w =
      (Return tt,
       with_persisted (with_job w (mkJob (job_id (job w)) d' (progress (job w))))
                      (persisted w ++ [d'])) /\
    updated status i (data (job w)) d' /\
    stored res i d'.
Proof.
  intros Hi. destruct (lookup_lt_is_Some_2 _ _ Hi) as [s Hs].
  destruct (updateJobStepStatus_ok i status res w s Hs)
    as (d' & Hrun & Hlen & Hother & (s' & Hs' & Hst & _ & Hres) & Hcur).
  exists d'. split; [done|]. split; [|by exists s'].
  split_and!; try done. by exists s'.
Qed.

(** The [try] block of one round: the step is marked in progress;
    then either no function is registered under its name, or the
    function is called once and throws, or it is called once, returns,
    and the step is marked completed. *)
Lemma runStep_cases (steps0 : list (JobStepData V)) (i : nat) (name : string)
    w out w' :
  i < length (steps (data (job w))) ->
  runStep percent stepRegistry steps0 i name w = (out, w') ->
  redis w' = redis w /\ job_id (job w') = job_id (job w) /\
  exists d1, updated in_progress i (data (job w)) d1 /\
    match out with
    | Return entry =>
        exists sf res d2,
          StepRegistry.get name stepRegistry = Some sf /\
          entry = mkExecutionResult name res (Some sf) /\
          trace w' = trace w ++ [EvExecute name] /\
          updated completed i d1 d2 /\ stored res i d2 /\
          persisted w' = persisted w ++ [d1; d2] /\
          data (job w') = d2
    | Throw e =>
        persisted w' = persisted w ++ [d1] /\ data (job w') = d1 /\
        (trace w' = trace w \/ trace w' = trace w ++ [EvExecute name])
    end.
Proof.
  intros Hi. unfold runStep, bind, updateProgress.
  set (w0 := with_job w _).
  destruct (updateJobStepStatus_updated i in_progress undefined w0 Hi)
    as (d1 & -> & Hd1 & _).
  set (w1 := with_persisted _ _).
  destruct (StepRegistry.get name stepRegistry) as [sf|] eqn:Hget.
  2: { intros [= <- <-]. split_and!; try done. exists d1. split; [done|].
       split_and!; try done. by left. }
  unfold on_user. destruct (execute sf (user w1)) as [[res|e] u] eqn:Hex.
  - set (w2 := with_user _ _).
    assert (Hi2 : i < length (steps (data (job w2)))).
    { cbn. destruct Hd1 as (-> & _). done. }
    destruct (updateJobStepStatus_updated i completed res w2 Hi2)
      as (d2 & -> & Hd2 & Hres2).
    intros [= <- <-]. split_and!; try done. exists d1. split; [done|].
    exists sf, res, d2. cbn. split_and!; try done.
    by rewrite <- app_assoc.
  - intros [= <- <-]. split_and!; try done. exists d1. split; [done|].
    cbn. split_and!; try done. by right.
Qed.

(** One round of the second loop of [process], [catch] included. *)
Lemma round_cases env (steps0 : list (JobStepData V)) (i : nat) (name : string)
    (trail : list (ExecutionResult V W)) w out w' :
  i < length (steps (data (job w))) ->
  try_catch (runStep percent stepRegistry steps0 i name)
    (fun stepError =>
       updateJobStepStatus i failed undefined ;;;
       (fun w => executeCompensation JSON_stringify env (rev trail) (job w) w) ;;;
       throw stepError) w = (out, w') ->
  strings (redis w') = strings (redis w) /\
  faults (redis w') ⊆ faults (redis w) /\
  refusals (faults (redis w')) <= refusals (faults (redis w)) /\
  job_id (job w') = job_id (job w) /\
  exists d1, updated in_progress i (data (job w)) d1 /\
    match out with
    | Return entry =>
        exists sf res d2,
          StepRegistry.get name stepRegistry = Some sf /\
          entry = mkExecutionResult name res (Some sf) /\
          trace w' = trace w ++ [EvExecute name] /\
          updated completed i d1 d2 /\ stored res i d2 /\
          persisted w' = persisted w ++ [d1; d2] /\
          data (job w') = d2
    | Throw e =>
        exists d3 attempted,
          updated failed i d1 d3 /\
          persisted w' = persisted w ++ [d1; d3] /\
          data (job w') = d3 /\
          (attempted = [] \/ attempted = [EvExecute name]) /\
          trace w' = trace w ++ attempted ++ compensation_calls (rev trail)
    end.
Proof.
  intros Hi. unfold try_catch.
  destruct (runStep _ _ _ _ _ w) as [[entry|e] w1] eqn:Hrun;
    apply runStep_cases in Hrun as (Hr & Hid & d1 & Hd1 & Hout); try done.
  - intros [= <- <-]. rewrite Hr. split_and!; try done. by exists d1.
  - destruct Hout as (Hp1 & Hdata1 & Htr1). unfold bind, throw.
    assert (Hi1 : i < length (steps (data (job w1)))).
    { rewrite Hdata1. destruct Hd1 as (-> & _). done. }
    destruct (updateJobStepStatus_updated i failed undefined w1 Hi1)
      as (d3 & -> & Hd3 & _).
    set (w2 := with_persisted _ _).
    destruct (executeCompensation _ _ _ _ w2) as [o3 w3] eqn:Hcomp.
    apply executeCompensation_spec in Hcomp
      as (-> & Ht3 & Hj3 & Hp3 & Hs3 & Hsub3 & Hf3).
    intros [= <- <-]. cbn in *. rewrite Hr in *.
    split_and!; try done; [by rewrite Hj3|].
    exists d1. split; [done|]. rewrite Hdata1 in Hd3.
    destruct Htr1 as [Htr1|Htr1].
    + exists d3, []. split_and!; try done.
      * by rewrite Hp3, Hp1, <- app_assoc.
      * by rewrite Hj3.
      * by left.
      * by rewrite Ht3, Htr1.
    + exists d3, [EvExecute name]. split_and!; try done.
      * by rewrite Hp3, Hp1, <- app_assoc.
      * by rewrite Hj3.
      * by right.
      * by rewrite Ht3, Htr1, <- app_assoc.
Qed.

(** The entry was made for a registered step function. *)
Definition registered (entry : ExecutionResult V W) : Prop :=
  exists sf, stepFunction entry = Some sf /\
             StepRegistry.get (step entry) stepRegistry = Some sf.

(** The second loop of [process]: the entries [done] of the steps this
    invocation completed, in order; then either every round was run,
    or the step after [done] failed, was marked so, and the trail
    ([trail] then [done]) was compensated in reverse. *)
Lemma executeSteps_trace env (steps0 : list (JobStepData V)) (count : nat) :
  forall (i : nat) (trail : list (ExecutionResult V W)) w out w',
  length (steps (data (job w))) = length steps0 ->
  i + count <= length steps0 ->
  executeSteps JSON_stringify percent stepRegistry env steps0 count i trail w
    = (out, w') ->
  strings (redis w') = strings (redis w) /\
  faults (redis w') ⊆ faults (redis w) /\
  refusals (faults (redis w')) <= refusals (faults (redis w)) /\
  job_id (job w') = job_id (job w) /\
  length (steps (data (job w'))) = length steps0 /\
  (forall j, j < i -> steps (data (job w')) !! j = steps (data (job w)) !! j) /\
  exists done : list (ExecutionResult V W),
    map step done = map step_name (take (length done) (drop i steps0)) /\
    Forall registered done /\
    (forall j entry, done !! j = Some entry ->
       exists s, steps (data (job w')) !! (i + j) = Some s /\
                 step_status s = completed /\
                 (result entry = undefined \/ step_result s = result entry)) /\
    match out with
    | Return trail' =>
        trail' = trail ++ done /\ length done = count /\
        trace w' = trace w ++ map EvExecute (map step done)
    | Throw e =>
        length done < count /\
        exists failing attempted,
          steps0 !! (i + length done) = Some failing /\
          (attempted = [] \/ attempted = [EvExecute (step_name failing)]) /\
          trace w' = trace w ++ map EvExecute (map step done) ++ attempted
                     ++ compensation_calls (rev (trail ++ done)) /\
          (exists s, steps (data (job w')) !! (i + length done) = Some s /\
                     step_status s = failed)
    end.
Proof.
  induction count as [|count IH]; intros i trail w out w' Hlen Hbound;
    cbn [executeSteps].
  - intros [= <- <-]. split_and!; try done. exists [].
    rewrite !app_nil_r. split_and!; try done.
  - destruct (lookup_lt_is_Some_2 steps0 i ltac:(lia)) as [s0 Hs0].
    rewrite Hs0. unfold bind at 1.
    destruct (try_catch _ _ w) as [[entry|e] w1] eqn:Hround;
      apply round_cases in Hround
        as (Hs1 & Hsub1 & Hf1 & Hid1 & d1 & Hd1 & Hout); try lia.
    + destruct Hout as (sf & res & d2 & Hget & -> & Htr & Hd2 & Hres & Hp & Hdata).
      assert (Hlen2 : length (steps d2) = length steps0).
      { destruct Hd2 as (-> & _), Hd1 as (-> & _). done. }
      intros Hrest. apply IH in Hrest; [|by rewrite Hdata|lia].
      destruct Hrest as (Hs' & Hsub' & Hf' & Hid' & Hlen' & Hframe & done
                         & Hnames & Hreg & Hstored & Hrest).
      rewrite Hdata in Hframe.
      split_and!; try congruence; [set_solver|lia| |].
      { intros j Hj. rewrite Hframe by lia.
        destruct Hd2 as (_ & Ho2 & _). destruct Hd1 as (_ & Ho1 & _).
        rewrite Ho2, Ho1 by lia. done. }
      set (entry := mkExecutionResult (step_name s0) res (Some sf)).
      exists (entry :: done). split.
      { cbn [length map]. erewrite drop_S by done. cbn [take].
        by rewrite Hnames. }
      split; [apply Forall_cons; split; [by exists sf|done]|].
      split.
      { intros [|j] entry' Hentry.
        - injection Hentry as <-. rewrite Nat.add_0_r, Hframe by lia.
          destruct Hd2 as (_ & _ & (s2 & Hs2 & Hst2) & _).
          destruct Hres as (s2' & Hs2' & Hres). exists s2.
          split_and!; try done. cbn. congruence.
        - replace (i + S j) with (S i + j) by lia. by apply Hstored. }
      destruct out as [trail'|e].
      * destruct Hrest as (-> & <- & Htr'). split_and!; try done.
        -- by rewrite <- app_assoc.
        -- rewrite Htr', Htr. by rewrite <- app_assoc.
      * destruct Hrest as (Hlt & failing & attempted & Hfail & Hatt & Htr' & Hst).
        cbn [length]. split; [lia|]. exists failing, attempted.
        replace (i + S (length done)) with (S i + length done) by lia.
        split_and!; try done.
        rewrite Htr', Htr. rewrite <- !app_assoc. cbn [map app]. done.
    + destruct Hout as (d3 & attempted & Hd3 & Hp & Hdata & Hatt & Htr).
      intros [= <- <-]. rewrite Hdata.
      assert (Hlen3 : length (steps d3) = length steps0).
      { destruct Hd3 as (-> & _), Hd1 as (-> & _). done. }
      split_and!; try done.
      { intros j Hj. destruct Hd3 as (_ & Ho3 & _). destruct Hd1 as (_ & Ho1 & _).
        rewrite Ho3, Ho1 by lia. done. }
      exists []. cbn [length map app]. rewrite Nat.add_0_r, app_nil_r.
      split; [by rewrite take_0|]. split; [constructor|].
      split; [by intros j entry ?|]. split; [lia|].
      exists s0, attempted. split_and!; try done.
      destruct Hd3 as (_ & _ & (s' & ? & ?) & _). by exists s'.
Qed.

(** The first loop reads [steps[i]] for every [i] below
    [currentStepIndex]: it throws when that is beyond the steps. *)
Lemma rebuildTrail_bound (steps0 : list (JobStepData V)) (count : nat) :
  forall (from : nat) trail0 trail,
  rebuildTrail stepRegistry steps0 count from trail0 = Return trail ->
  from + count <= length steps0 \/ count = 0.
Proof.
  induction count as [|count IH]; intros from trail0 trail; cbn [rebuildTrail].
  - by right.
  - destruct (steps0 !! from) as [s|] eqn:Hs; [|discriminate].
    intros Hrest. apply IH in Hrest as [?| ->]; left; [lia|].
    apply lookup_lt_Some in Hs. lia.
Qed.

Lemma rebuildTrail_in_range (steps0 : list (JobStepData V)) (count : nat) trail :
  length steps0 < count ->
  rebuildTrail stepRegistry steps0 count 0 [] = Return trail -> False.
Proof.
  intros Hgt Hr. apply rebuildTrail_bound in Hr as [?|?]; lia.
Qed.

Lemma releaseLock_world resources (jobId : string) w out w' :
  on_redis (DistributedLockService.releaseLock resources jobId) w = (out, w') ->
  same_but_redis w w' /\
  faults (redis w') ⊆ faults (redis w) /\
  ((exists e, out = Throw e /\ strings (redis w') = strings (redis w)) \/
   (out = Return tt /\
    strings (redis w') =
      (release_script (DistributedLockService.generateResourceLockKeys resources)
                      jobId (strings (redis w))).2)).
Proof.
  intros Hon. apply on_redis_inv in Hon as (r' & Hrel & ->).
  unfold DistributedLockService.releaseLock in Hrel.
  apply releaseLockInternal_cases in Hrel
    as (_ & _ & _ & Hsub & [(e & -> & Hs & _)|(-> & Hs & _)]).
  - split_and!; [by repeat split|done|]. left. by exists e.
  - split_and!; [by repeat split|done|]. by right.
Qed.

(** An invocation that got the lock and rebuilt the trail: what it
    leaves is what the second loop left, up to the progress of the job
    and the commands sent to the server afterwards. *)
Lemma process_run env w r1 trail out w' :
  let d := data (job w) in
  let resources := finalResourceIdentifiers (userId d) (resourceIdentifiers d) in
  DistributedLockService.acquireLock resources (job_id (job w)) LOCK_TTL (redis w)
    = (Return true, r1) ->
  rebuildTrail stepRegistry (steps d) (currentStepIndex d) 0 [] = Return trail ->
  process JSON_stringify percent stepRegistry env w = (out, w') ->
  exists o2 w2,
    executeSteps JSON_stringify percent stepRegistry env (steps d)
      (length (steps d) - currentStepIndex d) (currentStepIndex d) trail
      (with_redis w r1) = (o2, w2) /\
    data (job w') = data (job w2) /\ job_id (job w') = job_id (job w2) /\
    persisted w' = persisted w2 /\ trace w' = trace w2 /\
    faults (redis w') ⊆ faults (redis w2) /\
    (strings (redis w') = strings (redis w2) \/
     strings (redis w') =
       (release_script (DistributedLockService.generateResourceLockKeys resources)
                       (job_id (job w)) (strings (redis w2))).2) /\
    match o2 with
    | Return results =>
        out = Return (mkProcessResult true (length (steps d)) (duration env) results)
        \/ exists e, out = Throw e
    | Throw e => exists e', out = Throw e'
    end.
Proof.
  intros d resources Hacq Hrebuild. unfold process.
  fold d. fold resources. unfold on_redis at 1. rewrite Hacq.
  unfold try_finally, try_catch, transaction. cbn [negb].
  unfold bind at 1. rewrite Hrebuild. unfold bind at 1.
  destruct (executeSteps _ _ _ _ _ _ _ _ (with_redis w r1)) as [[results|e] w2] eqn:Hloop.
  - unfold bind, updateProgress, ret.
    destruct (on_redis _ _) as [o3 w3] eqn:Hrel.
    apply releaseLock_world in Hrel as ((Hj & Hp & Hu & Ht) & Hsub & Hs).
    cbn in Hj, Hp, Hu, Ht, Hsub, Hs. intros Hfin.
    exists (Return results), w2. split; [done|].
    destruct Hs as [(e & -> & Hs)|(-> & Hs)]; injection Hfin as <- <-;
      rewrite Hj; cbn; split_and!; eauto.
  - unfold bind, throw.
    destruct (handleDeadLetterQueue env e w2) as [o3 w3] eqn:Hdlq.
    apply handleDeadLetterQueue_spec in Hdlq
      as (-> & ((Hj & Hp & Hu & Ht) & Hs & Hsub & _) & _).
    destruct (on_redis _ w3) as [o4 w4] eqn:Hrel.
    apply releaseLock_world in Hrel as ((Hj' & Hp' & Hu' & Ht') & Hsub' & Hs').
    intros Hfin. exists (Throw e), w2. split; [done|].
    destruct Hs' as [(e' & -> & Hs')|(-> & Hs')]; injection Hfin as <- <-;
      rewrite Hj', Hj; split_and!; try congruence; try set_solver.
    + left. congruence.
    + right. by rewrite Hs', Hs.
Qed.

(** An invocation that did not get the lock: it throws (the error of
    the server, or the busy error), files the failure, and sends no
    release; the lock keys are as [acquireLock] left them. *)
Lemma process_refused env w oa r1 out w' :
  let d := data (job w) in
  let resources := finalResourceIdentifiers (userId d) (resourceIdentifiers d) in
  DistributedLockService.acquireLock resources (job_id (job w)) LOCK_TTL (redis w)
    = (oa, r1) ->
  oa ≠ Return true ->
  process JSON_stringify percent stepRegistry env w = (out, w') ->
  out = Throw (match oa with
               | Throw e => e
               | Return _ => new_Error (busyMessage resources)
               end) /\
  quiet_on_locks (with_redis w r1) w'.
Proof.
  intros d resources Hacq Hno. unfold process.
  fold d. fold resources. unfold on_redis at 1. rewrite Hacq.
  destruct oa as [[|]|e]; [done| |].
  - unfold try_finally, try_catch, transaction. cbn [negb]. unfold throw at 1.
    unfold bind, throw, ret.
    destruct (handleDeadLetterQueue _ _ _) as [o3 w3] eqn:Hdlq.
    apply handleDeadLetterQueue_spec in Hdlq as (-> & Hq & _).
    by intros [= <- <-].
  - unfold bind, throw.
    destruct (handleDeadLetterQueue _ _ _) as [o3 w3] eqn:Hdlq.
    apply handleDeadLetterQueue_spec in Hdlq as (-> & Hq & _).
    by intros [= <- <-].
Qed.

(** An invocation whose first loop throws persists nothing and calls
    no user code. *)
Lemma process_rebuild_fails env w r1 e out w' :
  let d := data (job w) in
  let resources := finalResourceIdentifiers (userId d) (resourceIdentifiers d) in
  DistributedLockService.acquireLock resources (job_id (job w)) LOCK_TTL (redis w)
    = (Return true, r1) ->
  rebuildTrail stepRegistry (steps d) (currentStepIndex d) 0 [] = Throw e ->
  process JSON_stringify percent stepRegistry env w = (out, w') ->
  (exists e', out = Throw e') /\ same_but_redis w w'.
Proof.
  intros d resources Hacq Hrebuild. unfold process.
  fold d. fold resources. unfold on_redis at 1. rewrite Hacq.
  unfold try_finally, try_catch, transaction. cbn [negb].
  unfold bind at 1. rewrite Hrebuild. unfold bind, throw.
  destruct (handleDeadLetterQueue _ _ _) as [o3 w3] eqn:Hdlq.
  apply handleDeadLetterQueue_spec in Hdlq as (-> & (Hsame & _) & _).
  destruct (on_redis _ w3) as [o4 w4] eqn:Hrel.
  apply releaseLock_world in Hrel as (Hsame' & _ & Hs').
  assert (Hw : same_but_redis w w4).
  { eapply same_but_redis_trans; [|exact Hsame'].
    eapply same_but_redis_trans; [|exact Hsame]. by repeat split. }
  destruct Hs' as [(e' & -> & _)|(-> & _)]; intros [= <- <-]; eauto.
Qed.


(** *** Quarantine *)

Lemma isDLQRetryable_spec (error : Error) :
  isDLQRetryable error = true <->
  ~ matches_ci nonRetryableErrors (message error) /\
  matches_cs retryableErrors error.
Proof.
  unfold isDLQRetryable.
  pose proof (nonRetryable_spec nonRetryableErrors (message error)) as Hn.
  pose proof (retryable_spec retryableErrors error) as Hr.
  destruct (some _ nonRetryableErrors) eqn:Hterm.
  - split; [discriminate|]. intros [Hno _]. exfalso. apply Hno. by apply Hn.
  - rewrite Hr. split; [|by intros [_ ?]].
    intros Hm. split; [|done]. intros Hci. apply Hn in Hci. discriminate.
Qed.

(** C7, as the code has it. The record [handleDeadLetterQueue] files
    for a final error:
    - a message with 'Step function not found' and with none of the
      terminal terms (letter case apart) gives priority high and
      canRetry true;
    - an error none of whose retryable terms occurs in its message or
      name gives priority normal and canRetry false;
    - priority is high exactly when canRetry is true;
    and that record, under its key, is the only hash the call
    creates; it is created whenever the server refuses no command. *)
Theorem quarantine_classification env (finalError : Error) w out w' :
  handleDeadLetterQueue env finalError w = (out, w') ->
  let record := dlqData env (job w) finalError in
  (contains "Step function not found" (message finalError) ->
   ~ matches_ci nonRetryableErrors (message finalError) ->
   priority record = high /\ canRetry record = true) /\
  (~ matches_cs retryableErrors finalError ->
   priority record = normal /\ canRetry record = false) /\
  (priority record = high <-> canRetry record = true) /\
  (forall key h, hashes (redis w') !! key = Some h ->
     hashes (redis w) !! key = Some h \/
     (key = dlqKey env /\ h = DLQHash (dlqId env) record)) /\
  (quiet (faults (redis w)) ->
     hashes (redis w') !! dlqKey env = Some (DLQHash (dlqId env) record)).
Proof.
  intros Hrun record.
  apply handleDeadLetterQueue_spec in Hrun as (_ & _ & Hh & Hquiet).
  fold record in Hh, Hquiet.
  assert (Hcan : canRetry record = isDLQRetryable finalError) by reflexivity.
  assert (Hprio : priority record =
                  if isDLQRetryable finalError then high else normal)
    by reflexivity.
  split_and!.
  - intros Hfound Hterm. rewrite Hprio, Hcan.
    assert (Hr : isDLQRetryable finalError = true).
    { apply isDLQRetryable_spec. split; [done|].
      exists "Step function not found". split; [|by left].
      unfold retryableErrors. set_solver. }
    by rewrite Hr.
  - intros Hno. rewrite Hprio, Hcan.
    destruct (isDLQRetryable finalError) eqn:Hr; [|done].
    apply isDLQRetryable_spec in Hr as [_ Hr]. done.
  - rewrite Hprio, Hcan. by destruct (isDLQRetryable finalError).
  - intros key h Hkey. destruct Hh as [Hh|Hh]; rewrite Hh in Hkey; [by left|].
    destruct (decide (key = dlqKey env)) as [->|Hne].
    + rewrite lookup_insert_eq in Hkey. right. split; congruence.
    + rewrite lookup_insert_ne in Hkey by done. by left.
  - intros Hq. destruct (Hquiet Hq) as [-> _]. by rewrite lookup_insert_eq.
Qed.

(** *** The cursor of a job *)

(** The index of the first step that is not completed; for a job
    with every step completed, the index of the last step. *)
Definition cursor_ok d : Prop :=
  currentStepIndex d =
  match list_find (fun s => step_status s ≠ completed) (steps d) with
  | Some (i, _) => i
  | None => length (steps d) - 1
  end.

(** The payload [execute] creates, and every payload the consumer
    persists: the cursor is as above and no step after it is
    completed. *)
Definition job_invariant d : Prop :=
  cursor_ok d /\
  forall j s, currentStepIndex d < j -> steps d !! j = Some s ->
              step_status s ≠ completed.

(** The same, step by step. *)
Definition shape d : Prop :=
  (forall j s, j < currentStepIndex d -> steps d !! j = Some s ->
               step_status s = completed) /\
  (forall j s, currentStepIndex d < j -> steps d !! j = Some s ->
               step_status s ≠ completed) /\
  (currentStepIndex d < length (steps d) \/
   (length (steps d) = 0 /\ currentStepIndex d = 0)) /\
  (forall s, steps d !! currentStepIndex d = Some s ->
             step_status s = completed -> S (currentStepIndex d) = length (steps d)).

Lemma shape_cursor d : shape d -> cursor_ok d.
Proof.
  intros (Hbefore & Hafter & Hrange & Hat). unfold cursor_ok.
  destruct (list_find _ (steps d)) as [[i s]|] eqn:Hfind.
  - apply list_find_Some in Hfind as (Hi & Hopen & Hfirst).
    destruct (Nat.lt_trichotomy (currentStepIndex d) i) as [Hlt|[Heq|Hgt]]; [|done|].
    + exfalso. destruct Hrange as [Hr|[Hr _]];
        [|apply lookup_lt_Some in Hi; lia].
      destruct (lookup_lt_is_Some_2 _ _ Hr) as [sc Hsc].
      destruct (decide (step_status sc = completed)) as [Hc|Hc].
      * specialize (Hat _ Hsc Hc). apply lookup_lt_Some in Hi. lia.
      * by apply (Hfirst _ _ Hsc Hlt).
    + exfalso. by apply Hopen, (Hbefore i s).
  - apply list_find_None in Hfind.
    destruct Hrange as [Hr|[-> ->]]; [|done].
    destruct (lookup_lt_is_Some_2 _ _ Hr) as [sc Hsc].
    assert (Hc : step_status sc = completed).
    { destruct (decide (step_status sc = completed)); [done|].
      exfalso. eapply Forall_lookup_1 in Hfind; [|exact Hsc]. done. }
    specialize (Hat _ Hsc Hc). lia.
Qed.

Lemma invariant_shape d : job_invariant d -> shape d.
Proof.
  intros [Hcur Hafter]. unfold cursor_ok in Hcur.
  destruct (list_find _ (steps d)) as [[i s]|] eqn:Hfind.
  - apply list_find_Some in Hfind as (Hi & Hopen & Hfirst). subst i.
    split_and!; try done.
    + intros j sj Hj Hsj.
      destruct (decide (step_status sj = completed)); [done|].
      exfalso. by apply (Hfirst _ _ Hsj Hj).
    + left. by eapply lookup_lt_Some.
    + intros s' Hs' Hc. congruence.
  - apply list_find_None in Hfind.
    split_and!; try done.
    + intros j sj _ Hsj. eapply Forall_lookup_1 in Hfind; [|exact Hsj].
      by destruct (decide (step_status sj = completed)).
    + destruct (steps d) as [|s0 rest]; [right; by split|left; cbn in *; lia].
    + intros s' Hs' _. apply lookup_lt_Some in Hs'. lia.
Qed.

Lemma shape_in_progress (i : nat) d d1 :
  shape d -> currentStepIndex d = i -> i < length (steps d) ->
  updated in_progress i d d1 ->
  shape d1 /\ currentStepIndex d1 = i.
Proof.
  intros (Hbefore & Hafter & Hrange & Hat) Hcur Hi
         (Hlen & Hother & (s' & Hs' & Hst) & Hnext).
  unfold next_index in Hnext. rewrite Hcur, Nat.max_id in Hnext.
  split; [|done]. rewrite <- Hcur in *. split_and!.
  - intros j s Hj Hs. rewrite Hnext in Hj. rewrite Hother in Hs by lia. eauto.
  - intros j s Hj Hs. rewrite Hnext in Hj. rewrite Hother in Hs by lia. eauto.
  - left. lia.
  - intros s Hs Hc. rewrite Hnext in Hs. congruence.
Qed.

Lemma shape_failed (i : nat) d1 d3 :
  shape d1 -> currentStepIndex d1 = i -> i < length (steps d1) ->
  updated failed i d1 d3 ->
  shape d3 /\ currentStepIndex d3 = i.
Proof.
  intros (Hbefore & Hafter & Hrange & Hat) Hcur Hi
         (Hlen & Hother & (s' & Hs' & Hst) & Hnext).
  unfold next_index in Hnext.
  split; [|congruence]. rewrite <- Hcur in *. split_and!.
  - intros j s Hj Hs. rewrite Hnext in Hj. rewrite Hother in Hs by lia. eauto.
  - intros j s Hj Hs. rewrite Hnext in Hj. rewrite Hother in Hs by lia. eauto.
  - left. lia.
  - intros s Hs Hc. rewrite Hnext in Hs. congruence.
Qed.

Lemma shape_completed (i : nat) d1 d2 :
  shape d1 -> currentStepIndex d1 = i -> i < length (steps d1) ->
  updated completed i d1 d2 ->
  shape d2 /\
  currentStepIndex d2 = (if decide (i + 1 < length (steps d1)) then i + 1 else i).
Proof.
  intros (Hbefore & Hafter & Hrange & Hat) Hcur Hi
         (Hlen & Hother & (s' & Hs' & Hst) & Hnext).
  unfold next_index in Hnext. rewrite Hcur, Nat.max_id in Hnext.
  split; [|done]. rewrite <- Hcur in *.
  case_decide as Hlast; split_and!.
  - intros j s Hj Hs. rewrite Hnext in Hj.
    destruct (decide (j = currentStepIndex d1)) as [->|Hne]; [congruence|].
    rewrite Hother in Hs by done. apply (Hbefore j s); [lia|done].
  - intros j s Hj Hs. rewrite Hnext in Hj. rewrite Hother in Hs by lia.
    apply (Hafter j s); [lia|done].
  - left. lia.
  - intros s Hs Hc. rewrite Hnext in Hs. rewrite Hother in Hs by lia.
    exfalso. by apply (Hafter (currentStepIndex d1 + 1) s); [lia| |].
  - intros j s Hj Hs. rewrite Hnext in Hj.
    destruct (decide (j = currentStepIndex d1)) as [->|Hne]; [lia|].
    rewrite Hother in Hs by done. eauto.
  - intros j s Hj Hs. apply lookup_lt_Some in Hs. lia.
  - left. lia.
  - intros s Hs Hc. lia.
Qed.

(** The payloads the second loop persists, [obs]: each has the shape
    above, and the cursor never goes back. *)
Lemma executeSteps_cursor env (steps0 : list (JobStepData V)) (count : nat) :
  forall (i : nat) (trail : list (ExecutionResult V W)) w out w',
  length (steps (data (job w))) = length steps0 ->
  i + count = length steps0 ->
  (0 < count -> shape (data (job w)) /\ currentStepIndex (data (job w)) = i) ->
  executeSteps JSON_stringify percent stepRegistry env steps0 count i trail w
    = (out, w') ->
  exists obs,
    persisted w' = persisted w ++ obs /\
    Forall shape obs /\
    Forall (fun d => i <= currentStepIndex d) obs /\
    StronglySorted le (map currentStepIndex obs).
Proof.
  induction count as [|count IH]; intros i trail w out w' Hlen Hbound Hinv;
    cbn [executeSteps].
  - intros [= <- <-]. exists []. rewrite app_nil_r.
    split_and!; try done; constructor.
  - destruct (lookup_lt_is_Some_2 steps0 i ltac:(lia)) as [s0 Hs0].
    rewrite Hs0. unfold bind at 1.
    destruct Hinv as [Hshape Hcur]; [lia|].
    assert (Hi : i < length (steps (data (job w)))) by lia.
    destruct (try_catch _ _ w) as [[entry|e] w1] eqn:Hround;
      apply round_cases in Hround
        as (_ & _ & _ & _ & d1 & Hd1 & Hout); try done.
    all: destruct (shape_in_progress i _ d1 Hshape Hcur Hi Hd1) as [Hshape1 Hcur1].
    all: assert (Hi1 : i < length (steps d1)) by (destruct Hd1 as (-> & _); lia).
    + destruct Hout as (sf & res & d2 & _ & _ & _ & Hd2 & _ & Hp & Hdata).
      destruct (shape_completed i d1 d2 Hshape1 Hcur1 Hi1 Hd2) as [Hshape2 Hcur2].
      assert (Hlen2 : length (steps d2) = length steps0).
      { destruct Hd2 as (-> & _), Hd1 as (-> & _). done. }
      intros Hrest. pose proof Hrest as Hrest'.
      apply IH in Hrest; [| congruence | lia |].
      2: { intros Hpos. rewrite Hdata. split; [done|].
           rewrite Hcur2. destruct Hd1 as (Hl1 & _).
           case_decide; lia. }
      destruct Hrest as (obs & Hp' & Hall & Hge & Hsorted).
      assert (Hcur2' : i <= currentStepIndex d2 /\
                       (0 < count -> currentStepIndex d2 = S i)).
      { rewrite Hcur2. destruct Hd1 as (Hl1 & _). case_decide; lia. }
      destruct Hcur2' as [Hge2 Hnext2].
      assert (Hobs : Forall (fun d => currentStepIndex d2 <= currentStepIndex d) obs).
      { destruct count as [|count'].
        - cbn [executeSteps] in *. 
          assert (obs = []) as ->; [|constructor].
          destruct obs; [done|]. exfalso.
          clear -Hp' Hrest'. injection Hrest' as <- <-.
          apply (f_equal length) in Hp'. rewrite length_app in Hp'. cbn in Hp'. lia.
        - rewrite Hnext2 by lia. exact Hge. }
      exists (d1 :: d2 :: obs). split.
      { rewrite Hp', Hp, <- app_assoc. done. }
      split; [by rewrite !Forall_cons|].
      split.
      { rewrite !Forall_cons. split_and!; [lia|lia|].
        eapply Forall_impl; [exact Hge|]. cbn. lia. }
      cbn [map]. constructor; [constructor; [done|by apply Forall_fmap]|].
      constructor; [lia|]. apply Forall_fmap.
      eapply Forall_impl; [exact Hobs|]. cbn. lia.
    + destruct Hout as (d3 & attempted & Hd3 & Hp & Hdata & _ & _).
      destruct (shape_failed i d1 d3 Hshape1 Hcur1 Hi1 Hd3) as [Hshape3 Hcur3].
      intros [= <- <-]. exists [d1; d3]. split; [done|].
      split; [by rewrite !Forall_cons|].
      split; [rewrite !Forall_cons; split_and!; [lia|lia|done]|].
      cbn [map]. constructor; [constructor; [constructor|constructor]|].
      constructor; [lia|constructor].
Qed.

(** C5, as the code has it. For a job whose payload has the shape the
    manager creates and the consumer maintains, the payloads one
    invocation persists, [obs], continue it: [currentStepIndex] never
    decreases from one to the next, and in each it is the index of the
    first step that is not completed, or the index of the last step
    when every step is completed. *)
Theorem currentStepIndex_monotone env w out w' :
  job_invariant (data (job w)) ->
  process JSON_stringify percent stepRegistry env w = (out, w') ->
  exists obs,
    persisted w' = persisted w ++ obs /\
    StronglySorted le (map currentStepIndex (data (job w) :: obs)) /\
    Forall cursor_ok obs /\
    Forall job_invariant obs.
Proof.
  intros Hinv Hrun. apply invariant_shape in Hinv as Hshape.
  set (d := data (job w)) in *.
  set (resources := finalResourceIdentifiers (userId d) (resourceIdentifiers d)).
  assert (Hnone : persisted w' = persisted w ->
    exists obs, persisted w' = persisted w ++ obs /\
      StronglySorted le (map currentStepIndex (d :: obs)) /\
      Forall cursor_ok obs /\ Forall job_invariant obs).
  { intros ->. exists []. rewrite app_nil_r. split_and!; try done.
    repeat constructor. }
  destruct (DistributedLockService.acquireLock resources (job_id (job w))
              LOCK_TTL (redis w)) as [oa r1] eqn:Hacq.
  assert (Hoa : oa = Return true \/ oa ≠ Return true).
  { destruct oa as [[|]|e]; [by left|by right|by right]. }
  destruct Hoa as [->|Hno].
  2: { apply Hnone.
       destruct (process_refused env w oa r1 out w' Hacq Hno Hrun)
         as (_ & (_ & Hp & _) & _). exact Hp. }
  destruct (rebuildTrail stepRegistry (steps d) (currentStepIndex d) 0 [])
    as [trail|e] eqn:Hrebuild.
  2: { apply Hnone.
       destruct (process_rebuild_fails env w r1 e out w' Hacq Hrebuild Hrun)
         as (_ & _ & Hp & _). exact Hp. }
  destruct (process_run env w r1 trail out w' Hacq Hrebuild Hrun)
    as (o2 & w2 & Hloop & _ & _ & Hp & _).
  fold d in Hloop.
  assert (Hle : currentStepIndex d <= length (steps d)).
  { destruct Hshape as (_ & _ & [?|[-> ->]] & _); lia. }
  apply executeSteps_cursor in Hloop; [|done|lia|by intros _].
  destruct Hloop as (obs & Hp2 & Hall & Hge & Hsorted).
  exists obs. rewrite Hp. split_and!; try done.
  - cbn [map]. constructor; [done|]. by apply Forall_fmap.
  - eapply Forall_impl; [exact Hall|]. apply shape_cursor.
  - eapply Forall_impl; [exact Hall|]. intros d' Hd'.
    split; [by apply shape_cursor|]. by destruct Hd' as (_ & ? & _).
Qed.

End Facts.

(** *** A saga of three steps whose last one throws

    The business state is a log of lines; [A] and [B] succeed, [C]
    throws after its attempt; each compensate action writes a line. *)

Definition logging (name : string) (ok undo_ok : bool)
    : StepFunction Z (list string) :=
  mkStep name
    (fun u => if ok then (Return (value (Z.of_nat (length u))), u ++ [name +:+ "+"])
              else (Throw (new_Error "X"), u ++ [name +:+ "+attempt"]))
    (Some (fun _ u =>
             (if undo_ok then Return tt
              else Throw (new_Error "connect ECONNREFUSED 127.0.0.1:3306"),
              u ++ [name +:+ "-"]))).

Definition register_step (sf : StepFunction Z (list string))
    (steps : StepRegistry.t Z (list string)) : StepRegistry.t Z (list string) :=
  StepRegistry.register (sf_name sf) (execute sf) (compensate sf) steps.

(** The compensate action of [B] throws after it has written its line. *)
Definition registry_abc : StepRegistry.t Z (list string) :=
  register_step (logging "C" false true)
    (register_step (logging "B" true false)
       (register_step (logging "A" true true) ∅)).

Definition percent_of (i n : nat) : Z := (Z.of_nat i * 100 / Z.of_nat n)%Z.

Definition job_abc : Job Z :=
  mkJob "1"
    (mkJobData 42
       [mkJobStep "A" pending 0 null; mkJobStep "B" pending 1 null;
        mkJobStep "C" pending 2 null]
       0 "2025-09-12T00:00:00.000Z" None
       (Some [mkResource "user" (IdNumber 42) None]))
    0.

Definition world_abc : World Z (list string) :=
  mkWorld (Redis.mk ∅ ∅ ∅ ∅ []) job_abc [] [] [].

Definition run_abc :=
  process (fun _ => "") percent_of registry_abc no_env world_abc.

(** The scenario of the middle failure: the log reads A+, B+, the
    attempt of C, then B- and A-, and no C-; the throw of B's
    compensate action is on record as retryable, and the lock is
    released. *)
Example run_abc_log :
  user run_abc.2 = ["A+"; "B+"; "C+attempt"; "B-"; "A-"] /\
  trace run_abc.2 =
    [EvExecute "A"; EvExecute "B"; EvExecute "C";
     EvCompensate "B" (value 1%Z); EvCompensate "A" (value 0%Z)] /\
  (exists e, run_abc.1 = Throw e /\ message e = "X") /\
  (exists fields,
     Redis.hashes (redis run_abc.2) !! "compensation_failure:1:B" =
       Some (CompensationFailureHash fields) /\
     cf_retryable fields = "true") /\
  Redis.strings (redis run_abc.2) = ∅.
Proof.
  vm_compute. split_and!; try reflexivity; by eexists.
Qed.


(** *** The cursor on a saga of two steps that succeeds *)

Definition job_ab : Job Z :=
  mkJob "2"
    (mkJobData 42
       [mkJobStep "A" pending 0 null; mkJobStep "B" pending 1 null]
       0 "2025-09-12T00:00:00.000Z" None None)
    0.

Definition world_ab : World Z (list string) :=
  mkWorld (Redis.mk ∅ ∅ ∅ ∅ []) job_ab [] [] [].

Definition run_ab :=
  process (fun _ => "") percent_of registry_abc no_env world_ab.

(** The cursor as the specification words it: the index of the first
    pending step, or the number of steps when all are completed. *)
Definition claimed_cursor {V} (d : JobData V) : Prop :=
  match list_find (fun s => step_status s = pending) (steps d) with
  | Some (i, _) => currentStepIndex d = i
  | None =>
      Forall (fun s => step_status s = completed) (steps d) ->
      currentStepIndex d = length (steps d)
  end.

(** The four payloads the invocation persists, by cursor and statuses. *)
Example run_ab_persisted :
  map (fun d => (currentStepIndex d, map step_status (steps d)))
      (persisted run_ab.2) =
  [ (0, [in_progress; pending]); (1, [completed; pending]);
    (1, [completed; in_progress]); (1, [completed; completed]) ].
Proof. vm_compute. reflexivity. Qed.

(** The claim of C5 fails on the code: while the first step runs, the
    first pending step is the second one, and the cursor is on the
    first; once both steps are completed, the cursor is on the last
    step, not past it. *)
Lemma currentStepIndex_claim_fails :
  exists d1 d4,
    persisted run_ab.2 !! 0 = Some d1 /\ ~ claimed_cursor d1 /\
    persisted run_ab.2 !! 3 = Some d4 /\ ~ claimed_cursor d4 /\
    Forall (fun s => step_status s = completed) (steps d4) /\
    currentStepIndex d4 = 1 /\ length (steps d4) = 2.
Proof.
  eexists _, _. split; [vm_compute; reflexivity|].
  split; [vm_compute; discriminate|].
  split; [vm_compute; reflexivity|].
  split.
  - unfold claimed_cursor. vm_compute. intros Hc.
    assert (Hall : Forall (fun s : JobStepData Z => step_status s = completed)
              [mkJobStep "A" completed 0 (value 0%Z);
               mkJobStep "B" completed 1 (value 1%Z)])
      by (repeat constructor).
    specialize (Hc Hall). discriminate.
  - split; [repeat constructor|]. split; reflexivity.
Qed.

Lemma job_ab_invariant : job_invariant (data job_ab).
Proof.
  split; [reflexivity|].
  intros j s Hj Hs. cbn in Hj, Hs.
  destruct j as [|[|j]]; [lia| |done].
  injection Hs as <-. discriminate.
Qed.

Lemma currentStepIndex_monotone_witness :
  job_invariant (data (job world_ab)) /\
  exists obs,
    persisted run_ab.2 = persisted world_ab ++ obs /\
    StronglySorted le (map currentStepIndex (data (job world_ab) :: obs)) /\
    Forall cursor_ok obs /\
    Forall job_invariant obs.
Proof.
  split; [exact job_ab_invariant|].
  exact (currentStepIndex_monotone (fun _ => "") percent_of registry_abc no_env
           world_ab run_ab.1 run_ab.2 job_ab_invariant
           (surjective_pairing run_ab)).
Defined.

(** *** A step that is not registered, under an unlucky name *)

Definition job_cache : Job Z :=
  mkJob "3"
    (mkJobData 42 [mkJobStep "invalidate_cache" pending 0 null]
               0 "2025-09-12T00:00:00.000Z" None None)
    0.

Definition world_cache : World Z (list string) :=
  mkWorld (Redis.mk ∅ ∅ ∅ ∅ []) job_cache [] [] [].

Definition run_cache :=
  process (fun _ => "") percent_of (∅ : StepRegistry.t Z (list string))
          no_env world_cache.

(** The claim of C7 fails on the code: the name of the missing step ends
    up in the message, 'invalidate_cache' holds the terminal term
    'Invalid' (letter case apart), and the step-not-found failure is
    filed with priority normal and canRetry false. *)
Lemma quarantine_claim_fails :
  exists e record,
    run_cache.1 = Throw e /\
    message e = "Step function not found: invalidate_cache" /\
    contains "Step function not found" (message e) /\
    Redis.hashes (redis run_cache.2) !! "dlq:dlq_0_x" =
      Some (DLQHash "dlq_0_x" record) /\
    failureReason record = message e /\
    priority record = normal /\ canRetry record = false.
Proof.
  eexists _, _. split; [vm_compute; reflexivity|].
  split; [reflexivity|].
  split; [apply includes_spec; vm_compute; reflexivity|].
  split; [vm_compute; reflexivity|].
  split_and!; reflexivity.
Qed.

Definition missing_charge : Error := new_Error "Step function not found: charge".

Lemma quarantine_classification_witness :
  handleDeadLetterQueue no_env missing_charge world_abc =
    ((handleDeadLetterQueue no_env missing_charge world_abc).1,
     (handleDeadLetterQueue no_env missing_charge world_abc).2) /\
  priority (dlqData no_env (job world_abc) missing_charge) = high /\
  canRetry (dlqData no_env (job world_abc) missing_charge) = true /\
  Redis.hashes (redis (handleDeadLetterQueue no_env missing_charge world_abc).2)
    !! dlqKey no_env =
    Some (DLQHash (dlqId no_env) (dlqData no_env (job world_abc) missing_charge)).
Proof.
  pose proof (quarantine_classification no_env missing_charge world_abc _ _
                (surjective_pairing _)) as (Hfound & _ & _ & _ & Hfiled).
  split; [apply surjective_pairing|].
  assert (Hin : contains "Step function not found" (message missing_charge))
    by (apply includes_spec; vm_compute; reflexivity).
  assert (Hterm : ~ matches_ci nonRetryableErrors (message missing_charge)).
  { intros Hm. apply nonRetryable_spec in Hm. vm_compute in Hm. discriminate. }
  destruct (Hfound Hin Hterm) as [Hp Hc].
  split; [exact Hp|]. split; [exact Hc|].
  apply Hfiled. reflexivity.
Defined.

End ConsumerFacts.

(** ** The transaction manager *)

Module ManagerFacts.
Import Redis RedisFacts JsFacts SimpleTransactionManager.

Lemma pretty_N_go_length (x : N) :
  forall s, String.length s <= String.length (pretty_N_go x s).
Proof.
  induction (N.lt_wf_0 x) as [x _ IH]. intros s.
  destruct (decide (x = 0)%N) as [->|Hx]; [by rewrite pretty_N_go_0|].
  rewrite pretty_N_go_step by lia.
  etrans; [|apply IH; apply N.div_lt; lia]. cbn. lia.
Qed.

(** The ids of the queue are not empty. *)
Lemma pretty_nat_truthy (n : nat) : truthy (pretty n) = true.
Proof.
  unfold pretty, pretty_nat, pretty, pretty_N.
  case_decide as Hz; [done|].
  rewrite pretty_N_go_step by lia.
  pose proof (pretty_N_go_length (N.of_nat n `div` 10)
                (String (pretty_N_char (N.of_nat n `mod` 10)) "")) as Hlen.
  destruct (pretty_N_go _ _); [cbn in Hlen; lia|done].
Qed.

Section Facts.
Context {V W : Type}.
Implicit Types (s : State V).

(** The payload [execute] enqueues. *)
Definition payload (env : Env) (userId : Z) (steps : list (StepFunction V W))
    (resourceIdentifiers : option (list ResourceIdentifier))
    (idempotencyKey : option string) : JobData V :=
  mkJobData userId
    (imap (fun index step => mkJobStep (sf_name step) pending index null) steps)
    0 (now_iso env) idempotencyKey
    (Some (match resourceIdentifiers with
           | Some rs => rs
           | None => [mkResource "user" (IdNumber userId) None]
           end)).

(** The state after [execute] has enqueued a job and bound [key] to
    its id. *)
Definition enqueued (env : Env) (userId : Z) (steps : list (StepFunction V W))
    (resourceIdentifiers : option (list ResourceIdentifier)) (key : string)
    s s' : Prop :=
  let jobId := pretty (S (counter (transactionQueue s))) in
  jobs (transactionQueue s') =
    jobs (transactionQueue s) ++
      [("process-transaction",
        mkJob jobId (payload env userId steps resourceIdentifiers (Some key)) 0,
        mkJobsOptions 1 10 50)] /\
  counter (transactionQueue s') = S (counter (transactionQueue s)) /\
  strings (redis s') =
    <["idempotent:" +:+ key := (jobId, 3600%Z)]> (strings (redis s)).

Lemma get_quiet key (r : Redis.t (Hash V)) :
  quiet (faults r) ->
  exists r', get key r = (Return (fst <$> strings r !! key), r') /\
    strings r' = strings r /\ quiet (faults r').
Proof.
  intros Hq. unfold get. destruct (command _ r) as [o r'] eqn:Hc.
  destruct (command_cases _ _ _ _ Hc)
    as [(e & _ & _ & _ & _ & _ & Hf & _)
       |(a & r0 & -> & Hb & Hs & _ & _ & _ & Hf & _)].
  - unfold quiet in Hq. lia.
  - injection Hb as <- <-. exists r0. rewrite Hs. split_and!; try done.
    unfold quiet in *. lia.
Qed.

Lemma set_ex_quiet key value ttl (r : Redis.t (Hash V)) :
  quiet (faults r) ->
  exists r', set_ex key value ttl r = (Return tt, r') /\
    strings r' = <[key := (value, ttl)]> (strings r) /\ quiet (faults r').
Proof.
  intros Hq. unfold set_ex. destruct (command _ r) as [o r'] eqn:Hc.
  destruct (command_cases _ _ _ _ Hc)
    as [(e & _ & _ & _ & _ & _ & Hf & _)
       |(a & r0 & -> & Hb & Hs & _ & _ & _ & Hf & _)].
  - unfold quiet in Hq. lia.
  - injection Hb as <- <-. exists (with_strings r0 (<[key:=(value, ttl)]> (strings r0))).
    cbn. rewrite Hs. split_and!; try done. unfold quiet in *. lia.
Qed.

Lemma enqueue_quiet env userId (steps : list (StepFunction V W))
    resourceIdentifiers (key : string) s :
  truthy key = true ->
  quiet (faults (redis s)) ->
  exists s',
    enqueue env userId steps
      (match resourceIdentifiers with
       | Some rs => rs
       | None => [mkResource "user" (IdNumber userId) None]
       end) (Some key) s
      = (Return (pretty (S (counter (transactionQueue s)))), s') /\
    enqueued env userId steps resourceIdentifiers key s s' /\
    quiet (faults (redis s')).
Proof.
  intros Hkey Hq. unfold enqueue, add. cbn [job_id]. rewrite Hkey.
  destruct (set_ex_quiet ("idempotent:" +:+ key)
              (pretty (S (counter (transactionQueue s)))) IDEMPOTENCY_TTL
              (redis s) Hq) as (r' & -> & Hs & Hq').
  eexists. split; [reflexivity|]. split; [|done].
  unfold enqueued. cbn. by split_and!.
Qed.

(** What one call of [execute] with a non-empty key does when the
    server refuses no command: a hit returns the bound id and leaves
    queue and bindings alone; a miss enqueues and binds. *)
Lemma execute_quiet env userId (steps : list (StepFunction V W))
    resourceIdentifiers (key : string) s :
  truthy key = true ->
  quiet (faults (redis s)) ->
  exists jobId s',
    execute env userId steps resourceIdentifiers (Some key) s = (Return jobId, s') /\
    quiet (faults (redis s')) /\
    truthy jobId = true /\
    (fst <$> strings (redis s') !! ("idempotent:" +:+ key)) = Some jobId /\
    match fst <$> strings (redis s) !! ("idempotent:" +:+ key) with
    | Some existing =>
        if truthy existing
        then jobId = existing /\
             transactionQueue s' = transactionQueue s /\
             strings (redis s') = strings (redis s)
        else jobId = pretty (S (counter (transactionQueue s))) /\
             enqueued env userId steps resourceIdentifiers key s s'
    | None =>
        jobId = pretty (S (counter (transactionQueue s))) /\
        enqueued env userId steps resourceIdentifiers key s s'
    end.
Proof.
  intros Hkey Hq. unfold execute. rewrite Hkey.
  destruct (get_quiet ("idempotent:" +:+ key) (redis s) Hq)
    as (r' & -> & Hs & Hq').
  assert (Hmiss :
    exists jobId s',
      enqueue env userId steps
        (match resourceIdentifiers with
         | Some rs => rs
         | None => [mkResource "user" (IdNumber userId) None]
         end) (Some key) (mkState r' (transactionQueue s)) = (Return jobId, s') /\
      quiet (faults (redis s')) /\ truthy jobId = true /\
      (fst <$> strings (redis s') !! ("idempotent:" +:+ key)) = Some jobId /\
      jobId = pretty (S (counter (transactionQueue s))) /\
      enqueued env userId steps resourceIdentifiers key s s').
  { destruct (enqueue_quiet env userId steps resourceIdentifiers key
                (mkState r' (transactionQueue s)) Hkey Hq')
      as (s' & Hrun & Henq & Hq'').
    exists (pretty (S (counter (transactionQueue s)))), s'.
    split; [exact Hrun|]. split; [done|].
    split; [apply pretty_nat_truthy|].
    destruct Henq as (Hj & Hc & Hst). cbn in Hj, Hc, Hst.
    split; [by rewrite Hst, lookup_insert_eq|]. split; [done|].
    unfold enqueued. rewrite <- Hs. by split_and!. }
  destruct (strings (redis s) !! ("idempotent:" +:+ key)) as [[existing ttl]|] eqn:Hb;
    cbn [fmap option_fmap option_map fst].
  - destruct (truthy existing) eqn:Ht.
    + exists existing, (mkState r' (transactionQueue s)). cbn.
      split_and!; try done. by rewrite Hs, Hb.
    + destruct Hmiss as (jobId & s' & ? & ? & ? & ? & ? & ?).
      exists jobId, s'. by split_and!.
  - destruct Hmiss as (jobId & s' & ? & ? & ? & ? & ? & ?).
    exists jobId, s'. by split_and!.
Qed.

(** C6, as the code has it. With a non-empty idempotency key and a
    server that refuses no command, two calls of [execute] in a row,
    whatever their other arguments, return the same job id and the
    second enqueues nothing. The first call returns the id bound to
    [idempotent:<key>] without enqueueing when a non-empty id is
    bound; otherwise it enqueues one job and then binds the key to
    the id of that job, with an expiry of 3600 seconds. *)
Theorem execute_idempotent env env' userId userId'
    (steps steps' : list (StepFunction V W))
    resourceIdentifiers resourceIdentifiers' (key : string) s :
  truthy key = true ->
  quiet (faults (redis s)) ->
  exists jobId s1 s2,
    execute env userId steps resourceIdentifiers (Some key) s
      = (Return jobId, s1) /\
    execute env' userId' steps' resourceIdentifiers' (Some key) s1
      = (Return jobId, s2) /\
    transactionQueue s2 = transactionQueue s1 /\
    strings (redis s2) = strings (redis s1) /\
    match fst <$> strings (redis s) !! ("idempotent:" +:+ key) with
    | Some existing =>
        if truthy existing
        then jobId = existing /\
             transactionQueue s1 = transactionQueue s /\
             strings (redis s1) = strings (redis s)
        else jobId = pretty (S (counter (transactionQueue s))) /\
             enqueued env userId steps resourceIdentifiers key s s1
    | None =>
        jobId = pretty (S (counter (transactionQueue s))) /\
        enqueued env userId steps resourceIdentifiers key s s1
    end.
Proof.
  intros Hkey Hq.
  destruct (execute_quiet env userId steps resourceIdentifiers key s Hkey Hq)
    as (jobId & s1 & Hrun1 & Hq1 & Htruthy & Hbound & Hfirst).
  destruct (execute_quiet env' userId' steps' resourceIdentifiers' key s1 Hkey Hq1)
    as (jobId' & s2 & Hrun2 & _ & _ & _ & Hsecond).
  rewrite Hbound, Htruthy in Hsecond. destruct Hsecond as (-> & Hqueue & Hstr).
  exists jobId, s1, s2. by split_and!.
Qed.

End Facts.

Definition empty_state : State Z :=
  mkState (Redis.mk ∅ ∅ ∅ ∅ []) (mkQueue [] 0).

Definition execute_Z := @execute Z (list string).

(** The claim of C6 fails on the code for the empty key, which
    [if (idempotencyKey)] takes for no key: two calls return two ids and
    enqueue two jobs, and nothing is bound. *)
Lemma idempotency_claim_fails :
  exists s1 s2,
    execute_Z CompensationFacts.no_env 42 [] None (Some "") empty_state = (Return "1", s1) /\
    execute_Z CompensationFacts.no_env 42 [] None (Some "") s1 = (Return "2", s2) /\
    length (jobs (transactionQueue s2)) = 2 /\
    strings (redis s2) = ∅.
Proof.
  eexists _, _. split; [vm_compute; reflexivity|].
  split; [vm_compute; reflexivity|].
  split; reflexivity.
Qed.

Lemma execute_idempotent_witness :
  truthy "order-17" = true /\
  quiet (faults (redis empty_state)) /\
  exists jobId s1 s2,
    execute_Z CompensationFacts.no_env 42 [] None (Some "order-17") empty_state
      = (Return jobId, s1) /\
    execute_Z CompensationFacts.no_env 7 [ConsumerFacts.logging "A" true true] None
              (Some "order-17") s1 = (Return jobId, s2) /\
    transactionQueue s2 = transactionQueue s1 /\
    strings (redis s2) = strings (redis s1) /\
    jobId = "1" /\
    length (jobs (transactionQueue s1)) = 1 /\
    strings (redis s1) = {[ "idempotent:order-17" := ("1", 3600%Z) ]}.
Proof.
  split; [reflexivity|]. split; [reflexivity|].
  destruct (execute_idempotent (V:=Z) (W:=list string)
              CompensationFacts.no_env CompensationFacts.no_env 42 7
              [] [ConsumerFacts.logging "A" true true] None None "order-17"
              empty_state eq_refl eq_refl)
    as (jobId & s1 & s2 & Hrun1 & Hrun2 & Hq & Hs & Hfirst).
  exists jobId, s1, s2. cbn in Hfirst. destruct Hfirst as (Hid & Hjobs & _ & Hstr).
  split; [exact Hrun1|]. split; [exact Hrun2|]. split; [exact Hq|].
  split; [exact Hs|]. split; [exact Hid|].
  split; [by rewrite Hjobs|].
  rewrite Hstr. reflexivity.
Defined.

End ManagerFacts.

(** ** Two invocations at once *)

Module InterleavingFacts.
Import Redis RedisFacts LockFacts CompensationFacts ConsumerFacts.
Import DistributedLockService SimpleTransactionConsumer Interleaving.

Implicit Types (inv other : Invocation) (m : gmap string (string * Z)).

(** The keys an invocation has set and not released. *)
Definition owned inv : list string :=
  match phase inv with
  | Acquiring _ acquiredKeys => acquiredKeys
  | RollingBack acquiredKeys => acquiredKeys
  | Holding => lockKeys inv
  | Busy | Finished _ => []
  end.

(** In the loop, the keys set and the keys to set are the lock keys. *)
Definition on_track inv : Prop :=
  match phase inv with
  | Acquiring todo acquiredKeys => acquiredKeys ++ todo = lockKeys inv
  | _ => True
  end.

(** Each key the invocation owns holds its job id. *)
Definition holds inv m : Prop :=
  forall k, k ∈ owned inv -> m !! k = Some (jobId inv, LOCK_TTL).

Lemma holds_other_release inv other keys m :
  jobId inv ≠ jobId other ->
  holds other m ->
  holds other (release_script keys (jobId inv) m).2.
Proof.
  intros Hne Hh k Hk. rewrite release_script_lookup, (Hh k Hk). cbn.
  case_decide as Hd; [|done]. destruct Hd as [_ [=]]. congruence.
Qed.

Lemma advance_invariant success inv other m inv' m' :
  jobId inv ≠ jobId other ->
  on_track inv -> holds inv m -> holds other m ->
  advance success inv m = Some (inv', m') ->
  jobId inv' = jobId inv /\ lockKeys inv' = lockKeys inv /\
  on_track inv' /\ holds inv' m' /\ holds other m'.
Proof.
  intros Hne Htrack Hmine Htheirs. unfold advance, on_track, holds, owned in *.
  destruct (phase inv) as [[|lockKey rest] acquired|acquired| | |ok] eqn:Hphase.
  - intros [= <- <-]. cbn. rewrite app_nil_r in Htrack.
    split_and!; try done. intros k Hk. apply Hmine. by rewrite Htrack.
  - destruct (m !! lockKey) as [held|] eqn:Hk.
    + intros [= <- <-]. cbn. by split_and!.
    + intros [= <- <-]. cbn. split_and!; try done.
      * by rewrite <- app_assoc.
      * intros k [Hin| ->%list_elem_of_singleton]%elem_of_app.
        -- rewrite lookup_insert_ne; [by apply Hmine|].
           intros ->. specialize (Hmine _ Hin). congruence.
        -- by rewrite lookup_insert_eq.
      * intros k Hin. rewrite lookup_insert_ne; [by apply Htheirs|].
        intros ->. specialize (Htheirs _ Hin). congruence.
  - intros [= <- <-]. cbn. split_and!; try done.
    + by intros k ?%elem_of_nil.
    + by apply holds_other_release.
  - discriminate.
  - intros [= <- <-]. cbn. split_and!; try done.
    + by intros k ?%elem_of_nil.
    + by apply holds_other_release.
  - discriminate.
Qed.

(** What every schedule keeps true of the two invocations. *)
Definition invariant (jobA jobB : string) (keysA keysB : list string)
    (sys : System) : Prop :=
  jobId (first sys) = jobA /\ lockKeys (first sys) = keysA /\
  jobId (second sys) = jobB /\ lockKeys (second sys) = keysB /\
  on_track (first sys) /\ on_track (second sys) /\
  holds (first sys) (store sys) /\ holds (second sys) (store sys).

Lemma step_invariant jobA jobB keysA keysB side success sys sys' :
  jobA ≠ jobB ->
  invariant jobA jobB keysA keysB sys ->
  step side success sys = Some sys' ->
  invariant jobA jobB keysA keysB sys' /\
  match side with
  | First => second sys' = second sys
  | Second => first sys' = first sys
  end.
Proof.
  intros Hne (Ha & Hka & Hb & Hkb & Hta & Htb & Hha & Hhb). unfold step.
  destruct side.
  - destruct (advance success (first sys) (store sys)) as [[inv m]|] eqn:Hadv;
      [|discriminate].
    intros [= <-]. cbn.
    apply (advance_invariant _ _ (second sys)) in Hadv
      as (? & ? & ? & ? & ?); try done; [|congruence].
    split; [|done]. unfold invariant. cbn. split_and!; try done; congruence.
  - destruct (advance success (second sys) (store sys)) as [[inv m]|] eqn:Hadv;
      [|discriminate].
    intros [= <-]. cbn.
    apply (advance_invariant _ _ (first sys)) in Hadv
      as (? & ? & ? & ? & ?); try done; [|congruence].
    split; [|done]. unfold invariant. cbn. split_and!; try done; congruence.
Qed.

Lemma run_invariant jobA jobB keysA keysB schedule :
  forall sys sys',
  jobA ≠ jobB ->
  invariant jobA jobB keysA keysB sys ->
  run schedule sys = Some sys' ->
  invariant jobA jobB keysA keysB sys'.
Proof.
  induction schedule as [|[side success] rest IH]; intros sys sys' Hne Hinv;
    cbn [run].
  - by intros [= <-].
  - destruct (step side success sys) as [sys1|] eqn:Hstep; [|discriminate].
    apply step_invariant with (jobA:=jobA) (jobB:=jobB) (keysA:=keysA) (keysB:=keysB)
      in Hstep as [Hinv1 _]; try done.
    by apply IH.
Qed.

Lemma invoke_invariant jobA jobB resA resB m0 :
  invariant jobA jobB (generateResourceLockKeys resA) (generateResourceLockKeys resB)
    (mkSystem m0 (invoke jobA resA) (invoke jobB resB)).
Proof.
  unfold invariant, invoke, on_track, holds, owned. cbn.
  split_and!; try done; by intros k ?%elem_of_nil.
Qed.

(** Two holders would both have their id under a key they share. *)
Lemma invariant_exclusive jobA jobB keysA keysB sys :
  jobA ≠ jobB ->
  (exists k, k ∈ keysA /\ k ∈ keysB) ->
  invariant jobA jobB keysA keysB sys ->
  ~ (phase (first sys) = Holding /\ phase (second sys) = Holding).
Proof.
  intros Hne (k & HkA & HkB) (Ha & Hka & Hb & Hkb & _ & _ & Hha & Hhb) [HA HB].
  unfold holds, owned in *. rewrite HA in Hha. rewrite HB in Hhb.
  rewrite Hka in Hha. rewrite Hkb in Hhb.
  specialize (Hha _ HkA). specialize (Hhb _ HkB). congruence.
Qed.

(** The moves of the second invocation only. *)
Definition second_only (schedule : list (Side * bool)) : Prop :=
  Forall (fun move => move.1 = Second) schedule.

(** The second invocation is in the loop of [acquireLock] or rolling
    back, or was refused. *)
Definition not_through inv : Prop :=
  match phase inv with
  | Acquiring _ _ | RollingBack _ | Busy => True
  | Holding | Finished _ => False
  end.

Lemma refused_while_held jobA jobB keysA keysB schedule :
  forall sys sys',
  jobA ≠ jobB ->
  (exists k, k ∈ keysA /\ k ∈ keysB) ->
  invariant jobA jobB keysA keysB sys ->
  phase (first sys) = Holding ->
  not_through (second sys) ->
  second_only schedule ->
  run schedule sys = Some sys' ->
  invariant jobA jobB keysA keysB sys' /\
  first sys' = first sys /\ not_through (second sys').
Proof.
  induction schedule as [|[side success] rest IH];
    intros sys sys' Hne Hcommon Hinv Hhold Hsecond Honly; cbn [run].
  - by intros [= <-].
  - apply Forall_cons in Honly as [Hside Honly]. cbn in Hside. subst side.
    destruct (step Second success sys) as [sys1|] eqn:Hstep; [|discriminate].
    pose proof Hstep as Hstep'.
    apply step_invariant with (jobA:=jobA) (jobB:=jobB) (keysA:=keysA) (keysB:=keysB)
      in Hstep as [Hinv1 Hfirst]; try done.
    assert (Hnt : not_through (second sys1)).
    { pose proof (invariant_exclusive _ _ _ _ _ Hne Hcommon Hinv1) as Hex.
      rewrite Hfirst, Hhold in Hex.
      unfold step, advance in Hstep'. unfold not_through in *.
      destruct (phase (second sys)) as [[|lockKey todo] acquired|acquired| | |ok];
        try done.
      - injection Hstep' as <-. cbn in *. apply Hex. by split.
      - destruct (store sys !! lockKey); injection Hstep' as <-; done.
      - by injection Hstep' as <-. }
    intros Hrest. apply IH in Hrest as (? & ? & ?); try done; [|congruence].
    split_and!; try done. congruence.
Qed.

(** *** The moves are those of [acquireLock] *)

(** An invocation moving alone, [n] moves at most. *)
Fixpoint alone (n : nat) inv m : Invocation * gmap string (string * Z) :=
  match n with
  | O => (inv, m)
  | S n' =>
      match advance true inv m with
      | Some (inv', m') => alone n' inv' m'
      | None => (inv, m)
      end
  end.

Section Refinement.
Context {H : Type}.
Implicit Types (r : Redis.t H).

Lemma set_nx_quiet key value ttl r :
  quiet (faults r) ->
  exists r', quiet (faults r') /\
    match strings r !! key with
    | None => set_nx key value ttl r = (Return true, r') /\
              strings r' = <[key := (value, ttl)]> (strings r)
    | Some _ => set_nx key value ttl r = (Return false, r') /\
                strings r' = strings r
    end.
Proof.
  intros Hq. unfold set_nx. destruct (command _ r) as [o r'] eqn:Hc.
  destruct (command_cases _ _ _ _ Hc)
    as [(e & _ & _ & _ & _ & _ & Hf & _)
       |(a & r0 & -> & Hb & Hs & _ & _ & _ & Hf & _)].
  { unfold quiet in Hq. lia. }
  exists r'. rewrite <- Hs.
  destruct (strings r0 !! key); injection Hb as <- <-; cbn;
    split; try done; unfold quiet in *; cbn; lia.
Qed.

Lemma acquireLoop_alone (job : string) (todo : list string) :
  forall lockResults acquiredKeys r out acquired' r' inv,
  quiet (faults r) ->
  every (fun result => result) lockResults = true ->
  phase inv = Acquiring todo acquiredKeys ->
  jobId inv = job ->
  acquireLoop todo lockResults acquiredKeys job LOCK_TTL r = (out, acquired', r') ->
  exists n (b : bool),
    out = Return b /\
    alone n inv (strings r) =
      (at_phase inv (if b then Holding else Busy), strings r').
Proof.
  induction todo as [|lockKey rest IH];
    intros lockResults acquiredKeys r out acquired' r' inv Hq Hall Hphase Hjob;
    cbn [acquireLoop].
  - intros [= <- <- <-]. exists 1, true. rewrite Hall. split; [done|].
    cbn [alone]. unfold advance. by rewrite Hphase.
  - destruct (set_nx_quiet lockKey job LOCK_TTL r Hq) as (r1 & Hq1 & Hset).
    destruct (strings r !! lockKey) as [held|] eqn:Hk.
    + destruct Hset as [-> Hs1].
      destruct (releaseLockInternal_quiet acquiredKeys job r1 Hq1)
        as (r2 & -> & Hs2 & _).
      intros [= <- <- <-]. exists 2, false. split; [done|].
      cbn [alone]. unfold advance at 1. rewrite Hphase, Hk.
      unfold advance. cbn. by rewrite Hjob, Hs2, Hs1.
    + destruct Hset as [-> Hs1]. intros Hloop.
      apply (IH _ _ _ _ _ _
               (at_phase inv (Acquiring rest (acquiredKeys ++ [lockKey]))))
        in Hloop; try done; [|by apply every_snoc_true].
      destruct Hloop as (n & b & -> & Halone).
      exists (S n), b. split; [done|].
      cbn [alone]. unfold advance at 1. rewrite Hphase, Hk, Hjob.
      rewrite <- Hs1. exact Halone.
Qed.

(** When no command is refused, [acquireLock] answers as an
    invocation moving alone ends: true and [Holding], or false and
    [Busy], with the same string keys. *)
Lemma acquireLock_alone resources (job : string) r out r' :
  quiet (faults r) ->
  acquireLock resources job LOCK_TTL r = (out, r') ->
  exists n (b : bool),
    out = Return b /\
    alone n (invoke job resources) (strings r) =
      (at_phase (invoke job resources) (if b then Holding else Busy),
       strings r').
Proof.
  intros Hq. unfold acquireLock.
  destruct (acquireLoop _ [] [] job LOCK_TTL r) as [[o acq] r1] eqn:Hloop.
  apply (acquireLoop_alone job _ _ _ _ _ _ _ (invoke job resources)) in Hloop;
    try done.
  destruct Hloop as (n & b & -> & Halone). intros [= <- <-]. by exists n, b.
Qed.

End Refinement.

(** *** The invocation that meets a held lock *)

Section Refused.
Context {V W : Type}.
Variable JSON_stringify : any V -> string.
Variable percent : nat -> nat -> Z.
Variable stepRegistry : StepRegistry.t V W.

(** The lock keys of the job a world holds. *)
Definition lockKeys_of (w : World V W) : list string :=
  generateResourceLockKeys
    (finalResourceIdentifiers (userId (data (job w)))
                              (resourceIdentifiers (data (job w)))).

Lemma process_refused_by_holder env (w : World V W) (key : string)
    (holder : string * Z) :
  key ∈ lockKeys_of w ->
  strings (redis w) !! key = Some holder ->
  quiet (faults (redis w)) ->
  exists r1 w',
    acquireLock
      (finalResourceIdentifiers (userId (data (job w)))
                                (resourceIdentifiers (data (job w))))
      (job_id (job w)) LOCK_TTL (redis w) = (Return false, r1) /\
    process JSON_stringify percent stepRegistry env w =
      (Throw (new_Error
                (busyMessage
                   (finalResourceIdentifiers (userId (data (job w)))
                      (resourceIdentifiers (data (job w)))))), w') /\
    strings (redis w') = strings (redis w) /\
    trace w' = trace w /\ persisted w' = persisted w.
Proof.
  intros Hin Hheld Hq.
  set (resources := finalResourceIdentifiers _ _) in *.
  destruct (acquireLock resources (job_id (job w)) LOCK_TTL (redis w))
    as [oa r1] eqn:Hacq.
  destruct (acquireLock_outcomes _ _ _ _ _ _ Hacq)
    as (_ & Hfalse & Hconflict & _).
  assert (Hoa : oa = Return false).
  { apply Hconflict; [done|]. exists key. split; [done|]. by eexists. }
  subst oa. destruct (Hfalse eq_refl) as (_ & _ & _ & _ & _ & _ & Hs).
  destruct (process JSON_stringify percent stepRegistry env w) as [out w'] eqn:Hrun.
  destruct (process_refused JSON_stringify percent stepRegistry env w _ _ _ _
              Hacq ltac:(discriminate) Hrun)
    as (-> & (_ & Hp & _ & Ht) & Hs' & _).
  exists r1, w'. cbn in *. split_and!; try done. congruence.
Qed.

End Refused.

Section Exclusion.
Context {V W : Type}.
Variable JSON_stringify : any V -> string.
Variable percent : nat -> nat -> Z.
Variable stepRegistry : StepRegistry.t V W.

(** C1, as the code has it. Two invocations with different job ids
    whose lock keys intersect, moving in any order (no command
    refused, no key expired):
    - are never both holding the lock;
    - whichever holds it has its job id under each of its lock keys;
    - while the first holds it, the second, if it is not through
      already, cannot get through: its moves leave the first holding
      with its keys as they are, and when the second is over it was
      refused ([acquireLock] returned false, the busy error thrown);
    - and [process], called for the second job on the server as it
      is while the first holds, has [acquireLock] return false,
      throws the busy error ('other transaction in progress' on the
      resources) and leaves the keys of the first as they are. *)
Theorem lock_excludes (jobA jobB : string)
    (resA resB : list ResourceIdentifier) m0 schedule sys :
  jobA ≠ jobB ->
  (exists k, k ∈ generateResourceLockKeys resA /\
             k ∈ generateResourceLockKeys resB) ->
  run schedule (mkSystem m0 (invoke jobA resA) (invoke jobB resB)) = Some sys ->
  ~ (phase (first sys) = Holding /\ phase (second sys) = Holding) /\
  (phase (first sys) = Holding ->
     forall k, k ∈ generateResourceLockKeys resA ->
               store sys !! k = Some (jobA, LOCK_TTL)) /\
  (phase (second sys) = Holding ->
     forall k, k ∈ generateResourceLockKeys resB ->
               store sys !! k = Some (jobB, LOCK_TTL)) /\
  (phase (first sys) = Holding -> not_through (second sys) ->
     forall rest sys',
       second_only rest -> run rest sys = Some sys' ->
       phase (first sys') = Holding /\
       (forall k, k ∈ generateResourceLockKeys resA ->
                  store sys' !! k = Some (jobA, LOCK_TTL)) /\
       (advance true (second sys') (store sys') = None ->
        phase (second sys') = Busy)) /\
  (phase (first sys) = Holding ->
     forall env (w : World V W),
       job_id (job w) = jobB ->
       lockKeys_of w = generateResourceLockKeys resB ->
       strings (redis w) = store sys ->
       quiet (faults (redis w)) ->
       exists r1 w',
         acquireLock
           (finalResourceIdentifiers (userId (data (job w)))
                                     (resourceIdentifiers (data (job w))))
           (job_id (job w)) LOCK_TTL (redis w) = (Return false, r1) /\
         process JSON_stringify percent stepRegistry env w =
           (Throw (new_Error
                     (busyMessage
                        (finalResourceIdentifiers (userId (data (job w)))
                           (resourceIdentifiers (data (job w)))))), w') /\
         forall k, k ∈ generateResourceLockKeys resA ->
                   strings (redis w') !! k = Some (jobA, LOCK_TTL)).
Proof.
  intros Hne Hcommon Hrun.
  pose proof (run_invariant _ _ _ _ _ _ _ Hne
                (invoke_invariant jobA jobB resA resB m0) Hrun) as Hinv.
  assert (HholdA : phase (first sys) = Holding ->
            forall k, k ∈ generateResourceLockKeys resA ->
                      store sys !! k = Some (jobA, LOCK_TTL)).
  { intros Hhold k Hk.
    destruct Hinv as (Ha & Hka & _ & _ & _ & _ & Hha & _).
    unfold holds, owned in Hha. rewrite Hhold, Hka, Ha in Hha. by apply Hha. }
  split_and!.
  - by eapply invariant_exclusive.
  - exact HholdA.
  - intros Hhold k Hk.
    destruct Hinv as (_ & _ & Hb & Hkb & _ & _ & _ & Hhb).
    unfold holds, owned in Hhb. rewrite Hhold, Hkb, Hb in Hhb. by apply Hhb.
  - intros Hhold Hnt rest sys' Honly Hrest.
    destruct (refused_while_held _ _ _ _ _ _ _ Hne Hcommon Hinv Hhold Hnt Honly Hrest)
      as (Hinv' & Hfirst & Hnt').
    assert (Hhold' : phase (first sys') = Holding) by congruence.
    split_and!; try done.
    + intros k Hk.
      destruct Hinv' as (Ha & Hka & _ & _ & _ & _ & Hha & _).
      unfold holds, owned in Hha. rewrite Hhold', Hka, Ha in Hha. by apply Hha.
    + unfold advance, not_through in *.
      destruct (phase (second sys')) as [[|lockKey todo] acquired|acquired| | |ok];
        try done.
      destruct (store sys' !! lockKey); discriminate.
  - intros Hhold env w Hjob Hkeys Hstore Hq.
    destruct Hcommon as (key & HkA & HkB).
    destruct (process_refused_by_holder JSON_stringify percent stepRegistry env w
                key (jobA, LOCK_TTL))
      as (r1 & w' & Hacq & Hproc & Hs & _); try done.
    + by rewrite Hkeys.
    + rewrite Hstore. by apply HholdA.
    + exists r1, w'. split_and!; try done.
      intros k Hk. rewrite Hs, Hstore. by apply HholdA.
Qed.

End Exclusion.

(** *** The user's lock and the cart's *)

Definition for_user : list ResourceIdentifier := [LockFacts.user_1].
Definition for_cart_and_user : list ResourceIdentifier :=
  [LockFacts.cart_7; LockFacts.user_1].

Definition two_jobs : System :=
  mkSystem ∅ (invoke "1" for_user) (invoke "2" for_cart_and_user).

(** The second job sets the key of the cart; the first sets the key of
    the user, holds the lock, runs its steps and releases; then the
    second sets the key of the user, holds the lock, runs its steps
    and releases. *)
Definition one_after_the_other : list (Side * bool) :=
  [ (Second, true); (First, true); (First, true); (First, true);
    (Second, true); (Second, true); (Second, true) ].

(** The claim of C1 fails on the code: two invocations in flight at the
    same time, on resource sets that intersect, both complete
    successfully. *)
Lemma both_complete :
  "1" ≠ "2" /\
  (exists k, k ∈ generateResourceLockKeys for_user /\
             k ∈ generateResourceLockKeys for_cart_and_user) /\
  run [(Second, true); (First, true)] two_jobs =
    Some (mkSystem
            {[ "tx_lock:cart_7_checkout" := ("2", 30%Z);
               "tx_lock:user_1" := ("1", 30%Z) ]}
            (mkInvocation "1" ["tx_lock:user_1"]
                          (Acquiring [] ["tx_lock:user_1"]))
            (mkInvocation "2" ["tx_lock:cart_7_checkout"; "tx_lock:user_1"]
                          (Acquiring ["tx_lock:user_1"] ["tx_lock:cart_7_checkout"]))) /\
  exists sys,
    run one_after_the_other two_jobs = Some sys /\
    phase (first sys) = Finished true /\
    phase (second sys) = Finished true /\
    store sys = ∅.
Proof.
  split; [discriminate|].
  split; [exists "tx_lock:user_1"; split; vm_compute; set_solver|].
  split; [vm_compute; reflexivity|].
  eexists. split; [vm_compute; reflexivity|].
  split_and!; reflexivity.
Qed.

Definition first_holds : list (Side * bool) :=
  [ (Second, true); (First, true); (First, true) ].

Lemma lock_excludes_witness :
  "1" ≠ "2" /\
  (exists k, k ∈ generateResourceLockKeys for_user /\
             k ∈ generateResourceLockKeys for_cart_and_user) /\
  exists sys,
    run first_holds two_jobs = Some sys /\
    phase (first sys) = Holding /\
    not_through (second sys) /\
    ~ (phase (first sys) = Holding /\ phase (second sys) = Holding) /\
    forall rest sys',
      second_only rest -> run rest sys = Some sys' ->
      phase (first sys') = Holding /\
      (forall k, k ∈ generateResourceLockKeys for_user ->
                 store sys' !! k = Some ("1", LOCK_TTL)) /\
      (advance true (second sys') (store sys') = None ->
       phase (second sys') = Busy).
Proof.
  assert (Hne : "1" ≠ "2") by discriminate.
  assert (Hcommon : exists k, k ∈ generateResourceLockKeys for_user /\
                              k ∈ generateResourceLockKeys for_cart_and_user).
  { exists "tx_lock:user_1". split; vm_compute; set_solver. }
  split; [exact Hne|]. split; [exact Hcommon|].
  eexists. split; [vm_compute; reflexivity|].
  split; [reflexivity|]. split; [exact I|].
  pose proof (lock_excludes (V:=Z) (W:=list string) (fun _ => "")
                ConsumerFacts.percent_of ConsumerFacts.registry_abc
                "1" "2" for_user for_cart_and_user ∅ first_holds _
                Hne Hcommon eq_refl) as (Hex & _ & _ & Hrefused & _).
  split; [exact Hex|].
  exact (Hrefused eq_refl I).
Defined.

End InterleavingFacts.

(** ** The lock service, further *)

Module LockCycle.
Import Redis RedisFacts LockFacts DistributedLockService.

Section Facts.
Context {H : Type}.
Implicit Types (r : Redis.t H).

(** [acquireLock] on a server that refuses no command. *)
Lemma acquireLock_quiet resources (jobId : string) (ttl : Z) r out r' :
  quiet (faults r) ->
  acquireLock resources jobId ttl r = (out, r') ->
  let lockKeys := generateResourceLockKeys resources in
  quiet (faults r') /\
  hashes r' = hashes r /\ sets r' = sets r /\ expiry r' = expiry r /\
  ((out = Return true /\ NoDup lockKeys /\
    (forall k, k ∈ lockKeys -> strings r !! k = None) /\
    strings r' = set_all lockKeys (jobId, ttl) (strings r)) \/
   (out = Return false /\ strings r' = strings r /\
    (~ NoDup lockKeys \/
     exists key, key ∈ lockKeys /\ is_Some (strings r !! key)))).
Proof.
  intros Hq Hacq lockKeys. unfold acquireLock in Hacq. fold lockKeys in Hacq.
  destruct (acquireLoop lockKeys [] [] jobId ttl r) as [[o acq] r1] eqn:Hloop.
  apply acquireLoop_spec in Hloop; [|done].
  destruct Hloop as (done & Hacq' & Hnd & Habs & Hh & Hst & Hex & Hsub & Hout).
  cbn [app] in Hacq'. subst acq. unfold quiet in *.
  destruct o as [[|]|e0].
  - injection Hacq as <- <-. destruct Hout as (-> & Hs & Hf).
    split_and!; try done; [lia|]. left. by split_and!.
  - injection Hacq as <- <-.
    destruct Hout as ((key & rest & Hk & Hconf) & Hs & Hf).
    cbn [app] in Hs. rewrite release_set_all in Hs by done.
    split_and!; try done; [lia|]. right. split_and!; try done.
    destruct Hconf as [Hsome|Hin].
    + right. exists key. split; [|done]. fold lockKeys. rewrite Hk. set_solver.
    + left. fold lockKeys. rewrite Hk. intros Hnd'.
      apply NoDup_app in Hnd' as (_ & Hdis & _). apply (Hdis key Hin). set_solver.
  - destruct Hout as (_ & _ & Hf & _). lia.
Qed.

(** X1. A free lock is granted. When the server refuses no command,
    the lock keys of the resources are pairwise distinct and none of
    them exists, [acquireLock] returns true and leaves each lock key
    with the job id and the expiry; hashes, sets and expiries are
    not touched. *)
Theorem acquireLock_grants_free resources (jobId : string) (ttl : Z) r :
  quiet (faults r) ->
  NoDup (generateResourceLockKeys resources) ->
  (forall k, k ∈ generateResourceLockKeys resources -> strings r !! k = None) ->
  exists r',
    acquireLock resources jobId ttl r = (Return true, r') /\
    strings r' =
      set_all (generateResourceLockKeys resources) (jobId, ttl) (strings r) /\
    (forall k, k ∈ generateResourceLockKeys resources ->
               strings r' !! k = Some (jobId, ttl)) /\
    hashes r' = hashes r /\ sets r' = sets r /\ expiry r' = expiry r.
Proof.
  intros Hq Hnd Hfree.
  destruct (acquireLock resources jobId ttl r) as [out r'] eqn:Hacq.
  destruct (acquireLock_quiet _ _ _ _ _ _ Hq Hacq)
    as (_ & Hh & Hst & Hex & [(-> & _ & _ & Hs)|(-> & _ & [Hdup|(key & Hin & Hsome)])]).
  - exists r'. split_and!; try done.
    intros k Hk. rewrite Hs, set_all_lookup. by case_decide.
  - done.
  - rewrite Hfree in Hsome by done. by destruct Hsome.
Qed.

(** X2. A resource named twice locks its own job out. When two of
    the resources give the same lock key, [acquireLock] on a server
    that refuses no command returns false, whoever holds or does not
    hold the keys, and leaves the string keys as they were. *)
Theorem acquireLock_duplicate_key resources (jobId : string) (ttl : Z) r :
  quiet (faults r) ->
  ~ NoDup (generateResourceLockKeys resources) ->
  exists r',
    acquireLock resources jobId ttl r = (Return false, r') /\
    strings r' = strings r.
Proof.
  intros Hq Hdup.
  destruct (acquireLock resources jobId ttl r) as [out r'] eqn:Hacq.
  destruct (acquireLock_quiet _ _ _ _ _ _ Hq Hacq)
    as (_ & _ & _ & _ & [(-> & Hnd & _)|(-> & Hs & _)]); [done|].
  by exists r'.
Qed.

(** X3. Acquire, then release. After [acquireLock] has returned true,
    [releaseLock] for the same resources and job, when the server runs
    it, returns normally and leaves the string keys exactly as they
    were before the lock was acquired. *)
Theorem acquire_release_round_trip resources (jobId : string) (ttl : Z)
    r r1 :
  acquireLock resources jobId ttl r = (Return true, r1) ->
  quiet (faults r1) ->
  exists r2,
    releaseLock resources jobId r1 = (Return tt, r2) /\
    strings r2 = strings r /\
    hashes r2 = hashes r1 /\ sets r2 = sets r1 /\ expiry r2 = expiry r1.
Proof.
  intros Hacq Hq1.
  destruct (acquireLock_outcomes _ _ _ _ _ _ Hacq) as (Htrue & _).
  destruct (Htrue eq_refl) as (_ & Hfree & Hs1).
  unfold releaseLock.
  destruct (releaseLockInternal_quiet (generateResourceLockKeys resources)
              jobId r1 Hq1) as (r2 & Hrel & Hs2 & Hh & Hst & Hex & _).
  exists r2. split_and!; try done.
  rewrite Hs2, Hs1. by apply release_set_all.
Qed.

Lemma release_script_none KEYS a (m : gmap string (string * Z)) :
  (forall k, k ∈ KEYS -> fst <$> m !! k ≠ Some a) ->
  (release_script KEYS a m).2 = m.
Proof.
  intros Hno. apply map_eq. intros k. rewrite release_script_lookup.
  case_decide as Hd; [|done]. destruct Hd as [Hin Hv]. by destruct (Hno k Hin).
Qed.

(** X4. [releaseLock] is idempotent, and is harmless for a job that
    holds nothing. When the server runs the script, a second
    [releaseLock] for the same resources and job leaves the string
    keys as the first left them; and a [releaseLock] for a job that
    is the value of none of the lock keys leaves them as they
    were. *)
Theorem releaseLock_idempotent resources (jobId : string) r :
  quiet (faults r) ->
  exists r1 r2,
    releaseLock resources jobId r = (Return tt, r1) /\
    releaseLock resources jobId r1 = (Return tt, r2) /\
    strings r2 = strings r1 /\
    ((forall k, k ∈ generateResourceLockKeys resources ->
                fst <$> strings r !! k ≠ Some jobId) ->
     strings r1 = strings r).
Proof.
  intros Hq. unfold releaseLock.
  destruct (releaseLockInternal_quiet (generateResourceLockKeys resources)
              jobId r Hq) as (r1 & Hrel1 & Hs1 & _ & _ & _ & Hq1).
  destruct (releaseLockInternal_quiet (generateResourceLockKeys resources)
              jobId r1 Hq1) as (r2 & Hrel2 & Hs2 & _).
  exists r1, r2. split_and!; try done.
  - rewrite Hs2. apply release_script_none. intros k Hk.
    rewrite Hs1, release_script_lookup.
    case_decide as Hd; [by cbn|]. intros Hv. apply Hd. by split.
  - intros Hno. rewrite Hs1. by apply release_script_none.
Qed.

Lemma statusLoop_quiet lockKeys :
  forall (status : gmap string (option string)) r,
  quiet (faults r) ->
  exists r',
    statusLoop lockKeys status r =
      (Return (foldl (fun st k => <[k := fst <$> strings r !! k]> st)
                     status lockKeys), r') /\
    strings r' = strings r /\ hashes r' = hashes r /\ sets r' = sets r /\
    expiry r' = expiry r /\ quiet (faults r').
Proof.
  induction lockKeys as [|lockKey rest IH]; intros status r Hq;
    cbn [statusLoop foldl].
  - by exists r.
  - unfold get. destruct (command _ r) as [o r1] eqn:Hc.
    destruct (command_cases _ _ _ _ Hc)
      as [(e & _ & _ & _ & _ & _ & Hf & _)
         |(a & r0 & -> & Hb & Hs & Hh & Hst & Hex & Hf & _)].
    { unfold quiet in Hq. lia. }
    injection Hb as <- <-.
    destruct (IH (<[lockKey := fst <$> strings r0 !! lockKey]> status) r0)
      as (r' & Hrun & Hs' & Hh' & Hst' & Hex' & Hq').
    { unfold quiet in *. lia. }
    exists r'. rewrite Hrun, Hs. split_and!; congruence.
Qed.

Lemma status_lookup lockKeys (m : gmap string (string * Z)) :
  forall (status : gmap string (option string)) k,
  foldl (fun st k => <[k := fst <$> m !! k]> st) status lockKeys !! k =
  if decide (k ∈ lockKeys) then Some (fst <$> m !! k) else status !! k.
Proof.
  induction lockKeys as [|lockKey rest IH]; intros status k; cbn [foldl].
  - case_decide as Hd; [by apply elem_of_nil in Hd|done].
  - rewrite IH. destruct (decide (k = lockKey)) as [->|Hne].
    + rewrite lookup_insert_eq. repeat case_decide; try done; exfalso; set_solver.
    + rewrite lookup_insert_ne by done.
      repeat case_decide; try done; exfalso; set_solver.
Qed.

(** X5. [getLockStatus] reports the holders and writes nothing. When
    the server refuses no command, the object it returns has exactly
    the lock keys of the resources as properties, each with the value
    stored under the key (null for a key that is not there), and the
    keyspace is left as it was. Right after [acquireLock] has returned
    true for a job, every lock key is reported with that job's id. *)
Theorem getLockStatus_reports_holders resources r :
  quiet (faults r) ->
  exists status r',
    getLockStatus resources r = (Return status, r') /\
    (forall k, status !! k =
               if decide (k ∈ generateResourceLockKeys resources)
               then Some (fst <$> strings r !! k) else None) /\
    strings r' = strings r /\ hashes r' = hashes r /\ sets r' = sets r /\
    expiry r' = expiry r /\
    (forall (jobId : string) (ttl : Z) r0,
       acquireLock resources jobId ttl r0 = (Return true, r) ->
       forall k, k ∈ generateResourceLockKeys resources ->
                 status !! k = Some (Some jobId)).
Proof.
  intros Hq. unfold getLockStatus.
  destruct (statusLoop_quiet (generateResourceLockKeys resources) ∅ r Hq)
    as (r' & Hrun & Hs & Hh & Hst & Hex & _).
  eexists _, r'. split; [exact Hrun|].
  split; [intros k; rewrite status_lookup; by case_decide|].
  split_and!; try done.
  intros jobId ttl r0 Hacq k Hk. rewrite status_lookup.
  destruct (acquireLock_outcomes _ _ _ _ _ _ Hacq) as (Htrue & _).
  destruct (Htrue eq_refl) as (_ & _ & Hs1).
  rewrite Hs1, set_all_lookup. by repeat case_decide.
Qed.

(** X6. Lock keys do not tell resources apart. The key is the type,
    an underscore, the id and the action, one after the other, so
    the resource of type [ty_a] and id [b] and the resource of type
    [ty] and id [a_b] have the same lock key: while a job holds the
    one, [acquireLock] for the other returns false and leaves the
    string keys as they were. *)
Theorem lockKey_aliases (ty a b : string) (act : option string)
    (jobId : string) (ttl : Z) (holder : string * Z) r :
  quiet (faults r) ->
  strings r !! lockKey (mkResource (ty +:+ "_" +:+ a) (IdString b) act)
    = Some holder ->
  lockKey (mkResource ty (IdString (a +:+ "_" +:+ b)) act) =
  lockKey (mkResource (ty +:+ "_" +:+ a) (IdString b) act) /\
  exists r',
    acquireLock [mkResource ty (IdString (a +:+ "_" +:+ b)) act] jobId ttl r
      = (Return false, r') /\
    strings r' = strings r.
Proof.
  intros Hq Hheld.
  assert (Hassoc : forall x y z : string, (x +:+ y) +:+ z = x +:+ (y +:+ z)).
  { intros x y z. induction x as [|c x IH]; [done|].
    by rewrite !JsFacts.append_cons, IH. }
  assert (Hkey : lockKey (mkResource ty (IdString (a +:+ "_" +:+ b)) act) =
                 lockKey (mkResource (ty +:+ "_" +:+ a) (IdString b) act)).
  { unfold lockKey. cbn [type id action render_id]. by rewrite !Hassoc. }
  split; [exact Hkey|].
  destruct (acquireLock [mkResource ty (IdString (a +:+ "_" +:+ b)) act]
              jobId ttl r) as [out r'] eqn:Hacq.
  destruct (acquireLock_outcomes _ _ _ _ _ _ Hacq) as (_ & Hfalse & Hconflict & _).
  assert (Hout : out = Return false).
  { apply Hconflict; [done|].
    exists (lockKey (mkResource ty (IdString (a +:+ "_" +:+ b)) act)).
    split; [cbn; set_solver|]. rewrite Hkey, Hheld. by eexists. }
  subst out. exists r'. split; [done|].
  by destruct (Hfalse eq_refl) as (_ & _ & _ & _ & _ & _ & ?).
Qed.

End Facts.

(** Twice the same user. *)
Definition user_twice : list ResourceIdentifier := [user_1; user_1].

Definition free : Redis.t unit := Redis.mk ∅ ∅ ∅ ∅ [].

Definition held_by_x : Redis.t unit :=
  Redis.mk {[ "tx_lock:cart_7_checkout" := ("job-x", 30%Z);
              "tx_lock:user_1" := ("job-x", 30%Z) ]} ∅ ∅ ∅ [].

Lemma acquireLock_grants_free_witness :
  quiet (faults free) /\
  NoDup (generateResourceLockKeys [cart_7; user_1]) /\
  (forall k, k ∈ generateResourceLockKeys [cart_7; user_1] ->
             strings free !! k = None) /\
  exists r',
    acquireLock [cart_7; user_1] "job-x" 30 free = (Return true, r') /\
    strings r' = strings held_by_x.
Proof.
  assert (Hq : quiet (faults free)) by reflexivity.
  assert (Hnd : NoDup (generateResourceLockKeys [cart_7; user_1])).
  { vm_compute. repeat constructor; set_solver. }
  assert (Hfree : forall k, k ∈ generateResourceLockKeys [cart_7; user_1] ->
                            strings free !! k = None) by done.
  split; [exact Hq|]. split; [exact Hnd|]. split; [exact Hfree|].
  destruct (acquireLock_grants_free [cart_7; user_1] "job-x" 30 free Hq Hnd Hfree)
    as (r' & Hrun & Hs & _).
  exists r'. split; [exact Hrun|]. rewrite Hs. vm_compute. reflexivity.
Defined.

Lemma acquireLock_duplicate_key_witness :
  quiet (faults free) /\
  ~ NoDup (generateResourceLockKeys user_twice) /\
  exists r',
    acquireLock user_twice "job-x" 30 free = (Return false, r') /\
    strings r' = strings free.
Proof.
  assert (Hq : quiet (faults free)) by reflexivity.
  assert (Hdup : ~ NoDup (generateResourceLockKeys user_twice)).
  { vm_compute. intros Hnd. apply NoDup_cons in Hnd as [Hnot _].
    apply Hnot. left. }
  split; [exact Hq|]. split; [exact Hdup|].
  exact (acquireLock_duplicate_key user_twice "job-x" 30 free Hq Hdup).
Defined.

Lemma acquire_release_round_trip_witness :
  acquireLock [cart_7; user_1] "job-x" 30 free = (Return true, held_by_x) /\
  quiet (faults held_by_x) /\
  exists r2,
    releaseLock [cart_7; user_1] "job-x" held_by_x = (Return tt, r2) /\
    strings r2 = strings free /\
    hashes r2 = hashes held_by_x /\ sets r2 = sets held_by_x /\
    expiry r2 = expiry held_by_x.
Proof.
  assert (Hacq : acquireLock [cart_7; user_1] "job-x" 30 free =
                 (Return true, held_by_x)) by (vm_compute; reflexivity).
  assert (Hq : quiet (faults held_by_x)) by reflexivity.
  split; [exact Hacq|]. split; [exact Hq|].
  exact (acquire_release_round_trip [cart_7; user_1] "job-x" 30 free held_by_x
           Hacq Hq).
Defined.

Lemma releaseLock_idempotent_witness :
  quiet (faults held_by_x) /\
  exists r1 r2,
    releaseLock [user_1] "job-x" held_by_x = (Return tt, r1) /\
    releaseLock [user_1] "job-x" r1 = (Return tt, r2) /\
    strings r2 = strings r1 /\
    ((forall k, k ∈ generateResourceLockKeys [user_1] ->
                fst <$> strings held_by_x !! k ≠ Some "job-x") ->
     strings r1 = strings held_by_x).
Proof.
  assert (Hq : quiet (faults held_by_x)) by reflexivity.
  split; [exact Hq|].
  exact (releaseLock_idempotent [user_1] "job-x" held_by_x Hq).
Defined.

Lemma getLockStatus_reports_holders_witness :
  quiet (faults held_by_x) /\
  exists status r',
    getLockStatus [cart_7; user_1] held_by_x = (Return status, r') /\
    status !! "tx_lock:user_1" = Some (Some "job-x") /\
    status !! "tx_lock:cart_7_checkout" = Some (Some "job-x") /\
    status !! "tx_lock:user_2" = None.
Proof.
  assert (Hq : quiet (faults held_by_x)) by reflexivity.
  split; [exact Hq|].
  destruct (getLockStatus_reports_holders [cart_7; user_1] held_by_x Hq)
    as (status & r' & Hrun & Hlook & _).
  exists status, r'. split; [exact Hrun|].
  rewrite !Hlook. split_and!; vm_compute; reflexivity.
Defined.

(** The order of a shop held by a job: the item of the order asks for
    the same key. *)
Definition order_shop_held : Redis.t unit :=
  Redis.mk {[ "tx_lock:order_shop_7" := ("job-y", 30%Z) ]} ∅ ∅ ∅ [].

Lemma lockKey_aliases_witness :
  quiet (faults order_shop_held) /\
  strings order_shop_held !! lockKey (mkResource "order_shop" (IdString "7") None)
    = Some ("job-y", 30%Z) /\
  lockKey (mkResource "order" (IdString "shop_7") None) =
  lockKey (mkResource "order_shop" (IdString "7") None) /\
  exists r',
    acquireLock [mkResource "order" (IdString "shop_7") None] "job-x" 30
      order_shop_held = (Return false, r') /\
    strings r' = strings order_shop_held.
Proof.
  assert (Hq : quiet (faults order_shop_held)) by reflexivity.
  assert (Hheld : strings order_shop_held !!
                    lockKey (mkResource ("order" +:+ "_" +:+ "shop") (IdString "7") None)
                  = Some ("job-y", 30%Z)) by (vm_compute; reflexivity).
  split; [exact Hq|]. split; [exact Hheld|].
  exact (lockKey_aliases "order" "shop" "7" None "job-x" 30 ("job-y", 30%Z)
           order_shop_held Hq Hheld).
Defined.

End LockCycle.

(** ** The transaction manager, further *)

Module EnqueueFacts.
Import Redis RedisFacts JsFacts SimpleTransactionManager ManagerFacts.
Import ConsumerFacts.

Section Facts.
Context {V W : Type}.
Implicit Types (s : State V).

(** The payload the manager creates is in the shape the consumer
    maintains. *)
Lemma payload_invariant env userId (steps : list (StepFunction V W))
    resourceIdentifiers idempotencyKey :
  job_invariant (payload env userId steps resourceIdentifiers idempotencyKey).
Proof.
  split.
  - unfold cursor_ok, payload. cbn [Types.steps currentStepIndex].
    destruct steps as [|step0 rest]; [done|].
    destruct (list_find _ _) as [[i found]|] eqn:Hfind.
    + apply list_find_Some in Hfind as (_ & _ & Hfirst).
      destruct i as [|i]; [done|]. exfalso.
      apply (Hfirst 0 (mkJobStep (sf_name step0) pending 0 null)); [done|lia|done].
    + apply list_find_None in Hfind. apply Forall_cons in Hfind as [Hhead _].
      exfalso. by apply Hhead.
  - intros j step _ Hstep. unfold payload in Hstep. cbn [Types.steps] in Hstep.
    rewrite list_lookup_imap in Hstep.
    destruct (steps !! j); [|done]. by injection Hstep as <-.
Qed.

(** X7. Without an idempotency key (none, or the empty string)
    [execute] sends no command to the server: it enqueues exactly one
    job, under the name [process-transaction] and with one attempt,
    whose payload has every step pending, in the order given, and
    [currentStepIndex] 0, which is the shape the consumer maintains;
    it returns the id of that job. A second such call returns a
    different id. *)
Theorem execute_without_key env env' userId userId'
    (steps steps' : list (StepFunction V W))
    resourceIdentifiers resourceIdentifiers' (key key' : option string) s :
  truthy_opt key = false ->
  truthy_opt key' = false ->
  exists jobId jobId' s1 s2,
    execute env userId steps resourceIdentifiers key s = (Return jobId, s1) /\
    redis s1 = redis s /\
    jobs (transactionQueue s1) =
      jobs (transactionQueue s) ++
        [("process-transaction",
          mkJob jobId (payload env userId steps resourceIdentifiers key) 0,
          mkJobsOptions 1 10 50)] /\
    map step_name (Types.steps (payload env userId steps resourceIdentifiers key))
      = map sf_name steps /\
    job_invariant (payload env userId steps resourceIdentifiers key) /\
    execute env' userId' steps' resourceIdentifiers' key' s1
      = (Return jobId', s2) /\
    jobId' ≠ jobId /\
    length (jobs (transactionQueue s2)) = S (S (length (jobs (transactionQueue s)))).
Proof.
  intros Hkey Hkey'.
  assert (Hrun : forall e u (st : list (StepFunction V W)) rs k s0,
    truthy_opt k = false ->
    execute e u st rs k s0 =
      (Return (pretty (S (counter (transactionQueue s0)))),
       mkState (redis s0)
         (mkQueue (jobs (transactionQueue s0) ++
                     [("process-transaction",
                       mkJob (pretty (S (counter (transactionQueue s0))))
                             (payload e u st rs k) 0,
                       mkJobsOptions 1 10 50)])
                  (S (counter (transactionQueue s0)))))).
  { intros e u st rs k s0 Hk. unfold execute, enqueue, add, payload.
    destruct k as [k|]; cbn in Hk; [rewrite Hk|]; reflexivity. }
  eexists _, _, _, _. split; [by apply Hrun|].
  split; [done|]. split; [done|]. split.
  { unfold payload. cbn [Types.steps].
    apply list_eq. intros j. rewrite !list_lookup_fmap, list_lookup_imap.
    by destruct (steps !! j). }
  split; [apply payload_invariant|].
  split; [by apply Hrun|]. split.
  - cbn. intros Heq. apply (inj pretty) in Heq. lia.
  - cbn. rewrite !length_app. cbn. lia.
Qed.

(** X8. A refused binding leaves a job behind. With a non-empty key
    that is not bound, when the server answers the [GET] and refuses
    the [SET] that follows, [execute] throws the error of the [SET]
    although the job is enqueued, and the key stays unbound; the
    same call made again, the server now refusing nothing, enqueues
    a second job for the same key. *)
Theorem execute_refused_binding env userId (steps : list (StepFunction V W))
    resourceIdentifiers (key : string) (e : Error) fs s :
  truthy key = true ->
  strings (redis s) !! ("idempotent:" +:+ key) = None ->
  faults (redis s) = None :: Some e :: fs ->
  quiet fs ->
  exists s1 jobId s2,
    execute env userId steps resourceIdentifiers (Some key) s = (Throw e, s1) /\
    jobs (transactionQueue s1) =
      jobs (transactionQueue s) ++
        [("process-transaction",
          mkJob (pretty (S (counter (transactionQueue s))))
                (payload env userId steps resourceIdentifiers (Some key)) 0,
          mkJobsOptions 1 10 50)] /\
    strings (redis s1) = strings (redis s) /\
    execute env userId steps resourceIdentifiers (Some key) s1
      = (Return jobId, s2) /\
    jobId ≠ pretty (S (counter (transactionQueue s))) /\
    length (jobs (transactionQueue s2)) = S (S (length (jobs (transactionQueue s)))).
Proof.
  intros Hkey Hfree Hfaults Hq.
  destruct s as [[str hs st ex fl] q]. cbn in Hfree, Hfaults. subst fl.
  set (s1 := mkState (Redis.mk str hs st ex fs)
               (mkQueue (jobs q ++
                           [("process-transaction",
                             mkJob (pretty (S (counter q)))
                                   (payload env userId steps resourceIdentifiers
                                            (Some key)) 0,
                             mkJobsOptions 1 10 50)])
                        (S (counter q)))).
  assert (Hrun1 : execute env userId steps resourceIdentifiers (Some key)
                    (mkState (Redis.mk str hs st ex (None :: Some e :: fs)) q)
                  = (Throw e, s1)).
  { unfold execute. rewrite Hkey. unfold get, command. cbn.
    rewrite Hfree. cbn. unfold enqueue, add. cbn. rewrite Hkey.
    unfold set_ex, command. cbn. reflexivity. }
  destruct (execute_quiet env userId steps resourceIdentifiers key s1 Hkey Hq)
    as (jobId & s2 & Hrun2 & _ & _ & _ & Hcase).
  cbn in Hcase. rewrite Hfree in Hcase. cbn in Hcase.
  destruct Hcase as (-> & Hjobs & _).
  exists s1, (pretty (S (S (counter q)))), s2. split_and!; try done.
  - intros Heq. apply (inj pretty) in Heq. cbn in Heq. lia.
  - rewrite Hjobs. cbn. rewrite !length_app. cbn. lia.
Qed.

(** X9. A refused lookup stops [execute] at once. With a non-empty
    key, when the server refuses the [GET], [execute] throws that
    error, enqueues nothing and binds nothing. *)
Theorem execute_refused_lookup env userId (steps : list (StepFunction V W))
    resourceIdentifiers (key : string) (e : Error) fs s :
  truthy key = true ->
  faults (redis s) = Some e :: fs ->
  exists s1,
    execute env userId steps resourceIdentifiers (Some key) s = (Throw e, s1) /\
    transactionQueue s1 = transactionQueue s /\
    strings (redis s1) = strings (redis s) /\
    faults (redis s1) = fs.
Proof.
  intros Hkey Hfaults.
  destruct s as [[str hs st ex fl] q]. cbn in Hfaults. subst fl.
  eexists. unfold execute. rewrite Hkey. unfold get, command. cbn.
  split; [reflexivity|]. by split_and!.
Qed.

End Facts.

Definition refuse_second : Error := mkError "Error" "ECONNRESET" "".

Definition flaky_state : State Z :=
  mkState (Redis.mk ∅ ∅ ∅ ∅ [None; Some refuse_second]) (mkQueue [] 0).

Definition down_state : State Z :=
  mkState (Redis.mk ∅ ∅ ∅ ∅ [Some refuse_second]) (mkQueue [] 0).

Lemma execute_without_key_witness :
  truthy_opt None = false /\
  truthy_opt (Some "") = false /\
  exists jobId jobId' s1 s2,
    execute_Z CompensationFacts.no_env 42 [logging "A" true true] None None
      empty_state = (Return jobId, s1) /\
    execute_Z CompensationFacts.no_env 42 [logging "A" true true] None (Some "")
      s1 = (Return jobId', s2) /\
    jobId' ≠ jobId /\
    length (jobs (transactionQueue s2)) = 2.
Proof.
  split; [reflexivity|]. split; [reflexivity|].
  destruct (execute_without_key (V:=Z) (W:=list string)
              CompensationFacts.no_env CompensationFacts.no_env 42 42
              [logging "A" true true] [logging "A" true true] None None
              None (Some "") empty_state eq_refl eq_refl)
    as (jobId & jobId' & s1 & s2 & Hrun1 & _ & _ & _ & _ & Hrun2 & Hne & Hlen).
  exists jobId, jobId', s1, s2. split; [exact Hrun1|]. split; [exact Hrun2|].
  split; [exact Hne|exact Hlen].
Defined.

Lemma execute_refused_binding_witness :
  truthy "order-17" = true /\
  strings (redis flaky_state) !! ("idempotent:" +:+ "order-17") = None /\
  faults (redis flaky_state) = [None; Some refuse_second] /\
  quiet [] /\
  exists s1 jobId s2,
    execute_Z CompensationFacts.no_env 42 [] None (Some "order-17") flaky_state
      = (Throw refuse_second, s1) /\
    strings (redis s1) = strings (redis flaky_state) /\
    execute_Z CompensationFacts.no_env 42 [] None (Some "order-17") s1
      = (Return jobId, s2) /\
    length (jobs (transactionQueue s2)) = 2.
Proof.
  split; [reflexivity|]. split; [reflexivity|]. split; [reflexivity|].
  split; [reflexivity|].
  destruct (execute_refused_binding (V:=Z) (W:=list string)
              CompensationFacts.no_env 42 [] None "order-17" refuse_second []
              flaky_state eq_refl eq_refl eq_refl eq_refl)
    as (s1 & jobId & s2 & Hrun1 & _ & Hs & Hrun2 & _ & Hlen).
  exists s1, jobId, s2. split; [exact Hrun1|]. split; [exact Hs|].
  split; [exact Hrun2|exact Hlen].
Defined.

Lemma execute_refused_lookup_witness :
  truthy "order-17" = true /\
  faults (redis down_state) = [Some refuse_second] /\
  exists s1,
    execute_Z CompensationFacts.no_env 42 [] None (Some "order-17") down_state
      = (Throw refuse_second, s1) /\
    transactionQueue s1 = transactionQueue down_state /\
    strings (redis s1) = strings (redis down_state) /\
    faults (redis s1) = [].
Proof.
  split; [reflexivity|]. split; [reflexivity|].
  exact (execute_refused_lookup (V:=Z) (W:=list string)
           CompensationFacts.no_env 42 [] None "order-17" refuse_second []
           down_state eq_refl eq_refl).
Defined.

End EnqueueFacts.

(** ** The keyspace under the commands of the services *)

Module KeyspaceFacts.
Import Redis RedisFacts.

Section Facts.
Context {H : Type}.
Implicit Types (r : Redis.t H).

(** The same keys with the same values; the fault plans may differ. *)
Definition same_keys r r' : Prop :=
  strings r' = strings r /\ hashes r' = hashes r /\
  sets r' = sets r /\ expiry r' = expiry r.

Lemma same_keys_refl r : same_keys r r.
Proof. by repeat split. Qed.

Lemma same_keys_trans r1 r2 r3 :
  same_keys r1 r2 -> same_keys r2 r3 -> same_keys r1 r3.
Proof.
  unfold same_keys. intros (?&?&?&?) (?&?&?&?). split_and!; congruence.
Qed.

(** A command on a server that refuses none is its body, run on the
    same keys. *)
Lemma command_quiet {A} (body : Redis.t H -> A * Redis.t H) r :
  quiet (faults r) ->
  exists r0, command body r = (Return (body r0).1, (body r0).2) /\
    same_keys r r0 /\ quiet (faults r0).
Proof.
  intros Hq. destruct (command body r) as [o r'] eqn:Hc.
  destruct (command_cases _ _ _ _ Hc)
    as [(e & _ & _ & _ & _ & _ & Hf & _)
       |(a & r0 & -> & Hb & Hs & Hh & Hst & Hex & Hf & _)].
  { unfold quiet in Hq. lia. }
  exists r0. rewrite Hb. cbn. unfold quiet in *.
  split; [done|]. split; [by repeat split|lia].
Qed.

(** A refused command, or one that reads, leaves the keys alone. *)
Lemma command_reads {A} (body : Redis.t H -> A * Redis.t H) r out r' :
  (forall r0, (body r0).2 = r0) ->
  command body r = (out, r') ->
  same_keys r r' /\ faults r' ⊆ faults r /\
  refusals (faults r') <= refusals (faults r) /\
  match out with
  | Return a => exists r0, same_keys r r0 /\ a = (body r0).1
  | Throw e => Some e ∈ faults r
  end.
Proof.
  intros Hread Hc.
  destruct (command_cases _ _ _ _ Hc)
    as [(e & -> & ? & ? & ? & ? & ? & ? & ?)
       |(a & r0 & -> & Hb & Hs & Hh & Hst & Hex & Hf & Hsub)].
  - repeat split; try done; lia.
  - pose proof (Hread r0) as Hr. rewrite Hb in Hr. cbn in Hr. subst r'.
    split; [by repeat split|]. split; [done|]. split; [lia|].
    exists r0. rewrite Hb. split; [by repeat split|done].
Qed.

(** The command was refused with [e]: nothing changed but the plan. *)
Definition refused r {A} (out : outcome A) r' (e : Error) : Prop :=
  out = Throw e /\ same_keys r r' /\
  S (refusals (faults r')) = refusals (faults r) /\ faults r' ⊆ faults r /\
  Some e ∈ faults r.

(** The command was run: the plan holds as many refusals as before. *)
Definition served r r' : Prop :=
  refusals (faults r') = refusals (faults r) /\ faults r' ⊆ faults r.

Lemma command_effect {A} (body : Redis.t H -> A * Redis.t H) r out r' :
  (forall r0, faults (body r0).2 = faults r0) ->
  command body r = (out, r') ->
  (exists e, refused r out r' e) \/
  (exists r0, same_keys r r0 /\ served r r' /\
              out = Return (body r0).1 /\ r' = (body r0).2).
Proof.
  intros Hplan Hc.
  destruct (command_cases _ _ _ _ Hc)
    as [(e & -> & ? & ? & ? & ? & ? & ? & ?)
       |(a & r0 & -> & Hb & Hs & Hh & Hst & Hex & Hf & Hsub)].
  - left. exists e. by repeat split.
  - right. exists r0. pose proof (Hplan r0) as Hp. rewrite Hb in *. cbn in *.
    split; [by repeat split|]. split; [|done].
    split; rewrite Hp; done.
Qed.

Lemma refused_not_quiet r {A} (out : outcome A) r' e :
  quiet (faults r) -> refused r out r' e -> False.
Proof. unfold quiet. intros Hq (_ & _ & Hf & _). lia. Qed.

Lemma served_elem r r' e : served r r' -> Some e ∈ faults r' -> Some e ∈ faults r.
Proof. intros (_ & Hsub). set_solver. Qed.

Lemma served_quiet r r' : quiet (faults r) -> served r r' -> quiet (faults r').
Proof. unfold quiet. intros Hq (Hf & _). lia. Qed.

Lemma hset_effect key (h : H) r out r' :
  hset key h r = (out, r') ->
  (exists e, refused r out r' e) \/
  (out = Return tt /\ served r r' /\ strings r' = strings r /\
   hashes r' = <[key := h]> (hashes r) /\ sets r' = sets r /\
   expiry r' = expiry r).
Proof.
  intros Hc. apply command_effect in Hc; [|done].
  destruct Hc as [?|(r0 & Hk & Hsv & -> & ->)]; [by left|].
  right. destruct Hk as (Hs & Hh & Hst & Hex). cbn. rewrite Hh.
  by split_and!.
Qed.

Lemma sadd_effect key member r out r' :
  sadd key member r = (out, r') ->
  (exists e, refused r out r' e) \/
  (out = Return tt /\ served r r' /\ strings r' = strings r /\
   hashes r' = hashes r /\
   sets r' = <[key := {[member]} ∪ members r key]> (sets r) /\
   expiry r' = expiry r).
Proof.
  intros Hc. apply command_effect in Hc; [|done].
  destruct Hc as [?|(r0 & Hk & Hsv & -> & ->)]; [by left|].
  right. destruct Hk as (Hs & Hh & Hst & Hex). cbn. unfold members.
  rewrite Hst. by split_and!.
Qed.

Lemma expire_effect key seconds r out r' :
  expire key seconds r = (out, r') ->
  (exists e, refused r out r' e) \/
  (out = Return tt /\ served r r' /\ strings r' = strings r /\
   hashes r' = hashes r /\ sets r' = sets r /\
   expiry r' = if decide (is_Some (hashes r !! key))
               then <[key := seconds]> (expiry r) else expiry r).
Proof.
  intros Hc. apply command_effect in Hc; [|by intros r0; case_decide].
  destruct Hc as [?|(r0 & Hk & Hsv & -> & ->)]; [by left|].
  right. destruct Hk as (Hs & Hh & Hst & Hex). rewrite <- Hh, <- Hex.
  case_decide; cbn; by split_and!.
Qed.

Lemma hgetall_effect key r out r' :
  hgetall key r = (out, r') ->
  (exists e, refused r out r' e) \/
  (out = Return (hashes r !! key) /\ served r r' /\ same_keys r r').
Proof.
  intros Hc. apply command_effect in Hc; [|done].
  destruct Hc as [?|(r0 & Hk & Hsv & -> & ->)]; [by left|].
  right. cbn. destruct Hk as (Hs & Hh & Hst & Hex). rewrite Hh.
  split; [done|]. split; [done|]. by repeat split.
Qed.

Lemma smembers_effect order key r out r' :
  smembers order key r = (out, r') ->
  (exists e, refused r out r' e) \/
  (out = Return (order (members r key)) /\ served r r' /\ same_keys r r').
Proof.
  intros Hc. apply command_effect in Hc; [|done].
  destruct Hc as [?|(r0 & Hk & Hsv & -> & ->)]; [by left|].
  right. cbn. destruct Hk as (Hs & Hh & Hst & Hex). unfold members.
  rewrite Hst. split; [done|]. split; [done|]. by repeat split.
Qed.

Lemma holds_value_same r r0 key :
  same_keys r r0 -> holds_value r0 key = holds_value r key.
Proof.
  intros (Hs & Hh & Hst & Hex). unfold holds_value, members.
  by rewrite Hs, Hh, Hst.
Qed.

Lemma exists_effect key r out r' :
  exists_ key r = (out, r') ->
  (exists e, refused r out r' e) \/
  (out = Return (if holds_value r key then 1 else 0) /\ served r r' /\
   same_keys r r').
Proof.
  intros Hc. apply command_effect in Hc; [|done].
  destruct Hc as [?|(r0 & Hk & Hsv & -> & ->)]; [by left|].
  right. cbn. rewrite (holds_value_same _ _ _ Hk).
  destruct Hk as (Hs & Hh & Hst & Hex).
  split; [done|]. split; [done|]. by repeat split.
Qed.

Lemma srem_effect key member r out r' :
  srem key member r = (out, r') ->
  (exists e, refused r out r' e) \/
  (served r r' /\ strings r' = strings r /\ hashes r' = hashes r /\
   expiry r' = expiry r /\
   members r' key = members r key ∖ {[member]} /\
   (forall other, other ≠ key -> sets r' !! other = sets r !! other) /\
   out = Return (if decide (member ∈ members r key) then 1 else 0)).
Proof.
  intros Hc. apply command_effect in Hc; [|by intros r0; case_decide].
  destruct Hc as [?|(r0 & Hk & Hsv & -> & ->)]; [by left|].
  right. destruct Hk as (Hs & Hh & Hst & Hex).
  assert (Hm : members r0 key = members r key).
  { unfold members. by rewrite Hst. }
  rewrite Hm in *.
  destruct (decide (member ∈ members r key)) as [Hin|Hin]; cbn [fst snd] in *.
  - split; [done|]. cbn [strings hashes expiry sets with_sets].
    split_and!; try done.
    + unfold members at 1. cbn [sets with_sets].
      case_decide as He.
      * rewrite lookup_delete_eq. cbn. by rewrite He.
      * by rewrite lookup_insert_eq.
    + intros other Hne. cbn [sets with_sets]. rewrite <- Hst.
      case_decide; [by rewrite lookup_delete_ne|by rewrite lookup_insert_ne].
  - split; [done|]. split_and!; try done; [|by rewrite Hst].
    rewrite Hm. set_solver.
Qed.

Lemma del_effect key r out r' :
  del key r = (out, r') ->
  (exists e, refused r out r' e) \/
  (served r r' /\ strings r' = delete key (strings r) /\
   hashes r' = delete key (hashes r) /\ sets r' = delete key (sets r) /\
   expiry r' = delete key (expiry r) /\
   out = Return (if holds_value r key then 1 else 0)).
Proof.
  intros Hc. apply command_effect in Hc; [|done].
  destruct Hc as [?|(r0 & Hk & Hsv & -> & ->)]; [by left|].
  right. cbn. rewrite (holds_value_same _ _ _ Hk).
  destruct Hk as (-> & -> & -> & ->). by split_and!.
Qed.

End Facts.
End KeyspaceFacts.

(** ** The records of failed compensations *)

Module FailureRecords.
Import Redis RedisFacts KeyspaceFacts CompensationService CompensationFacts.

(** The set that lists the keys of the records. *)
Definition INDEX : string := "compensation_failures:index".

(** The key of the record of a step of a job. *)
Definition failureKey (jobId stepName : string) : string :=
  "compensation_failure:" +:+ jobId +:+ ":" +:+ stepName.



Section Facts.
Context {V W : Type}.
Variable JSON_stringify : any V -> string.
Implicit Types (w : World V W).

(** The fields [recordCompensationFailure] writes. *)
Definition record_of (env : Env) (info : FailureInfo V) : CompensationFailure :=
  {| cf_jobId := fi_jobId info;
     cf_stepName := fi_stepName info;
     cf_stepResult := JSON_stringify (fi_stepResult info);
     cf_errorMessage := message (fi_error info);
     cf_errorStack := stack (fi_error info);
     cf_retryable := bool_toString (fi_retryable info);
     cf_failedAt := now_iso env |}.

(** What a call leaves of the records other than [key]: the hashes
    and expiries of the other keys, the other sets, and every key the
    index lists. *)
Definition keeps_but (key : string) (r r' : Redis.t (Hash V)) : Prop :=
  strings r' = strings r /\
  (forall k, k ≠ key -> hashes r' !! k = hashes r !! k) /\
  (forall k, k ≠ key -> expiry r' !! k = expiry r !! k) /\
  (forall s, s ≠ INDEX -> sets r' !! s = sets r !! s) /\
  members r INDEX ⊆ members r' INDEX /\
  refusals (faults r') <= refusals (faults r).

Lemma recordCompensationFailure_effect env info w out w' :
  recordCompensationFailure JSON_stringify env info w = (out, w') ->
  let key := failureKey (fi_jobId info) (fi_stepName info) in
  out = Return tt /\ same_but_redis w w' /\
  keeps_but key (redis w) (redis w') /\
  (quiet (faults (redis w)) ->
     quiet (faults (redis w')) /\
     hashes (redis w') =
       <[key := CompensationFailureHash (record_of env info)]> (hashes (redis w)) /\
     sets (redis w') =
       <[INDEX := {[key]} ∪ members (redis w) INDEX]> (sets (redis w)) /\
     expiry (redis w') = <[key := 604800%Z]> (expiry (redis w))).
Proof.
  intros Hrun key. revert Hrun.
  unfold recordCompensationFailure, try_catch, bind, ret.
  fold (failureKey (fi_jobId info) (fi_stepName info)). fold key.
  fold (record_of env info).
  destruct (on_redis (hset _ _) w) as [o1 w1] eqn:H1.
  apply on_redis_inv in H1 as (r1 & H1 & ->).
  apply hset_effect in H1
    as [(e & -> & (Hs & Hh & Hst & Hex) & Hf & Hsub)
       |(-> & (Hf & Hsub) & Hs & Hh & Hst & Hex)].
  { intros [= <- <-]. cbn. split; [done|]. split; [by repeat split|].
    split.
    - unfold keeps_but, members. rewrite Hs, Hh, Hst, Hex.
      split_and!; try done. lia.
    - unfold quiet. lia. }
  destruct (on_redis (sadd _ _) _) as [o2 w2] eqn:H2.
  apply on_redis_inv in H2 as (r2 & H2 & ->). cbn in H2.
  apply sadd_effect in H2
    as [(e & -> & (Hs2 & Hh2 & Hst2 & Hex2) & Hf2 & Hsub2)
       |(-> & (Hf2 & Hsub2) & Hs2 & Hh2 & Hst2 & Hex2)].
  { intros [= <- <-]. cbn. split; [done|]. split; [by repeat split|].
    split.
    - unfold keeps_but, members. rewrite Hs2, Hh2, Hst2, Hex2, Hs, Hh, Hst, Hex.
      split_and!; try done; [|lia].
      intros k Hk. by rewrite lookup_insert_ne.
    - unfold quiet. lia. }
  destruct (on_redis (expire _ _) _) as [o3 w3] eqn:H3.
  apply on_redis_inv in H3 as (r3 & H3 & ->). cbn in H3.
  assert (Hidx : members r1 INDEX ⊆ members r2 INDEX).
  { unfold members at 2. rewrite Hst2, lookup_insert_eq. cbn. set_solver. }
  assert (Hidx1 : members r1 INDEX = members (redis w) INDEX).
  { unfold members. by rewrite Hst. }
  apply expire_effect in H3
    as [(e & -> & (Hs3 & Hh3 & Hst3 & Hex3) & Hf3 & Hsub3)
       |(-> & (Hf3 & Hsub3) & Hs3 & Hh3 & Hst3 & Hex3)].
  { intros [= <- <-]. cbn. split; [done|]. split; [by repeat split|].
    split.
    - unfold keeps_but. rewrite Hs3, Hh3, Hex3, Hs2, Hh2, Hex2, Hs, Hh, Hex.
      split_and!; try done.
      + intros k Hk. by rewrite lookup_insert_ne.
      + intros s Hne. by rewrite Hst3, Hst2, lookup_insert_ne, Hst.
      + unfold members at 2. rewrite Hst3. fold (members r2 INDEX).
        by rewrite <- Hidx1.
      + lia.
    - unfold quiet. lia. }
  intros [= <- <-]. cbn. split; [done|]. split; [by repeat split|].
  rewrite Hh2, Hh, lookup_insert_eq in Hex3.
  rewrite decide_True in Hex3 by by eexists.
  split.
  - unfold keeps_but. rewrite Hs3, Hh3, Hex3, Hs2, Hh2, Hex2, Hs, Hh, Hex.
    split_and!; try done.
    + intros k Hk. by rewrite lookup_insert_ne.
    + intros k Hk. by rewrite lookup_insert_ne.
    + intros s Hne. by rewrite Hst3, Hst2, lookup_insert_ne, Hst.
    + unfold members at 2. rewrite Hst3. fold (members r2 INDEX).
      by rewrite <- Hidx1.
    + lia.
  - unfold quiet. intros Hq. split; [lia|]. fold INDEX in Hst2.
    rewrite Hh3, Hh2, Hh, Hst3, Hst2, Hst, Hex3, Hex2, Hex, Hidx1.
    by split_and!.
Qed.






(** X11. [recordCompensationFailure] on a server that refuses no
    command: it returns normally; the record, with the job id, the
    step name, the step result as JSON text, the message and stack of
    the error, the retryable flag as text and the time, is under
    [compensation_failure:<jobId>:<stepName>]; that key is in the
    index; it expires after seven days (604800 seconds); the rest of
    the world is as it was. And whatever the server refuses, the call
    returns normally. *)
Theorem recordCompensationFailure_writes env (info : FailureInfo V) w :
  (recordCompensationFailure JSON_stringify env info w).1 = Return tt /\
  (quiet (faults (redis w)) ->
   exists w',
     recordCompensationFailure JSON_stringify env info w = (Return tt, w') /\
     same_but_redis w w' /\
     strings (redis w') = strings (redis w) /\
     hashes (redis w') =
       <[failureKey (fi_jobId info) (fi_stepName info) :=
           CompensationFailureHash
             {| cf_jobId := fi_jobId info;
                cf_stepName := fi_stepName info;
                cf_stepResult := JSON_stringify (fi_stepResult info);
                cf_errorMessage := message (fi_error info);
                cf_errorStack := stack (fi_error info);
                cf_retryable := if fi_retryable info then "true" else "false";
                cf_failedAt := now_iso env |}]> (hashes (redis w)) /\
     (failureKey (fi_jobId info) (fi_stepName info) ∈ members (redis w') INDEX) /\
     expiry (redis w') !! failureKey (fi_jobId info) (fi_stepName info)
       = Some 604800%Z).
Proof.
  destruct (recordCompensationFailure JSON_stringify env info w) as [out w'] eqn:Hrun.
  apply recordCompensationFailure_effect in Hrun
    as (-> & Hsame & (Hs & _) & Hquiet).
  split; [done|]. intros Hq. destruct (Hquiet Hq) as (_ & Hh & Hst & Hex).
  exists w'. split_and!; try done.
  - unfold members at 1. rewrite Hst, lookup_insert_eq. cbn. set_solver.
  - by rewrite Hex, lookup_insert_eq.
Qed.


End Facts.

Definition refused_connection : Error :=
  SimpleTransactionConsumer.new_Error "connect ECONNREFUSED 127.0.0.1:3306".

Lemma recordCompensationFailure_writes_witness :
  quiet (faults (redis idle_world)) /\
  exists w',
    recordCompensationFailure (fun _ => "null") no_env
      (mkFailureInfo "1" "B" null refused_connection true) idle_world
      = (Return tt, w') /\
    hashes (redis w') !! "compensation_failure:1:B" =
      Some (CompensationFailureHash
              {| cf_jobId := "1"; cf_stepName := "B"; cf_stepResult := "null";
                 cf_errorMessage := "connect ECONNREFUSED 127.0.0.1:3306";
                 cf_errorStack := ""; cf_retryable := "true";
                 cf_failedAt := "2025-09-12T00:00:00.000Z" |}) /\
    ("compensation_failure:1:B" ∈ members (redis w') INDEX) /\
    expiry (redis w') !! "compensation_failure:1:B" = Some 604800%Z.
Proof.
  assert (Hq : quiet (faults (redis idle_world))) by reflexivity.
  split; [exact Hq|].
  destruct (proj2 (recordCompensationFailure_writes (V:=Z) (W:=list string)
                     (fun _ => "null") no_env
                     (mkFailureInfo "1" "B" null refused_connection true)
                     idle_world) Hq)
    as (w' & Hrun & _ & _ & Hh & Hidx & Hex).
  exists w'. split; [exact Hrun|]. split; [|split; [exact Hidx|exact Hex]].
  rewrite Hh. apply lookup_insert_eq.
Defined.


End FailureRecords.

(** ** Retrying a failed compensation *)

Module RetryFacts.
Import Redis RedisFacts KeyspaceFacts CompensationService CompensationFacts.
Import FailureRecords.

Section Facts.
Context {V W : Type}.
Variable JSON_parse : string -> outcome (any V).
Variable stepRegistry : StepRegistry.t V W.
Implicit Types (w : World V W).

(** The text [retryCompensationFailure] parses: the stored result, or
    an empty object when the stored text is empty. *)
Definition stored_text (fields : CompensationFailure) : string :=
  if truthy (cf_stepResult fields) then cf_stepResult fields else "{}".

(** Under [key] there is a record marked retryable, of a step whose
    registered function has a compensate action. *)
Definition awaiting (key : string) w (fields : CompensationFailure)
    (action : any V -> W -> outcome unit * W) : Prop :=
  hashes (redis w) !! key = Some (CompensationFailureHash fields) /\
  truthy (cf_jobId fields) = true /\
  cf_retryable fields = "true" /\
  exists sf, StepRegistry.get (cf_stepName fields) stepRegistry = Some sf /\
             compensate sf = Some action.

(** The record under [key] is gone, from the hashes and from the
    index. *)
Definition removed (key : string) (r r' : Redis.t (Hash V)) : Prop :=
  strings r' = delete key (strings r) /\
  hashes r' = delete key (hashes r) /\
  expiry r' = delete key (expiry r) /\
  (key ∉ members r' INDEX) /\
  (key ≠ INDEX -> members r' INDEX = members r INDEX ∖ {[key]}).

Lemma retry_cases key w out w' :
  retryCompensationFailure JSON_parse stepRegistry key w = (out, w') ->
  exists b, out = Return b /\
    job w' = job w /\ persisted w' = persisted w /\
    refusals (faults (redis w')) <= refusals (faults (redis w)) /\
    ((b = false /\ trace w' = trace w /\ user w' = user w /\
      same_keys (redis w) (redis w') /\
      ((forall fields action, ~ awaiting key w fields action) \/
       (exists e, Some e ∈ faults (redis w)) \/
       (exists fields action e,
          awaiting key w fields action /\
          JSON_parse (stored_text fields) = Throw e))) \/
     (exists fields action v o,
        awaiting key w fields action /\
        JSON_parse (stored_text fields) = Return v /\
        action v (user w) = (o, user w') /\
        trace w' = trace w ++ [EvCompensate (cf_stepName fields) v] /\
        match o with
        | Throw _ => b = false /\ same_keys (redis w) (redis w')
        | Return _ =>
            (b = true /\ removed key (redis w) (redis w')) \/
            (b = false /\ exists e, Some e ∈ faults (redis w))
        end)).
Proof.
  unfold retryCompensationFailure, try_catch, bind at 1.
  destruct (on_redis (hgetall key) w) as [o1 w1] eqn:H1.
  apply on_redis_inv in H1 as (r1 & H1 & ->).
  apply hgetall_effect in H1
    as [(e & -> & Hk & Hf & Hsub & He)|(-> & (Hf & Hsub) & Hk)].
  { intros [= <- <-]. exists false. cbn. split_and!; try done; [lia|].
    left. split_and!; try done. right. left. by exists e. }
  assert (Hnone : forall o w0,
    (forall fields action, ~ awaiting key w fields action) ->
    (o, w0) = (Return false, with_redis w r1) ->
    exists b, o = Return b /\
      job w0 = job w /\ persisted w0 = persisted w /\
      refusals (faults (redis w0)) <= refusals (faults (redis w)) /\
      ((b = false /\ trace w0 = trace w /\ user w0 = user w /\
        same_keys (redis w) (redis w0) /\
        ((forall fields action, ~ awaiting key w fields action) \/
         (exists e, Some e ∈ faults (redis w)) \/
         (exists fields action e,
            awaiting key w fields action /\
            JSON_parse (stored_text fields) = Throw e))) \/
       (exists fields action v o,
          awaiting key w fields action /\
          JSON_parse (stored_text fields) = Return v /\
          action v (user w) = (o, user w0) /\
          trace w0 = trace w ++ [EvCompensate (cf_stepName fields) v] /\
          match o with
          | Throw _ => b = false /\ same_keys (redis w) (redis w0)
          | Return _ =>
              (b = true /\ removed key (redis w) (redis w0)) \/
              (b = false /\ exists e, Some e ∈ faults (redis w))
          end))).
  { intros o w0 Hno [= -> ->]. exists false. cbn.
    split_and!; try done; [lia|]. left. split_and!; try done. by left. }
  destruct (hashes (redis w) !! key) as [[fields|dlqId record]|] eqn:Hrec;
    cbn [field_jobId field_retryable field_stepName field_stepResult truthy_opt negb].
  2,3: intros Hrun; apply Hnone; [|done];
       intros fields action (Hhash & _); unfold awaiting in *; congruence.
  destruct (truthy (cf_jobId fields)) eqn:Hjob; cbn [negb].
  2: { intros Hrun. apply Hnone; [|done].
       intros fields' action (Hhash & Hj & _). congruence. }
  case_bool_decide as Hretry; cbn [negb].
  2: { intros Hrun. apply Hnone; [|done].
       intros fields' action (Hhash & _ & Hr & _). congruence. }
  injection Hretry as Hretry.
  destruct (StepRegistry.get (cf_stepName fields) stepRegistry) as [sf|] eqn:Hget.
  2: { intros Hrun. apply Hnone; [|done].
       intros fields' action (Hhash & _ & _ & sf & Hg & _). congruence. }
  destruct (compensate sf) as [action|] eqn:Hact.
  2: { intros Hrun. apply Hnone; [|done].
       intros fields' action (Hhash & _ & _ & sf' & Hg & Ha). congruence. }
  assert (Hawait : awaiting key w fields action).
  { split_and!; try done. by exists sf. }
  fold (stored_text fields). unfold bind at 1.
  destruct (JSON_parse (stored_text fields)) as [v|e] eqn:Hparse.
  2: { intros [= <- <-]. exists false. cbn. split_and!; try done; [lia|].
       left. split_and!; try done. right. right. by exists fields, action, e. }
  unfold bind at 1. unfold on_user at 1. cbn [user trace with_redis].
  destruct (action v (user w)) as [[[]|e] u] eqn:Hcall.
  2: { intros [= <- <-]. exists false. cbn. split_and!; try done; [lia|].
       right. exists fields, action, v, (Throw e). by split_and!. }
  unfold bind at 1.
  destruct (on_redis (del key) _) as [o2 w2] eqn:H2.
  apply on_redis_inv in H2 as (r2 & H2 & ->). cbn in H2.
  apply del_effect in H2
    as [(e & -> & Hk2 & Hf2 & Hsub2 & He2)
       |((Hf2 & Hsub2) & Hs2 & Hh2 & Hst2 & Hex2 & ->)].
  { intros [= <- <-]. exists false. cbn. split_and!; try done; [lia|].
    right. exists fields, action, v, (Return tt). split_and!; try done.
    right. split; [done|]. exists e. set_solver. }
  unfold bind at 1.
  destruct (on_redis (srem _ _) _) as [o3 w3] eqn:H3.
  apply on_redis_inv in H3 as (r3 & H3 & ->). cbn in H3.
  apply srem_effect in H3
    as [(e & -> & Hk3 & Hf3 & Hsub3 & He3)
       |((Hf3 & Hsub3) & Hs3 & Hh3 & Hex3 & Hm3 & Hother3 & ->)].
  { intros [= <- <-]. exists false. cbn. split_and!; try done; [lia|].
    right. exists fields, action, v, (Return tt). split_and!; try done.
    right. split; [done|]. exists e. set_solver. }
  intros [= <- <-]. exists true. cbn. split_and!; try done; [lia|].
  right. exists fields, action, v, (Return tt). split_and!; try done.
  left. split; [done|]. destruct Hk as (Hs1 & Hh1 & Hst1 & Hex1).
  fold INDEX in Hm3. unfold removed. rewrite Hs3, Hs2, Hh3, Hh2, Hex3, Hex2, Hs1, Hh1, Hex1.
  split_and!; try done.
  - rewrite Hm3. set_solver.
  - intros Hne. rewrite Hm3. unfold members. rewrite Hst2, Hst1.
    by rewrite lookup_delete_ne.
Qed.

(** X13. [retryCompensationFailure] never throws and does no more
    than one retry. Whatever the record, the registry, the compensate
    action and the server do, it returns a boolean; the payload of
    the job is as it was; user code is called at most once, and that
    call is the compensate action registered under the step name of
    the record, with the parsed text of the stored result. It
    returns true only when there was, under the key, a record marked
    retryable of a step whose registered function has a compensate
    action, that action returned normally, and the record was then
    deleted and its key taken out of the index. *)
Theorem retryCompensationFailure_sound key w :
  exists b w',
    retryCompensationFailure JSON_parse stepRegistry key w = (Return b, w') /\
    job w' = job w /\ persisted w' = persisted w /\
    (trace w' = trace w \/
     exists fields action v,
       awaiting key w fields action /\
       JSON_parse (stored_text fields) = Return v /\
       trace w' = trace w ++ [EvCompensate (cf_stepName fields) v]) /\
    (b = true ->
     exists fields action v,
       awaiting key w fields action /\
       JSON_parse (stored_text fields) = Return v /\
       action v (user w) = (Return tt, user w') /\
       trace w' = trace w ++ [EvCompensate (cf_stepName fields) v] /\
       hashes (redis w') = delete key (hashes (redis w)) /\
       key ∉ members (redis w') INDEX).
Proof.
  destruct (retryCompensationFailure JSON_parse stepRegistry key w)
    as [out w'] eqn:Hrun.
  apply retry_cases in Hrun
    as (b & -> & Hj & Hp & _ &
        [(-> & Ht & _)|(fields & action & v & o & Haw & Hparse & Hcall & Ht & Ho)]).
  - exists false, w'. split_and!; try done. by left.
  - exists b, w'. split_and!; try done.
    + right. by exists fields, action, v.
    + intros ->. destruct o as [[]|e].
      * destruct Ho as [(_ & _ & Hh & _ & Hidx & _)|([=] & _)].
        exists fields, action, v. by split_and!.
      * by destruct Ho as ([=] & _).
Qed.

(** X14. Nothing to retry, nothing done. When under the key there is
    no record, or a record that is not marked retryable, or the step
    of the record has no registered function with a compensate
    action, [retryCompensationFailure] returns false, calls no user
    code and leaves the keyspace as it was. *)
Theorem retryCompensationFailure_declines key w :
  (forall fields action, ~ awaiting key w fields action) ->
  exists w',
    retryCompensationFailure JSON_parse stepRegistry key w = (Return false, w') /\
    trace w' = trace w /\ user w' = user w /\
    job w' = job w /\ persisted w' = persisted w /\
    same_keys (redis w) (redis w').
Proof.
  intros Hno.
  destruct (retryCompensationFailure JSON_parse stepRegistry key w)
    as [out w'] eqn:Hrun.
  apply retry_cases in Hrun
    as (b & -> & Hj & Hp & _ &
        [(-> & Ht & Hu & Hk & _)|(fields & action & v & o & Haw & _)]).
  - exists w'. by split_and!.
  - by destruct (Hno fields action).
Qed.

(** X15. A retry on a server that refuses no command. With a record
    marked retryable under the key, a compensate action registered
    for its step and a stored result that parses, the action is
    called once with the parsed result. When it returns normally the
    answer is true, the record is deleted and its key is out of the
    index; when it throws the answer is false and the keyspace is as
    it was, the record still there for another attempt. *)
Theorem retryCompensationFailure_quiet key w fields action v :
  awaiting key w fields action ->
  JSON_parse (stored_text fields) = Return v ->
  quiet (faults (redis w)) ->
  exists b w',
    retryCompensationFailure JSON_parse stepRegistry key w = (Return b, w') /\
    trace w' = trace w ++ [EvCompensate (cf_stepName fields) v] /\
    user w' = (action v (user w)).2 /\
    match (action v (user w)).1 with
    | Return _ =>
        b = true /\
        hashes (redis w') = delete key (hashes (redis w)) /\
        (key ∉ members (redis w') INDEX) /\
        (key ≠ INDEX -> members (redis w') INDEX = members (redis w) INDEX ∖ {[key]})
    | Throw _ =>
        b = false /\ same_keys (redis w) (redis w')
    end.
Proof.
  intros Haw Hparse Hq.
  destruct (retryCompensationFailure JSON_parse stepRegistry key w)
    as [out w'] eqn:Hrun.
  apply retry_cases in Hrun
    as (b & -> & Hj & Hp & _ &
        [(-> & Ht & Hu & Hk & [Hno|[(e & He)|(f' & a' & e & Haw' & Hparse')]])
        |(f' & a' & v' & o & Haw' & Hparse' & Hcall & Ht & Ho)]).
  - by destruct (Hno fields action).
  - exfalso. unfold quiet, refusals in Hq.
    apply length_zero_iff_nil in Hq.
    assert (Hin : Some e ∈ filter is_Some (faults (redis w))).
    { apply list_elem_of_filter. split; [by eexists|done]. }
    rewrite Hq in Hin. by apply elem_of_nil in Hin.
  - exfalso. destruct Haw as (Hh & _), Haw' as (Hh' & _).
    rewrite Hh in Hh'. injection Hh' as <-. congruence.
  - assert (f' = fields) as ->.
    { destruct Haw as (Hh & _), Haw' as (Hh' & _). congruence. }
    assert (a' = action) as ->.
    { destruct Haw as (_ & _ & _ & sf & Hg & Ha),
               Haw' as (_ & _ & _ & sf' & Hg' & Ha'). congruence. }
    assert (v' = v) as -> by congruence.
    exists b, w'. rewrite Hcall. cbn [fst snd]. split_and!; try done.
    destruct o as [[]|e]; [|done].
    destruct Ho as [(-> & _ & Hh & _ & Hidx & Hrest)|(_ & e & He)]; [done|].
    exfalso. unfold quiet, refusals in Hq.
    apply length_zero_iff_nil in Hq.
    assert (Hin : Some e ∈ filter is_Some (faults (redis w))).
    { apply list_elem_of_filter. split; [by eexists|done]. }
    rewrite Hq in Hin. by apply elem_of_nil in Hin.
Qed.

End Facts.

Section Composition.
Context {V W : Type}.
Variable JSON_stringify : any V -> string.
Variable JSON_parse : string -> outcome (any V).
Variable stepRegistry : StepRegistry.t V W.
Implicit Types (w : World V W).

(** X16. From the record to the retry. After
    [recordCompensationFailure] has filed a retryable failure of a
    job with a non-empty id (the server refusing no command),
    [retryCompensationFailure] on the key of the record calls the
    compensate action registered under the step name, with what
    [JSON.parse] makes of the text [JSON.stringify] made of the step
    result (of the text of an empty object when that text is empty);
    when the action returns normally the answer is true and the
    record is gone from the hashes and from the index. *)
Theorem record_then_retry env (info : FailureInfo V) sf action v u' w :
  fi_retryable info = true ->
  truthy (fi_jobId info) = true ->
  StepRegistry.get (fi_stepName info) stepRegistry = Some sf ->
  compensate sf = Some action ->
  JSON_parse (if truthy (JSON_stringify (fi_stepResult info))
              then JSON_stringify (fi_stepResult info) else "{}") = Return v ->
  action v (user w) = (Return tt, u') ->
  quiet (faults (redis w)) ->
  exists w1 w2,
    recordCompensationFailure JSON_stringify env info w = (Return tt, w1) /\
    retryCompensationFailure JSON_parse stepRegistry
      (failureKey (fi_jobId info) (fi_stepName info)) w1 = (Return true, w2) /\
    trace w2 = trace w ++ [EvCompensate (fi_stepName info) v] /\
    user w2 = u' /\
    hashes (redis w2) =
      delete (failureKey (fi_jobId info) (fi_stepName info)) (hashes (redis w)) /\
    failureKey (fi_jobId info) (fi_stepName info) ∉ members (redis w2) INDEX.
Proof.
  intros Hretry Hjob Hget Hact Hparse Hcall Hq.
  set (key := failureKey (fi_jobId info) (fi_stepName info)).
  destruct (recordCompensationFailure JSON_stringify env info w) as [o1 w1] eqn:Hrec.
  apply recordCompensationFailure_effect in Hrec
    as (-> & (Hj1 & Hp1 & Hu1 & Ht1) & _ & Hquiet).
  destruct (Hquiet Hq) as (Hq1 & Hh1 & _). fold key in Hh1.
  assert (Haw : awaiting stepRegistry key w1 (record_of JSON_stringify env info) action).
  { split_and!.
    - by rewrite Hh1, lookup_insert_eq.
    - done.
    - cbn. by rewrite Hretry.
    - by exists sf. }
  destruct (retryCompensationFailure JSON_parse stepRegistry key w1)
    as [out w2] eqn:Hrun.
  pose proof Hrun as Hrun0. apply retry_cases in Hrun
    as (b & -> & _ & _ & _ &
        [(-> & _ & _ & _ & [Hno|[(e & He)|(f' & a' & e & Haw' & Hparse')]])
        |(f' & a' & v' & o & Haw' & Hparse' & Hcall' & Ht & Ho)]).
  - by destruct (Hno _ _ Haw).
  - exfalso. unfold quiet, refusals in Hq1.
    apply length_zero_iff_nil in Hq1.
    assert (Hin : Some e ∈ filter is_Some (faults (redis w1))).
    { apply list_elem_of_filter. split; [by eexists|done]. }
    rewrite Hq1 in Hin. by apply elem_of_nil in Hin.
  - exfalso. destruct Haw as (Hh & _), Haw' as (Hh' & _).
    rewrite Hh in Hh'. injection Hh' as <-.
    unfold stored_text in Hparse'. cbn in Hparse'. congruence.
  - assert (f' = record_of JSON_stringify env info) as ->.
    { destruct Haw as (Hh & _), Haw' as (Hh' & _). congruence. }
    assert (a' = action) as ->.
    { destruct Haw' as (_ & _ & _ & sf' & Hg' & Ha').
      change (StepRegistry.get (fi_stepName info) stepRegistry = Some sf') in Hg'.
      congruence. }
    unfold stored_text in Hparse'. cbn in Hparse'.
    assert (v' = v) as -> by congruence.
    rewrite Hu1, Hcall in Hcall'. injection Hcall' as <- Hu2.
    destruct Ho as [(-> & _ & Hh & _ & Hidx & _)|(_ & e & He)].
    + exists w1, w2. split_and!; try done.
      * by rewrite Ht, Ht1.
      * rewrite Hh, Hh1. apply delete_insert_eq.
    + exfalso. unfold quiet, refusals in Hq1.
      apply length_zero_iff_nil in Hq1.
      assert (Hin : Some e ∈ filter is_Some (faults (redis w1))).
      { apply list_elem_of_filter. split; [by eexists|done]. }
      rewrite Hq1 in Hin. by apply elem_of_nil in Hin.
Qed.

End Composition.

(** The record of the failed compensation of step [B] of job 1, and a
    registry in which the compensate action of [B] works again. *)
Definition record_B : CompensationFailure :=
  {| cf_jobId := "1"; cf_stepName := "B"; cf_stepResult := "";
     cf_errorMessage := "connect ECONNREFUSED 127.0.0.1:3306";
     cf_errorStack := ""; cf_retryable := "true";
     cf_failedAt := "2025-09-12T00:00:00.000Z" |}.

Definition recorded_world : World Z (list string) :=
  mkWorld
    (Redis.mk ∅ {[ "compensation_failure:1:B" := CompensationFailureHash record_B ]}
              {[ INDEX := {[ "compensation_failure:1:B" ]} ]}
              {[ "compensation_failure:1:B" := 604800%Z ]} [])
    (job idle_world) [] [] [].

Definition registry_repaired : StepRegistry.t Z (list string) :=
  ConsumerFacts.register_step (ConsumerFacts.logging "B" true true)
    ConsumerFacts.registry_abc.

Definition parse_null : string -> outcome (any Z) := fun _ => Return null.

Definition undo_B : any Z -> list string -> outcome unit * list string :=
  fun _ u => (Return tt, u ++ ["B-"]).

Lemma recorded_world_awaiting :
  awaiting registry_repaired "compensation_failure:1:B" recorded_world
           record_B undo_B.
Proof.
  split; [vm_compute; reflexivity|]. split; [reflexivity|].
  split; [reflexivity|].
  exists (ConsumerFacts.logging "B" true true).
  split; vm_compute; reflexivity.
Qed.

Lemma retryCompensationFailure_declines_witness :
  (forall fields action,
     ~ awaiting registry_repaired "compensation_failure:1:B" idle_world
                fields action) /\
  exists w',
    retryCompensationFailure parse_null registry_repaired
      "compensation_failure:1:B" idle_world = (Return false, w') /\
    trace w' = trace idle_world /\ user w' = user idle_world.
Proof.
  assert (Hno : forall fields action,
            ~ awaiting registry_repaired "compensation_failure:1:B" idle_world
                       fields action).
  { intros fields action (Hh & _). cbn in Hh. by rewrite lookup_empty in Hh. }
  split; [exact Hno|].
  destruct (retryCompensationFailure_declines parse_null registry_repaired
              "compensation_failure:1:B" idle_world Hno)
    as (w' & Hrun & Ht & Hu & _).
  exists w'. split; [exact Hrun|]. split; [exact Ht|exact Hu].
Defined.

Lemma retryCompensationFailure_quiet_witness :
  parse_null (stored_text record_B) = Return null /\
  quiet (faults (redis recorded_world)) /\
  exists w',
    retryCompensationFailure parse_null registry_repaired
      "compensation_failure:1:B" recorded_world = (Return true, w') /\
    trace w' = [EvCompensate "B" null] /\
    user w' = ["B-"] /\
    hashes (redis w') = ∅.
Proof.
  assert (Hq : quiet (faults (redis recorded_world))) by reflexivity.
  split; [reflexivity|]. split; [exact Hq|].
  destruct (retryCompensationFailure_quiet parse_null registry_repaired
              "compensation_failure:1:B" recorded_world record_B undo_B null
              recorded_world_awaiting eq_refl Hq)
    as (b & w' & Hrun & Ht & Hu & Hb & Hh & _).
  subst b. exists w'. split; [exact Hrun|]. split; [exact Ht|].
  split; [exact Hu|]. rewrite Hh. cbn. apply delete_singleton_eq.
Defined.

Lemma record_then_retry_witness :
  quiet (faults (redis idle_world)) /\
  exists w1 w2,
    recordCompensationFailure (fun _ => "") no_env
      (mkFailureInfo "1" "B" (value 1%Z) FailureRecords.refused_connection true)
      idle_world = (Return tt, w1) /\
    retryCompensationFailure parse_null registry_repaired
      "compensation_failure:1:B" w1 = (Return true, w2) /\
    trace w2 = [EvCompensate "B" null] /\
    user w2 = ["B-"] /\
    hashes (redis w2) = ∅.
Proof.
  assert (Hq : quiet (faults (redis idle_world))) by reflexivity.
  split; [exact Hq|].
  destruct (record_then_retry (fun _ => "") parse_null registry_repaired no_env
              (mkFailureInfo "1" "B" (value 1%Z) FailureRecords.refused_connection true)
              (ConsumerFacts.logging "B" true true) undo_B null ["B-"] idle_world
              eq_refl eq_refl eq_refl eq_refl eq_refl eq_refl Hq)
    as (w1 & w2 & Hrec & Hrun & Ht & Hu & Hh & _).
  exists w1, w2. split; [exact Hrec|]. split; [exact Hrun|].
  split; [exact Ht|]. split; [exact Hu|].
  rewrite Hh. cbn. apply delete_empty.
Defined.

End RetryFacts.

(** ** Cleaning the index of failed compensations *)

Module CleanupFacts.
Import Redis RedisFacts KeyspaceFacts CompensationService CompensationFacts.
Import FailureRecords.

Section Facts.
Context {V W : Type}.
Variable order : gset string -> list string.
Implicit Types (w : World V W) (r : Redis.t (Hash V)).

(** The index may lose keys; nothing else changes. *)
Definition index_shrinks r r' : Prop :=
  strings r' = strings r /\ hashes r' = hashes r /\ expiry r' = expiry r /\
  (forall s, s ≠ INDEX -> sets r' !! s = sets r !! s) /\
  members r' INDEX ⊆ members r INDEX.

Lemma index_shrinks_refl r : index_shrinks r r.
Proof. unfold index_shrinks. by split_and!. Qed.

Lemma index_shrinks_trans r1 r2 r3 :
  index_shrinks r1 r2 -> index_shrinks r2 r3 -> index_shrinks r1 r3.
Proof.
  intros (Hs & Hh & Hex & Hst & Hm) (Hs' & Hh' & Hex' & Hst' & Hm').
  unfold index_shrinks. split_and!; try congruence.
  - intros s Hne. by rewrite Hst', Hst.
  - set_solver.
Qed.

Lemma same_keys_shrinks r r' : same_keys r r' -> index_shrinks r r'.
Proof.
  intros (Hs & Hh & Hst & Hex). unfold index_shrinks, members.
  rewrite Hs, Hh, Hst, Hex. by split_and!.
Qed.

(** Whatever the server refuses: the loop takes out of the index only
    keys under which, when it asked, there was nothing. *)
Lemma cleanupLoop_safe failureKeys :
  forall cleanedCount w out w',
  cleanupLoop failureKeys cleanedCount w = (out, w') ->
  same_but_redis w w' /\ index_shrinks (redis w) (redis w') /\
  (forall k, k ∈ members (redis w) INDEX -> k ∉ members (redis w') INDEX ->
     k ∈ failureKeys /\
     strings (redis w) !! k = None /\ hashes (redis w) !! k = None).
Proof.
  induction failureKeys as [|key rest IH]; intros n w out w'; cbn [cleanupLoop].
  - intros [= <- <-]. split; [by repeat split|]. split; [apply index_shrinks_refl|].
    intros k Hin Hout. done.
  - unfold bind at 1.
    destruct (on_redis (exists_ key) w) as [o1 w1] eqn:H1.
    apply on_redis_inv in H1 as (r1 & H1 & ->).
    apply exists_effect in H1
      as [(e & -> & Hk & _)|(-> & _ & Hk)].
    { intros [= <- <-]. split; [by repeat split|]. cbn.
      split; [by apply same_keys_shrinks|].
      intros k Hin Hout. exfalso. apply Hout.
      destruct Hk as (_ & _ & Hst & _). unfold members in *. by rewrite Hst. }
    pose proof (same_keys_shrinks _ _ Hk) as Hsh1.
    destruct (holds_value (redis w) key) eqn:Hval.
    + rewrite bool_decide_eq_false_2 by done.
      intros Hrest. apply IH in Hrest as (Hsame & Hsh & Hgone). cbn in *.
      split; [done|]. split; [by eapply index_shrinks_trans|].
      intros k Hin Hout.
      destruct Hk as (Hs & Hh & Hst & Hex).
      destruct (Hgone k) as (Hk' & Hnos & Hnoh); try done.
      { unfold members in *. by rewrite Hst. }
      split; [by right|]. by rewrite <- Hs, <- Hh.
    + rewrite bool_decide_eq_true_2 by done. unfold bind at 1.
      destruct (on_redis (srem _ _) _) as [o2 w2] eqn:H2.
      apply on_redis_inv in H2 as (r2 & H2 & ->). cbn in H2.
      assert (Hdead : strings (redis w) !! key = None /\
                      hashes (redis w) !! key = None).
      { unfold holds_value in Hval. apply bool_decide_eq_false in Hval.
        split; apply eq_None_not_Some; tauto. }
      apply srem_effect in H2
        as [(e & -> & Hk2 & _)|(_ & Hs2 & Hh2 & Hex2 & Hm2 & Hother2 & ->)].
      { intros [= <- <-]. split; [by repeat split|]. cbn.
        split; [eapply index_shrinks_trans; [exact Hsh1|by apply same_keys_shrinks]|].
        intros k Hin Hout. exfalso. apply Hout.
        destruct Hk as (_ & _ & Hst & _), Hk2 as (_ & _ & Hst2 & _).
        unfold members in *. by rewrite Hst2, Hst. }
      fold INDEX in Hm2, Hother2.
      assert (Hsh2 : index_shrinks r1 r2).
      { unfold index_shrinks. split_and!; try done. rewrite Hm2. set_solver. }
      intros Hrest. apply IH in Hrest as (Hsame & Hsh & Hgone). cbn in *.
      split; [done|].
      split; [eapply index_shrinks_trans; [|exact Hsh];
              by eapply index_shrinks_trans|].
      intros k Hin Hout.
      destruct (decide (k = key)) as [->|Hne]; [split; [by left|done]|].
      destruct Hk as (Hs & Hh & Hst & Hex).
      destruct (Hgone k) as (Hk' & Hnos & Hnoh); try done.
      { rewrite Hm2. unfold members in *. rewrite Hst. set_solver. }
      split; [by right|]. by rewrite <- Hs, <- Hs2, <- Hh, <- Hh2.
Qed.

(** X17. The cleanup never drops the key of a record that is there.
    Whatever the server lists, answers or refuses,
    [cleanupExpiredCompensationFailures] calls no user code, leaves
    the job, the strings, the hashes, the expiries and every set but
    the index as they were, adds no key to the index, and takes out
    of it only keys under which there was neither a hash nor a
    string. *)
Theorem cleanup_keeps_living_records w :
  same_but_redis w (cleanupExpiredCompensationFailures order w).2 /\
  index_shrinks (redis w) (redis (cleanupExpiredCompensationFailures order w).2) /\
  (forall k,
     k ∈ members (redis w) INDEX ->
     k ∉ members (redis (cleanupExpiredCompensationFailures order w).2) INDEX ->
     strings (redis w) !! k = None /\ hashes (redis w) !! k = None).
Proof.
  unfold cleanupExpiredCompensationFailures, bind.
  destruct (on_redis (smembers order _) w) as [o1 w1] eqn:H1.
  apply on_redis_inv in H1 as (r1 & H1 & ->).
  apply smembers_effect in H1 as [(e & -> & Hk & _)|(-> & _ & Hk)].
  { cbn. split; [by repeat split|]. split; [by apply same_keys_shrinks|].
    intros k Hin Hout. exfalso. apply Hout.
    destruct Hk as (_ & _ & Hst & _). unfold members in *. by rewrite Hst. }
  destruct (cleanupLoop _ 0 (with_redis w r1)) as [out w'] eqn:Hloop.
  apply cleanupLoop_safe in Hloop as (Hsame & Hsh & Hgone). cbn in *.
  split; [done|].
  split; [eapply index_shrinks_trans; [by apply same_keys_shrinks|done]|].
  intros k Hin Hout. destruct Hk as (Hs & Hh & Hst & Hex).
  destruct (Hgone k) as (_ & Hnos & Hnoh); try done.
  { unfold members in *. by rewrite Hst. }
  by rewrite <- Hs, <- Hh.
Qed.

(** The keys of a list under which there is nothing. *)
Definition dead r (keys : list string) : list string :=
  filter (fun k => holds_value r k = false) keys.

Lemma dead_ext r r' keys :
  (forall k, k ∈ keys -> holds_value r' k = holds_value r k) ->
  dead r' keys = dead r keys.
Proof.
  unfold dead. induction keys as [|key rest IH]; intros Hext; [done|].
  rewrite !filter_cons, Hext by by left.
  rewrite IH; [done|]. intros k Hk. apply Hext. by right.
Qed.

Lemma holds_value_listed r r' k :
  strings r' = strings r -> hashes r' = hashes r ->
  (forall s, s ≠ INDEX -> sets r' !! s = sets r !! s) ->
  k ∈ members r INDEX -> k ∈ members r' INDEX ->
  holds_value r' k = holds_value r k.
Proof.
  intros Hs Hh Hother Hin Hin'. unfold holds_value. rewrite Hs, Hh.
  destruct (decide (k = INDEX)) as [->|Hne].
  - rewrite !bool_decide_eq_true_2; [done| |]; right; right; set_solver.
  - unfold members. by rewrite Hother.
Qed.

Lemma cleanupLoop_quiet failureKeys :
  forall cleanedCount w,
  quiet (faults (redis w)) ->
  NoDup failureKeys ->
  (forall k, k ∈ failureKeys -> k ∈ members (redis w) INDEX) ->
  exists w',
    cleanupLoop failureKeys cleanedCount w =
      (Return (cleanedCount + length (dead (redis w) failureKeys)), w') /\
    members (redis w') INDEX =
      members (redis w) INDEX ∖ list_to_set (dead (redis w) failureKeys) /\
    quiet (faults (redis w')).
Proof.
  induction failureKeys as [|key rest IH]; intros n w Hq Hnd Hin;
    cbn [cleanupLoop].
  - exists w. unfold dead. rewrite filter_nil. cbn.
    split; [by rewrite Nat.add_0_r|]. split; [set_solver|done].
  - apply NoDup_cons in Hnd as [Hfresh Hnd]. unfold bind at 1.
    destruct (on_redis (exists_ key) w) as [o1 w1] eqn:H1.
    apply on_redis_inv in H1 as (r1 & H1 & ->).
    apply exists_effect in H1 as [(e & Href)|(-> & Hsv & Hk)].
    { by destruct (refused_not_quiet _ _ _ _ Hq Href). }
    pose proof (served_quiet _ _ Hq Hsv) as Hq1.
    destruct Hk as (Hs & Hh & Hst & Hex).
    assert (Hm1 : members r1 INDEX = members (redis w) INDEX).
    { unfold members. by rewrite Hst. }
    unfold dead at 1 2. rewrite filter_cons. fold (dead (redis w) rest).
    destruct (holds_value (redis w) key) eqn:Hval.
    + rewrite bool_decide_eq_false_2 by done.
      rewrite decide_False by done.
      destruct (IH n (with_redis w r1)) as (w' & Hrun & Hm & Hq'); try done.
      { intros k Hk. cbn. rewrite Hm1. apply Hin. by right. }
      cbn in Hrun, Hm.
      assert (Hsame : dead r1 rest = dead (redis w) rest).
      { apply dead_ext. intros k Hk. apply holds_value_same. by repeat split. }
      rewrite Hsame, Hm1 in *. by exists w'.
    + rewrite bool_decide_eq_true_2 by done.
      rewrite decide_True by done. unfold bind at 1.
      destruct (on_redis (srem _ _) _) as [o2 w2] eqn:H2.
      apply on_redis_inv in H2 as (r2 & H2 & ->). cbn in H2.
      apply srem_effect in H2
        as [(e & Href)|(Hsv2 & Hs2 & Hh2 & Hex2 & Hm2 & Hother2 & ->)].
      { by destruct (refused_not_quiet _ _ _ _ Hq1 Href). }
      fold INDEX in Hm2, Hother2.
      pose proof (served_quiet _ _ Hq1 Hsv2) as Hq2.
      destruct (IH (S n) (with_redis (with_redis w r1) r2)) as (w' & Hrun & Hm & Hq');
        try done.
      { intros k Hk. cbn. rewrite Hm2, Hm1.
        apply elem_of_difference. split; [apply Hin; by right|].
        intros ->%elem_of_singleton. done. }
      cbn in Hrun, Hm.
      assert (Hsame : dead r2 rest = dead (redis w) rest).
      { apply dead_ext. intros k Hk. apply holds_value_listed.
        - congruence.
        - congruence.
        - intros s Hne. by rewrite Hother2, Hst.
        - apply Hin. by right.
        - rewrite Hm2, Hm1. apply elem_of_difference.
          split; [apply Hin; by right|]. intros ->%elem_of_singleton. done. }
      rewrite Hsame, Hm2, Hm1 in *. exists w'. cbn [length].
      split; [rewrite Hrun; do 2 f_equal; lia|]. split; [|done].
      rewrite Hm. set_solver.
Qed.

(** X18. The cleanup on a server that refuses no command and lists
    each member of the index once. The keys left in the index are
    the keys that were in it and under which there is a value; the
    number returned is the number of keys taken out; every key left
    in the index still exists when the call returns. *)
Theorem cleanup_quiet w :
  (forall X, order X ≡ₚ elements X) ->
  quiet (faults (redis w)) ->
  exists n w',
    cleanupExpiredCompensationFailures order w = (Return n, w') /\
    (forall k, k ∈ members (redis w') INDEX <->
               k ∈ members (redis w) INDEX /\ holds_value (redis w) k = true) /\
    n + size (members (redis w') INDEX) = size (members (redis w) INDEX) /\
    (forall k, k ∈ members (redis w') INDEX -> holds_value (redis w') k = true).
Proof.
  intros Horder Hq.
  destruct (cleanupExpiredCompensationFailures order w) as [out w'] eqn:Hrun.
  revert Hrun.
  unfold cleanupExpiredCompensationFailures, bind.
  destruct (on_redis (smembers order _) w) as [o1 w1] eqn:H1.
  apply on_redis_inv in H1 as (r1 & H1 & ->).
  apply smembers_effect in H1 as [(e & Href)|(-> & Hsv & Hk)].
  { by destruct (refused_not_quiet _ _ _ _ Hq Href). }
  fold INDEX. pose proof (served_quiet _ _ Hq Hsv) as Hq1.
  destruct Hk as (Hs & Hh & Hst & Hex).
  assert (Hm1 : members r1 INDEX = members (redis w) INDEX).
  { unfold members. by rewrite Hst. }
  set (keys := order (members (redis w) INDEX)).
  assert (Hkeys : forall k, k ∈ keys <-> k ∈ members (redis w) INDEX).
  { intros k. unfold keys. rewrite (Horder _). apply elem_of_elements. }
  assert (Hnd : NoDup keys).
  { unfold keys. rewrite (Horder _). apply NoDup_elements. }
  destruct (cleanupLoop_quiet keys 0 (with_redis w r1)) as (w2 & Hloop & Hm & Hq2);
    try done.
  { intros k Hk. cbn. rewrite Hm1. by apply Hkeys. }
  assert (Hsh : index_shrinks (redis w) (redis w2)).
  { pose proof Hloop as Hsafe.
    apply cleanupLoop_safe in Hsafe as (_ & Hsh & _). cbn in Hsh.
    eapply index_shrinks_trans; [|exact Hsh].
    apply same_keys_shrinks. by repeat split. }
  cbn in Hloop, Hm. rewrite Hloop. intros [= <- <-].
  assert (Hsame : dead r1 keys = dead (redis w) keys).
  { apply dead_ext. intros k Hk. apply holds_value_same. by repeat split. }
  rewrite Hsame, Hm1 in Hm. rewrite Hsame.
  assert (Hleft : forall k, k ∈ members (redis w2) INDEX <->
                    k ∈ members (redis w) INDEX /\ holds_value (redis w) k = true).
  { intros k. rewrite Hm, elem_of_difference, elem_of_list_to_set.
    unfold dead. rewrite list_elem_of_filter, Hkeys.
    destruct (holds_value (redis w) k); naive_solver. }
  eexists _, w2. split; [done|]. split; [done|]. split.
  - rewrite Hm, size_difference.
    + rewrite size_list_to_set by (unfold dead; by apply NoDup_filter).
      assert (length (dead (redis w) keys) <= size (members (redis w) INDEX)).
      { rewrite <- (size_list_to_set (C:=gset string) (dead (redis w) keys))
          by (unfold dead; by apply NoDup_filter).
        apply subseteq_size. intros k Hk. apply elem_of_list_to_set in Hk.
        unfold dead in Hk. apply list_elem_of_filter in Hk as [_ Hk].
        by apply Hkeys. }
      lia.
    + intros k Hk. apply elem_of_list_to_set in Hk.
      unfold dead in Hk. apply list_elem_of_filter in Hk as [_ Hk].
      by apply Hkeys.
  - intros k Hk. pose proof Hk as Hk'. apply Hleft in Hk' as [Hin Hval].
    destruct Hsh as (Hs' & Hh' & _ & Hother & _).
    rewrite <- Hval. by apply holds_value_listed.
Qed.

End Facts.

(** Two keys in the index; the record of the second has expired. *)
Definition stale_index : World Z (list string) :=
  mkWorld
    (Redis.mk ∅
       {[ "compensation_failure:1:B" := CompensationFailureHash RetryFacts.record_B ]}
       {[ INDEX := {[ "compensation_failure:1:B"; "compensation_failure:2:A" ]} ]}
       {[ "compensation_failure:1:B" := 604800%Z ]} [])
    (job idle_world) [] [] [].

Lemma cleanup_quiet_witness :
  (forall X : gset string, elements X ≡ₚ elements X) /\
  quiet (faults (redis stale_index)) /\
  exists n w',
    cleanupExpiredCompensationFailures elements stale_index = (Return n, w') /\
    n + size (members (redis w') INDEX) = 2 /\
    ("compensation_failure:1:B" ∈ members (redis w') INDEX) /\
    ("compensation_failure:2:A" ∉ members (redis w') INDEX).
Proof.
  assert (Horder : forall X : gset string, elements X ≡ₚ elements X) by done.
  assert (Hq : quiet (faults (redis stale_index))) by reflexivity.
  split; [exact Horder|]. split; [exact Hq|].
  destruct (cleanup_quiet (V:=Z) (W:=list string) elements stale_index Horder Hq)
    as (n & w' & Hrun & Hleft & Hsize & _).
  assert (Hlisted : members (redis stale_index) INDEX =
                    {[ "compensation_failure:1:B"; "compensation_failure:2:A" ]}).
  { unfold members, stale_index. cbn [redis sets]. unfold INDEX.
    by rewrite lookup_singleton_eq. }
  exists n, w'. split; [exact Hrun|]. split.
  - rewrite Hsize, Hlisted. vm_compute. reflexivity.
  - split.
    + apply Hleft. rewrite Hlisted. split; [set_solver|]. vm_compute. reflexivity.
    + intros Hin. apply Hleft in Hin as [_ Hval]. vm_compute in Hval. discriminate.
Defined.

End CleanupFacts.


(** ** Counting the failed compensations *)

Module StatsFacts.
Import Redis RedisFacts KeyspaceFacts CompensationService CompensationFacts.
Import FailureRecords.

Section Facts.
Context {V W : Type}.
Variable order : gset string -> list string.
Variable string_lt : string -> string -> bool.
Implicit Types (w : World V W) (r : Redis.t (Hash V)).

(** Under [key] there is a record marked retryable. *)
Definition marked_retryable (records : gmap string (Hash V)) (key : string)
    : Prop :=
  field_retryable (records !! key) = Some "true".

#[global] Instance marked_retryable_dec records key :
  Decision (marked_retryable records key).
Proof. unfold marked_retryable. apply _. Defined.

Lemma statsLoop_quiet failureKeys :
  forall retryableCount oldestFailure w,
  quiet (faults (redis w)) ->
  exists oldest w',
    statsLoop string_lt failureKeys retryableCount oldestFailure w =
      (Return (retryableCount +
               length (filter (marked_retryable (hashes (redis w))) failureKeys),
               oldest), w') /\
    same_but_redis w w' /\ same_keys (redis w) (redis w') /\
    quiet (faults (redis w')) /\
    (oldest = oldestFailure \/
     exists k, k ∈ failureKeys /\ oldest = field_failedAt (hashes (redis w) !! k)).
Proof.
  induction failureKeys as [|key rest IH]; intros n oldest w Hq;
    cbn [statsLoop].
  - exists oldest, w. rewrite filter_nil. cbn. rewrite Nat.add_0_r.
    split; [done|]. split; [by repeat split|]. split; [by repeat split|].
    split; [done|]. by left.
  - unfold bind at 1.
    destruct (on_redis (hgetall key) w) as [o1 w1] eqn:H1.
    apply on_redis_inv in H1 as (r1 & H1 & ->).
    apply hgetall_effect in H1 as [(e & Href)|(-> & Hsv & Hk)].
    { by destruct (refused_not_quiet _ _ _ _ Hq Href). }
    pose proof (served_quiet _ _ Hq Hsv) as Hq1.
    match goal with
    | |- context [statsLoop _ rest ?n' ?o' _] =>
        destruct (IH n' o' (with_redis w r1) Hq1)
          as (oldest' & w' & Hrun & Hsame & Hkeys & Hq' & Hold)
    end.
    exists oldest', w'. rewrite Hrun. cbn in *.
    assert (Hfilter : filter (marked_retryable (hashes r1)) rest =
                      filter (marked_retryable (hashes (redis w))) rest).
    { destruct Hk as (_ & -> & _). done. }
    rewrite Hfilter.
    split_and!; try done.
    + match goal with
      | |- (Return (?a, _), _) = (Return (?b, _), _) =>
          assert (Hcount : a = b); [|by rewrite Hcount]
      end.
      case_bool_decide as Hb; destruct (decide _) as [Hd|Hd];
        unfold marked_retryable in Hd; cbn [length];
        first [contradiction | by rewrite ?Nat.add_succ_r].
    + by eapply same_keys_trans.
    + destruct Hk as (_ & Hh & _). rewrite Hh in Hold.
      destruct Hold as [->|(k & Hin & ->)].
      * destruct (negb _ || _); [right; exists key; split; [by left|done]|by left].
      * right. exists k. split; [by right|done].
Qed.

(** X19. The statistics on a server that refuses no command and
    lists each member of the index once. [total] is the number of
    keys in the index, [retryable] the number of those under which
    there is a record marked retryable, and [nonRetryable] the rest,
    so a key whose record has expired counts as non-retryable;
    [oldestFailure] is undefined or the [failedAt] read under a key
    of the index. Nothing is written. *)
Theorem getCompensationFailureStats_counts w :
  (forall X, order X ≡ₚ elements X) ->
  quiet (faults (redis w)) ->
  exists stats w',
    getCompensationFailureStats order string_lt w = (Return stats, w') /\
    same_but_redis w w' /\ same_keys (redis w) (redis w') /\
    total stats = size (members (redis w) INDEX) /\
    retryable stats =
      length (filter (marked_retryable (hashes (redis w)))
                     (elements (members (redis w) INDEX))) /\
    (Z.of_nat (retryable stats) + nonRetryable stats = Z.of_nat (total stats))%Z /\
    (0 <= nonRetryable stats)%Z /\
    (oldestFailure stats = None \/
     exists k, k ∈ members (redis w) INDEX /\
               oldestFailure stats = field_failedAt (hashes (redis w) !! k)).
Proof.
  intros Horder Hq. unfold getCompensationFailureStats, bind at 1.
  destruct (on_redis (smembers order _) w) as [o1 w1] eqn:H1.
  apply on_redis_inv in H1 as (r1 & H1 & ->).
  apply smembers_effect in H1 as [(e & Href)|(-> & Hsv & Hk)].
  { by destruct (refused_not_quiet _ _ _ _ Hq Href). }
  fold INDEX. pose proof (served_quiet _ _ Hq Hsv) as Hq1.
  set (keys := order (members (redis w) INDEX)).
  destruct (statsLoop_quiet keys 0 None (with_redis w r1) Hq1)
    as (oldest & w' & Hrun & Hsame & Hkeys & Hq' & Hold).
  unfold bind. rewrite Hrun. cbn in *.
  assert (Hfilter : filter (marked_retryable (hashes r1)) keys =
                    filter (marked_retryable (hashes (redis w))) keys).
  { destruct Hk as (_ & -> & _). done. }
  rewrite Hfilter in *.
  assert (Hlen : length keys = size (members (redis w) INDEX)).
  { unfold keys. by rewrite (Horder _). }
  assert (Hcount : length (filter (marked_retryable (hashes (redis w))) keys) =
                   length (filter (marked_retryable (hashes (redis w)))
                                  (elements (members (redis w) INDEX)))).
  { unfold keys. by rewrite (Horder _). }
  assert (Hle : length (filter (marked_retryable (hashes (redis w))) keys) <= length keys)
    by apply length_filter.
  eexists _, w'. split; [reflexivity|]. cbn.
  split_and!; try done; try lia.
  - by eapply same_keys_trans.
  - destruct Hold as [->|(k & Hin & ->)]; [by left|].
    right. exists k. destruct Hk as (_ & Hh & _). rewrite Hh.
    split; [|done]. unfold keys in Hin. rewrite (Horder _) in Hin.
    by apply elem_of_elements.
Qed.

End Facts.

Lemma getCompensationFailureStats_counts_witness :
  (forall X : gset string, elements X ≡ₚ elements X) /\
  quiet (faults (redis CleanupFacts.stale_index)) /\
  exists stats w',
    getCompensationFailureStats elements String.ltb CleanupFacts.stale_index
      = (Return stats, w') /\
    total stats = 2 /\ retryable stats = 1 /\ nonRetryable stats = 1%Z.
Proof.
  assert (Horder : forall X : gset string, elements X ≡ₚ elements X) by done.
  assert (Hq : quiet (faults (redis CleanupFacts.stale_index))) by reflexivity.
  split; [exact Horder|]. split; [exact Hq|].
  destruct (getCompensationFailureStats_counts (V:=Z) (W:=list string)
              elements String.ltb CleanupFacts.stale_index Horder Hq)
    as (stats & w' & Hrun & _ & _ & Htotal & Hretry & Hsum & _).
  assert (Hlisted : members (redis CleanupFacts.stale_index) INDEX =
                    {[ "compensation_failure:1:B"; "compensation_failure:2:A" ]}).
  { unfold members, CleanupFacts.stale_index. cbn [redis sets]. unfold INDEX.
    by rewrite lookup_singleton_eq. }
  assert (Ht : total stats = 2).
  { rewrite Htotal, Hlisted. vm_compute. reflexivity. }
  assert (Hr : retryable stats = 1).
  { rewrite Hretry. vm_compute. reflexivity. }
  exists stats, w'. split; [exact Hrun|]. split; [exact Ht|]. split; [exact Hr|].
  rewrite Ht, Hr in Hsum. lia.
Defined.

End StatsFacts.

(** ** The trail and the quarantine record *)

Module TrailFacts.
Import Redis RedisFacts CompensationService CompensationFacts.
Import SimpleTransactionConsumer ConsumerFacts.

Section Trail.
Context {V W : Type}.
Variable stepRegistry : StepRegistry.t V W.

(** The entry the first loop of [process] makes for a step: none for
    a step that is not completed, and none for a completed step whose
    name is not registered. *)
Definition restored (step : JobStepData V) : option (ExecutionResult V W) :=
  if decide (step_status step = completed)
  then sf ← StepRegistry.get (step_name step) stepRegistry;
       Some (mkExecutionResult (step_name step) (step_result step) (Some sf))
  else None.

Lemma rebuildTrail_from (steps : list (JobStepData V)) (count : nat) :
  forall (from : nat) (trail : list (ExecutionResult V W)),
  rebuildTrail stepRegistry steps count from trail =
  if decide (count = 0 \/ from + count <= length steps)
  then Return (trail ++ omap restored (take count (drop from steps)))
  else Throw (TypeError_reading "status").
Proof.
  induction count as [|count IH]; intros from trail; cbn [rebuildTrail].
  - rewrite decide_True by by left. by rewrite take_0, app_nil_r.
  - destruct (steps !! from) as [step|] eqn:Hstep.
    + rewrite IH. pose proof (lookup_lt_Some _ _ _ Hstep) as Hlt.
      erewrite (drop_S _ _ from) by done. cbn [take].
      destruct (decide (count = 0 \/ S from + count <= length steps)) as [Hd|Hd];
        destruct (decide (S count = 0 \/ from + S count <= length steps))
          as [Hd'|Hd'].
      * f_equal. cbn [omap list_omap]. unfold restored at 2.
        unfold StepRegistry.get.
        destruct (decide (step_status step = completed)); cbn; [|done].
        destruct (stepRegistry !! step_name step); cbn; [|done].
        by rewrite <- app_assoc.
      * exfalso. apply Hd'. right. destruct Hd as [->|?]; lia.
      * exfalso. apply Hd. right. destruct Hd' as [?|?]; lia.
      * done.
    + apply lookup_ge_None in Hstep.
      rewrite decide_False; [done|]. intros [?|?]; [done|lia].
Qed.

(** Within the steps, the first loop returns. *)
Lemma rebuildTrail_within (steps : list (JobStepData V)) (currentStepIndex : nat) :
  currentStepIndex <= length steps ->
  rebuildTrail stepRegistry steps currentStepIndex 0 [] =
  Return (omap restored (take currentStepIndex steps)).
Proof.
  intros Hle. rewrite rebuildTrail_from, drop_0. cbn [app].
  by rewrite decide_True by by right.
Qed.

(** X20. The trail an invocation starts from. The first loop of
    [process] throws a TypeError when [currentStepIndex] is beyond
    the steps; otherwise it returns, in the order of the steps, one
    entry for each step below [currentStepIndex] that is completed
    and whose name is registered, with the stored result and the
    registered function. A completed step whose name is no longer
    registered is left out: a later failure does not compensate
    it. *)
Theorem rebuildTrail_spec (steps : list (JobStepData V)) (currentStepIndex : nat) :
  rebuildTrail stepRegistry steps currentStepIndex 0 [] =
  if decide (currentStepIndex <= length steps)
  then Return (omap restored (take currentStepIndex steps))
  else Throw (TypeError_reading "status").
Proof.
  rewrite rebuildTrail_from, drop_0. cbn [app].
  destruct (decide (currentStepIndex <= length steps)) as [Hle|Hgt].
  - by rewrite decide_True by by right.
  - rewrite decide_False; [done|]. intros [->|?]; lia.
Qed.

End Trail.

Section Record.
Context {V : Type}.




End Record.
End TrailFacts.

(** ** One invocation of the consumer, the server refusing nothing *)

Module ProcessFacts.
Import Redis RedisFacts KeyspaceFacts LockFacts LockCycle.
Import CompensationService CompensationFacts.
Import SimpleTransactionConsumer ConsumerFacts.

Section Facts.
Context {V W : Type}.
Variable JSON_stringify : any V -> string.
Variable percent : nat -> nat -> Z.
Variable stepRegistry : StepRegistry.t V W.
Implicit Types (w : World V W) (d : JobData V).

(** The handler of a failed step always throws. *)
Lemma step_handler_throws env (i : nat) (trail : list (ExecutionResult V W))
    (stepError : Error) w out w' :
  (updateJobStepStatus i failed undefined ;;;
   (fun w => executeCompensation JSON_stringify env (rev trail) (job w) w) ;;;
   @throw V W (ExecutionResult V W) stepError) w = (out, w') ->
  exists e, out = Throw e.
Proof.
  unfold bind, throw.
  destruct (updateJobStepStatus i failed undefined w) as [[[]|e1] w1].
  - destruct (executeCompensation _ _ _ _ w1) as [[[]|e2] w2];
      intros [= <- <-]; by eexists.
  - intros [= <- <-]. by eexists.
Qed.

(** A run of the second loop that completes every step sends no
    command to the server. *)
Lemma executeSteps_success env (steps0 : list (JobStepData V)) (count : nat) :
  forall (i : nat) (trail : list (ExecutionResult V W)) w trail' w',
  length (steps (data (job w))) = length steps0 ->
  i + count <= length steps0 ->
  executeSteps JSON_stringify percent stepRegistry env steps0 count i trail w
    = (Return trail', w') ->
  redis w' = redis w.
Proof.
  induction count as [|count IH]; intros i trail w trail' w' Hlen Hbound;
    cbn [executeSteps].
  - by intros [= <- <-].
  - destruct (lookup_lt_is_Some_2 steps0 i ltac:(lia)) as [s0 Hs0].
    rewrite Hs0. unfold bind at 1.
    destruct (try_catch _ _ w) as [[entry|e] w1] eqn:Hround; [|done].
    assert (Hredis : redis w1 = redis w).
    { revert Hround. unfold try_catch.
      destruct (runStep _ _ _ _ _ w) as [[entry'|e] w2] eqn:Hrun.
      - intros [= <- <-]. apply runStep_cases in Hrun as (? & _); [done|lia].
      - intros Hhandler. apply step_handler_throws in Hhandler as (e' & [=]). }
    apply round_cases in Hround as (_ & _ & _ & _ & d1 & Hd1 & Hout); [|lia].
    destruct Hout as (sf & res & d2 & _ & _ & _ & Hd2 & _ & _ & Hdata).
    intros Hrest. apply IH in Hrest; [congruence| |lia].
    rewrite Hdata. destruct Hd2 as (-> & _), Hd1 as (-> & _). done.
Qed.

(** [addToDLQ] on a server that refuses no command. *)
Lemma addToDLQ_quiet env (record : DLQJobData V) w :
  quiet (faults (redis w)) ->
  exists w',
    DLQService.addToDLQ env record w = (Return (dlqId env), w') /\
    same_but_redis w w' /\ quiet (faults (redis w')) /\
    strings (redis w') = strings (redis w) /\
    expiry (redis w') = expiry (redis w) /\
    hashes (redis w') =
      <[dlqKey env := DLQHash (dlqId env) record]> (hashes (redis w)) /\
    (dlqId env ∈ members (redis w') "dlq:job_ids") /\
    (priority record = high ->
       dlqId env ∈ members (redis w') "dlq:high_priority") /\
    (priority record = normal ->
       members (redis w') "dlq:high_priority" =
       members (redis w) "dlq:high_priority").
Proof.
  intros Hq. unfold DLQService.addToDLQ, bind, ret.
  fold (dlqId env). fold (dlqKey env).
  destruct (on_redis (hset _ _) w) as [o1 w1] eqn:H1.
  apply on_redis_inv in H1 as (r1 & H1 & ->).
  apply hset_effect in H1
    as [(e & Href)|(-> & Hsv1 & Hs1 & Hh1 & Hst1 & Hex1)].
  { by destruct (refused_not_quiet _ _ _ _ Hq Href). }
  pose proof (served_quiet _ _ Hq Hsv1) as Hq1.
  destruct (on_redis (sadd _ _) _) as [o2 w2] eqn:H2.
  apply on_redis_inv in H2 as (r2 & H2 & ->). cbn in H2.
  apply sadd_effect in H2
    as [(e & Href)|(-> & Hsv2 & Hs2 & Hh2 & Hst2 & Hex2)].
  { by destruct (refused_not_quiet _ _ _ _ Hq1 Href). }
  pose proof (served_quiet _ _ Hq1 Hsv2) as Hq2.
  assert (Hids : dlqId env ∈ members r2 "dlq:job_ids").
  { unfold members at 1. rewrite Hst2, lookup_insert_eq. cbn. set_solver. }
  case_decide as Hprio.
  - destruct (on_redis (sadd _ _) _) as [o3 w3] eqn:H3.
    apply on_redis_inv in H3 as (r3 & H3 & ->). cbn in H3.
    apply sadd_effect in H3
      as [(e & Href)|(-> & Hsv3 & Hs3 & Hh3 & Hst3 & Hex3)].
    { by destruct (refused_not_quiet _ _ _ _ Hq2 Href). }
    pose proof (served_quiet _ _ Hq2 Hsv3) as Hq3.
    eexists. split; [reflexivity|]. cbn.
    split; [by repeat split|]. split; [done|].
    split; [congruence|]. split; [congruence|]. split; [congruence|].
    split_and!.
    + unfold members. rewrite Hst3, lookup_insert_ne by done. exact Hids.
    + intros _. unfold members at 1. rewrite Hst3, lookup_insert_eq. cbn.
      set_solver.
    + intros Hn. congruence.
  - eexists. split; [reflexivity|]. cbn.
    split; [by repeat split|]. split; [done|].
    split; [congruence|]. split; [congruence|]. split; [congruence|].
    split_and!; try done.
    intros _. unfold members. rewrite Hst2, lookup_insert_ne by done.
    by rewrite Hst1.
Qed.

(** The record of a failure is filed: under its key, with its id in
    the index of the active records and, when it can be retried, in
    the index of the high priority. *)
Definition filed (env : Env) (record : DLQJobData V)
    (r : Redis.t (Hash V)) : Prop :=
  hashes r !! dlqKey env = Some (DLQHash (dlqId env) record) /\
  (dlqId env ∈ members r "dlq:job_ids") /\
  (canRetry record = true -> dlqId env ∈ members r "dlq:high_priority").

(** The [catch] block of [process] on a server that refuses no
    command. *)
Lemma catch_quiet env (error : Error) w :
  quiet (faults (redis w)) ->
  exists w',
    (handleDeadLetterQueue env error ;;;
     @throw V W (ProcessResult V W) error) w = (Throw error, w') /\
    same_but_redis w w' /\ quiet (faults (redis w')) /\
    strings (redis w') = strings (redis w) /\
    filed env (dlqData env (job w) error) (redis w').
Proof.
  intros Hq. unfold bind, throw, handleDeadLetterQueue, try_catch, ret.
  destruct (addToDLQ_quiet env (dlqData env (job w) error) w Hq)
    as (w' & Hadd & Hsame & Hq' & Hs & _ & Hh & Hids & Hhigh & _).
  unfold bind, ret. rewrite Hadd. exists w'. split; [done|].
  split; [done|]. split; [done|]. split; [done|].
  unfold filed. rewrite Hh, lookup_insert_eq. split; [done|]. split; [done|].
  intros Hcan. apply Hhigh. cbn in *. by rewrite Hcan.
Qed.

(** [process] on a server that refuses no command. *)
Lemma process_quiet env w out w' :
  quiet (faults (redis w)) ->
  process JSON_stringify percent stepRegistry env w = (out, w') ->
  strings (redis w') = strings (redis w) /\
  quiet (faults (redis w')) /\
  job_id (job w') = job_id (job w) /\
  match out with
  | Return pr =>
      success pr = true /\
      executedSteps pr = length (steps (data (job w))) /\
      pr_duration pr = duration env /\
      progress (job w') = 100%Z /\
      same_keys (redis w) (redis w') /\
      trace w' = trace w ++
        map EvExecute
            (map step_name
                 (drop (currentStepIndex (data (job w))) (steps (data (job w))))) /\
      (forall j, currentStepIndex (data (job w)) <= j < length (steps (data (job w))) ->
         exists s, steps (data (job w')) !! j = Some s /\
                   step_status s = completed)
  | Throw e => filed env (dlqData env (job w') e) (redis w')
  end.
Proof.
  intros Hq. unfold process.
  set (d := data (job w)).
  set (resources := finalResourceIdentifiers (userId d) (resourceIdentifiers d)).
  unfold on_redis at 1.
  destruct (DistributedLockService.acquireLock resources (job_id (job w))
              LOCK_TTL (redis w)) as [oa r1] eqn:Hacq.
  destruct (acquireLock_quiet _ _ _ _ _ _ Hq Hacq)
    as (Hq1 & Hh1 & Hst1 & Hex1 &
        [(-> & _ & Hfree & Hs1)|(-> & Hs1 & _)]).
  2: { unfold try_finally, try_catch, transaction. cbn [negb]. unfold throw at 1.
       destruct (catch_quiet env (new_Error (busyMessage resources))
                   (with_redis w r1) Hq1)
         as (w2 & Hcatch & (Hj & _) & Hq2 & Hs2 & Hfiled).
       rewrite Hcatch. unfold ret. intros [= <- <-]. cbn in *.
       rewrite Hj. split_and!; try done. congruence. }
  unfold try_finally, try_catch, transaction. cbn [negb].
  assert (Hrelease : forall w3,
    strings (redis w3) = strings r1 -> quiet (faults (redis w3)) ->
    exists w4,
      on_redis (DistributedLockService.releaseLock resources (job_id (job w))) w3
        = (Return tt, w4) /\
      same_but_redis w3 w4 /\ strings (redis w4) = strings (redis w) /\
      hashes (redis w4) = hashes (redis w3) /\ sets (redis w4) = sets (redis w3) /\
      expiry (redis w4) = expiry (redis w3) /\ quiet (faults (redis w4))).
  { intros w3 Hs3 Hq3. unfold on_redis, DistributedLockService.releaseLock.
    destruct (releaseLockInternal_quiet
                (DistributedLockService.generateResourceLockKeys resources)
                (job_id (job w)) (redis w3) Hq3)
      as (r4 & -> & Hs4 & Hh4 & Hst4 & Hex4 & Hq4).
    eexists. split; [reflexivity|]. cbn. split; [by repeat split|].
    split_and!; try done.
    rewrite Hs4, Hs3, Hs1. by apply release_set_all. }
  unfold bind at 1.
  destruct (rebuildTrail stepRegistry (steps d) (currentStepIndex d) 0 [])
    as [trail|e] eqn:Hrebuild.
  2: { destruct (catch_quiet env e (with_redis w r1) Hq1)
         as (w2 & Hcatch & (Hj & _) & Hq2 & Hs2 & Hfiled).
       rewrite Hcatch.
       destruct (Hrelease w2 Hs2 Hq2)
         as (w4 & -> & (Hj4 & _) & Hs4 & Hh4 & Hst4 & Hex4 & Hq4).
       intros [= <- <-]. cbn in *. rewrite Hj4, Hj.
       split_and!; try done.
       destruct Hfiled as (Hf1 & Hf2 & Hf3). unfold filed, members in *.
       by rewrite Hh4, Hst4. }
  assert (Hle : currentStepIndex d <= length (steps d)).
  { destruct (decide (currentStepIndex d <= length (steps d))) as [|Hgt]; [done|].
    exfalso. revert Hrebuild. apply rebuildTrail_in_range. lia. }
  unfold bind at 1.
  destruct (executeSteps _ _ _ _ _ _ _ _ (with_redis w r1)) as [[results|e] w2] eqn:Hloop.
  - assert (Hredis : redis w2 = redis (with_redis w r1)).
    { eapply executeSteps_success; [| |exact Hloop]; [done|lia]. }
    apply executeSteps_trace in Hloop; [|done|lia].
    destruct Hloop as (Hs2 & _ & Hf2 & Hid2 & _ & _ & done & Hnames & _ & Hstored
                       & _ & Hcount & Htrace).
    unfold bind, updateProgress, ret.
    match goal with
    | |- context [on_redis _ ?w3] =>
        destruct (Hrelease w3)
          as (w4 & -> & (Hj4 & _ & _ & Ht4) & Hs4 & Hh4 & Hst4 & Hex4 & Hq4)
    end.
    { cbn. by rewrite Hs2. }
    { cbn. unfold quiet in *. cbn in Hf2. lia. }
    intros [= <- <-]. cbn in *. rewrite Hj4. cbn.
    split_and!; try done.
    + unfold same_keys. rewrite Hs4, Hh4, Hst4, Hex4, Hredis. cbn.
      by split_and!.
    + rewrite Ht4. cbn. rewrite Htrace, Hnames, Hcount.
      rewrite take_ge; [done|]. rewrite length_drop. lia.
    + intros j Hj.
      destruct (lookup_lt_is_Some_2 done (j - currentStepIndex d)) as [entry Hentry];
        [lia|].
      destruct (Hstored _ _ Hentry) as (s & Hs & Hst & _).
      exists s. split; [|done].
      by replace (currentStepIndex d + (j - currentStepIndex d)) with j in Hs by lia.
  - apply executeSteps_trace in Hloop; [|done|lia].
    destruct Hloop as (Hs2 & _ & Hf2 & Hid2 & _).
    assert (Hq2 : quiet (faults (redis w2))).
    { unfold quiet in *. cbn in Hf2. lia. }
    destruct (catch_quiet env e w2 Hq2)
      as (w3 & Hcatch & (Hj & _) & Hq3 & Hs3 & Hfiled).
    rewrite Hcatch.
    destruct (Hrelease w3) as (w4 & -> & (Hj4 & _) & Hs4 & Hh4 & Hst4 & Hex4 & Hq4);
      [by rewrite Hs3, Hs2|done|].
    intros [= <- <-]. cbn in *. rewrite Hj4, Hj.
    split_and!; try done.
    destruct Hfiled as (Hf1 & Hf3 & Hf4). unfold filed, members in *.
    by rewrite Hh4, Hst4.
Qed.

(** X22. No lock is left behind. When the server refuses no command,
    whatever the steps and their compensate actions do (the saga
    completes, a step fails, the trail cannot be rebuilt, or the lock
    is busy), the string keys of the server, lock keys and
    idempotency bindings, are after [process] exactly what they were
    before: every lock key the invocation set is released, and no
    key of another job is touched. *)
Theorem process_leaves_no_lock env w :
  quiet (faults (redis w)) ->
  strings (redis (process JSON_stringify percent stepRegistry env w).2) =
    strings (redis w) /\
  job_id (job (process JSON_stringify percent stepRegistry env w).2) =
    job_id (job w).
Proof.
  intros Hq.
  destruct (process JSON_stringify percent stepRegistry env w) as [out w'] eqn:Hrun.
  by destruct (process_quiet env w out w' Hq Hrun) as (? & _ & ? & _).
Qed.

(** X23. A completed saga. When [process] returns (the server refusing
    no command), the result reports success with [executedSteps] the
    number of all the steps of the job, those completed by earlier
    invocations included; the execute action of each step from
    [currentStepIndex] on was called once, in order, and no other
    user code; each of those steps is completed in the payload; the
    progress is 100; and the keyspace is as it was: no quarantine
    record, no record of a failed compensation. *)
Theorem process_success env w pr w' :
  quiet (faults (redis w)) ->
  process JSON_stringify percent stepRegistry env w = (Return pr, w') ->
  success pr = true /\
  executedSteps pr = length (steps (data (job w))) /\
  progress (job w') = 100%Z /\
  trace w' = trace w ++
    map EvExecute
        (map step_name
             (drop (currentStepIndex (data (job w))) (steps (data (job w))))) /\
  (forall j, currentStepIndex (data (job w)) <= j < length (steps (data (job w))) ->
     exists s, steps (data (job w')) !! j = Some s /\ step_status s = completed) /\
  strings (redis w') = strings (redis w) /\
  hashes (redis w') = hashes (redis w) /\
  sets (redis w') = sets (redis w).
Proof.
  intros Hq Hrun.
  destruct (process_quiet env w _ w' Hq Hrun)
    as (_ & _ & _ & ? & ? & _ & ? & (? & ? & ? & _) & ? & ?).
  by split_and!.
Qed.


End Facts.

Lemma process_leaves_no_lock_witness :
  quiet (faults (redis world_abc)) /\
  strings (redis (process (fun _ => "") percent_of registry_abc no_env world_abc).2)
    = strings (redis world_abc).
Proof.
  assert (Hq : quiet (faults (redis world_abc))) by reflexivity.
  split; [exact Hq|].
  exact (proj1 (process_leaves_no_lock (fun _ => "") percent_of registry_abc
                  no_env world_abc Hq)).
Defined.

Lemma process_success_witness :
  quiet (faults (redis world_ab)) /\
  exists pr w',
    process (fun _ => "") percent_of registry_abc no_env world_ab = (Return pr, w') /\
    success pr = true /\ executedSteps pr = 2 /\ progress (job w') = 100%Z /\
    trace w' = [EvExecute "A"; EvExecute "B"] /\
    hashes (redis w') = ∅.
Proof.
  assert (Hq : quiet (faults (redis world_ab))) by reflexivity.
  split; [exact Hq|].
  destruct (process (fun _ => "") percent_of registry_abc no_env world_ab)
    as [o w'] eqn:Hrun.
  assert (Ho : exists pr, o = Return pr).
  { pose proof (f_equal fst Hrun) as Hfst. cbn in Hfst. rewrite <- Hfst.
    vm_compute. by eexists. }
  destruct Ho as [pr ->].
  destruct (process_success (fun _ => "") percent_of registry_abc no_env world_ab
              pr w' Hq Hrun)
    as (Hok & Hn & Hp & Ht & _ & _ & Hh & _).
  exists pr, w'. split; [reflexivity|]. split; [exact Hok|]. split; [exact Hn|].
  split; [exact Hp|]. split; [exact Ht|exact Hh].
Defined.


End ProcessFacts.

(** ** The step that failed *)

Module FailurePoint.
Import Redis RedisFacts KeyspaceFacts LockFacts LockCycle.
Import CompensationService CompensationFacts.
Import SimpleTransactionConsumer ConsumerFacts TrailFacts ProcessFacts.

Section Facts.
Context {V W : Type}.
Variable JSON_stringify : any V -> string.
Variable percent : nat -> nat -> Z.
Variable stepRegistry : StepRegistry.t V W.
Implicit Types (w : World V W) (d : JobData V).










End Facts.


End FailurePoint.

(** ** Two invocations at once, further *)

Module ScheduleFacts.
Import Redis RedisFacts LockFacts.
Import DistributedLockService SimpleTransactionConsumer Interleaving.
Import InterleavingFacts.

Implicit Types (inv other : Invocation) (m start : gmap string (string * Z)).

(** *** Nothing is left in the store *)

(** The store differs from the initial one only under keys that the
    two invocations own, and those were free at the start. *)
Definition residue start inv other m : Prop :=
  (forall k, k ∉ owned inv -> k ∉ owned other -> m !! k = start !! k) /\
  (forall k, k ∈ owned inv \/ k ∈ owned other -> start !! k = None).

Lemma residue_sym start inv other m : residue start inv other m -> residue start other inv m.
Proof. intros [Ha Hb]. split; [naive_solver|]. intros k Hk. apply Hb. tauto. Qed.

Lemma advance_residue start success inv other m inv' m' :
  on_track inv -> holds inv m -> holds other m ->
  residue start inv other m ->
  advance success inv m = Some (inv', m') ->
  residue start inv' other m'.
Proof.
  intros Htrack Hmine Htheirs [Hout Hfree].
  unfold advance, on_track, holds, owned, residue in *.
  destruct (phase inv) as [[|lockKey rest] acquired|acquired| | |ok] eqn:Hphase.
  - intros [= <- <-]. cbn. rewrite app_nil_r in Htrack. rewrite <- Htrack.
    by split.
  - destruct (m !! lockKey) as [held|] eqn:Hk.
    + intros [= <- <-]. cbn. by split.
    + intros [= <- <-]. cbn.
      assert (Hnew : (lockKey ∉ acquired) /\
                     lockKey ∉ match phase other with
                               | Acquiring _ acquiredKeys => acquiredKeys
                               | RollingBack acquiredKeys => acquiredKeys
                               | Holding => lockKeys other
                               | Busy | Finished _ => []
                               end).
      { split; intros Hin; [specialize (Hmine _ Hin)|specialize (Htheirs _ Hin)];
          congruence. }
      destruct Hnew as [Hn1 Hn2]. split.
      * intros k Hk1 Hk2. rewrite lookup_insert_ne by set_solver.
        apply Hout; [set_solver|done].
      * intros k [Hin|Hin]; [|by apply Hfree; right].
        apply elem_of_app in Hin as [Hin| ->%list_elem_of_singleton];
          [by apply Hfree; left|].
        rewrite <- Hout by done. done.
  - intros [= <- <-]. cbn. split.
    + intros k _ Hk2. rewrite release_script_lookup.
      destruct (decide (k ∈ acquired)) as [Hin|Hin].
      * rewrite (Hmine _ Hin). cbn. rewrite decide_True by done.
        symmetry. apply Hfree. by left.
      * rewrite decide_False by tauto. by apply Hout.
    + intros k [Hin|Hin]; [by apply elem_of_nil in Hin|]. apply Hfree. by right.
  - discriminate.
  - intros [= <- <-]. cbn. split.
    + intros k _ Hk2. rewrite release_script_lookup.
      destruct (decide (k ∈ lockKeys inv)) as [Hin|Hin].
      * rewrite (Hmine _ Hin). cbn. rewrite decide_True by done.
        symmetry. apply Hfree. by left.
      * rewrite decide_False by tauto. by apply Hout.
    + intros k [Hin|Hin]; [by apply elem_of_nil in Hin|]. apply Hfree. by right.
  - discriminate.
Qed.

Lemma run_residue start jobA jobB keysA keysB schedule :
  forall sys sys',
  jobA ≠ jobB ->
  invariant jobA jobB keysA keysB sys ->
  residue start (first sys) (second sys) (store sys) ->
  run schedule sys = Some sys' ->
  invariant jobA jobB keysA keysB sys' /\
  residue start (first sys') (second sys') (store sys').
Proof.
  induction schedule as [|[side success] rest IH]; intros sys sys' Hne Hinv Hres;
    cbn [run].
  - by intros [= <-].
  - destruct (step side success sys) as [sys1|] eqn:Hstep; [|discriminate].
    pose proof Hstep as Hstep'.
    apply step_invariant with (jobA:=jobA) (jobB:=jobB) (keysA:=keysA) (keysB:=keysB)
      in Hstep as [Hinv1 Hsame]; try done.
    assert (Hres1 : residue start (first sys1) (second sys1) (store sys1)).
    { destruct Hinv as (_ & _ & _ & _ & Hta & Htb & Hha & Hhb).
      unfold step in Hstep'. destruct side.
      - destruct (advance success (first sys) (store sys)) as [[inv m]|] eqn:Hadv;
          [|discriminate].
        injection Hstep' as <-. cbn in *.
        by apply (advance_residue start success (first sys) (second sys)
                    (store sys) inv m).
      - destruct (advance success (second sys) (store sys)) as [[inv m]|] eqn:Hadv;
          [|discriminate].
        injection Hstep' as <-. cbn in *.
        apply residue_sym.
        apply (advance_residue start success (second sys) (first sys)
                 (store sys) inv m); try done.
        by apply residue_sym. }
    by apply IH.
Qed.

(** The invocation is over: refused, or through and released. *)
Definition over inv : Prop :=
  match phase inv with
  | Busy | Finished _ => True
  | _ => False
  end.

(** X26. Two invocations leave nothing behind. Two invocations with
    different job ids, on any resources, moving in any order from any
    store (no command refused, no key expired): at every point the
    store differs from the initial one only under lock keys that one of
    them has set and not yet released, and each such key was free at
    the start; so once both are over, each refused or through, the
    store is exactly the initial one. *)
Theorem locks_leave_no_residue (jobA jobB : string)
    (resA resB : list ResourceIdentifier) start schedule sys :
  jobA ≠ jobB ->
  run schedule (mkSystem start (invoke jobA resA) (invoke jobB resB)) = Some sys ->
  (forall k, k ∉ owned (first sys) -> k ∉ owned (second sys) ->
             store sys !! k = start !! k) /\
  (forall k, k ∈ owned (first sys) \/ k ∈ owned (second sys) ->
             start !! k = None /\ is_Some (store sys !! k)) /\
  (over (first sys) -> over (second sys) -> store sys = start).
Proof.
  intros Hne Hrun.
  assert (Hstart : residue start (invoke jobA resA) (invoke jobB resB) start).
  { split; [done|]. intros k [Hin|Hin]; by apply elem_of_nil in Hin. }
  destruct (run_residue start _ _ _ _ _ _ _ Hne
              (invoke_invariant jobA jobB resA resB start) Hstart Hrun)
    as [Hinv [Hout Hfree]].
  split; [done|]. split.
  - intros k Hk. split; [by apply Hfree|].
    destruct Hinv as (_ & _ & _ & _ & _ & _ & Hha & Hhb).
    destruct Hk as [Hk|Hk]; [rewrite (Hha _ Hk)|rewrite (Hhb _ Hk)]; by eexists.
  - intros HoverA HoverB. apply map_eq. intros k. apply Hout.
    + unfold over, owned in *. destruct (phase (first sys)); try done;
        by intros ?%elem_of_nil.
    + unfold over, owned in *. destruct (phase (second sys)); try done;
        by intros ?%elem_of_nil.
Qed.

(** *** Disjoint resources *)

(** The invocation has met no key that was taken: it is in the loop
    with its remaining keys free, or through. *)
Definition unhindered inv m : Prop :=
  NoDup (lockKeys inv) /\
  match phase inv with
  | Acquiring todo acquiredKeys =>
      acquiredKeys ++ todo = lockKeys inv /\ forall k, k ∈ todo -> m !! k = None
  | RollingBack _ | Busy => False
  | Holding | Finished _ => True
  end.

(** A move of an invocation takes no key that is not one of its lock
    keys. *)
Lemma advance_keeps_free success inv m inv' m' :
  on_track inv ->
  advance success inv m = Some (inv', m') ->
  lockKeys inv' = lockKeys inv /\
  forall k, k ∉ lockKeys inv -> m !! k = None -> m' !! k = None.
Proof.
  intros Htrack. unfold advance, on_track in *.
  destruct (phase inv) as [[|lockKey rest] acquired|acquired| | |ok] eqn:Hphase.
  - by intros [= <- <-].
  - destruct (m !! lockKey) as [held|] eqn:Hk; intros [= <- <-]; [done|].
    split; [done|]. intros k Hk' Hfree. rewrite lookup_insert_ne; [done|].
    intros <-. apply Hk'. rewrite <- Htrack. set_solver.
  - intros [= <- <-]. split; [done|]. intros k _ Hfree.
    rewrite release_script_lookup, Hfree. by case_decide.
  - discriminate.
  - intros [= <- <-]. split; [done|]. intros k _ Hfree.
    rewrite release_script_lookup, Hfree. by case_decide.
  - discriminate.
Qed.

Lemma unhindered_on_track inv m : unhindered inv m -> on_track inv.
Proof.
  unfold unhindered, on_track. intros [_ Hphase].
  destruct (phase inv); try done. by destruct Hphase.
Qed.

Lemma advance_unhindered success inv m inv' m' :
  unhindered inv m ->
  advance success inv m = Some (inv', m') ->
  unhindered inv' m'.
Proof.
  unfold advance, unhindered. intros [Hnd Hphase].
  destruct (phase inv) as [[|lockKey rest] acquired|acquired| | |ok] eqn:Hp;
    try done.
  - by intros [= <- <-].
  - destruct Hphase as [Htrack Hfree]. rewrite (Hfree lockKey) by by left.
    intros [= <- <-]. cbn. split; [done|]. split; [by rewrite <- app_assoc|].
    intros k Hk. rewrite lookup_insert_ne; [apply Hfree; by right|].
    intros <-. rewrite <- Htrack in Hnd.
    apply NoDup_app in Hnd as (_ & _ & Hnd). apply NoDup_cons in Hnd as [Hnot _].
    done.
  - by intros [= <- <-].
Qed.

Lemma advance_unhindered_other success inv other m other' m' :
  lockKeys inv ## lockKeys other ->
  unhindered inv m -> on_track other ->
  advance success other m = Some (other', m') ->
  unhindered inv m'.
Proof.
  intros Hdis [Hnd Hphase] Htrack Hadv.
  apply advance_keeps_free in Hadv as [_ Hkeep]; [|done].
  split; [done|]. destruct (phase inv) as [todo acquired| | | |]; try done.
  destruct Hphase as [Heq Hfree]. split; [done|].
  intros k Hk. apply Hkeep; [|by apply Hfree].
  intros Hin. apply (Hdis k); [|done]. rewrite <- Heq. set_solver.
Qed.

Lemma run_unhindered keysA keysB schedule :
  forall sys sys',
  keysA ## keysB ->
  lockKeys (first sys) = keysA -> lockKeys (second sys) = keysB ->
  unhindered (first sys) (store sys) -> unhindered (second sys) (store sys) ->
  run schedule sys = Some sys' ->
  unhindered (first sys') (store sys') /\ unhindered (second sys') (store sys').
Proof.
  induction schedule as [|[side success] rest IH];
    intros sys sys' Hdis Ha Hb HuA HuB; cbn [run].
  - by intros [= <-].
  - unfold step. destruct side.
    + destruct (advance success (first sys) (store sys)) as [[inv m]|] eqn:Hadv;
        [|discriminate].
      pose proof (unhindered_on_track _ _ HuA) as Htrack.
      pose proof (advance_keeps_free _ _ _ _ _ Htrack Hadv) as [Hkeys _].
      apply IH; cbn; try done; [congruence| |].
      * by apply (advance_unhindered success (first sys) (store sys) inv m).
      * apply (advance_unhindered_other success (second sys) (first sys)
                 (store sys) inv m); try done.
        rewrite Ha, Hb. intros k HkB HkA. by apply (Hdis k).
    + destruct (advance success (second sys) (store sys)) as [[inv m]|] eqn:Hadv;
        [|discriminate].
      pose proof (unhindered_on_track _ _ HuB) as Htrack.
      pose proof (advance_keeps_free _ _ _ _ _ Htrack Hadv) as [Hkeys _].
      apply IH; cbn; try done; [congruence| |].
      * apply (advance_unhindered_other success (first sys) (second sys)
                 (store sys) inv m); try done.
        by rewrite Ha, Hb.
      * by apply (advance_unhindered success (second sys) (store sys) inv m).
Qed.

(** X27. Disjoint resources do not block each other. Two invocations
    whose lock keys are pairwise distinct, share no key, and are all
    free at the start, moving in any order (no command refused, no key
    expired): neither ever meets a taken key, so neither rolls back or
    is refused; each is at any time in the loop of [acquireLock] with
    the keys it has still to set free, or holds its lock, or is
    through. *)
Theorem disjoint_resources_do_not_block (jobA jobB : string)
    (resA resB : list ResourceIdentifier) start schedule sys :
  NoDup (generateResourceLockKeys resA) ->
  NoDup (generateResourceLockKeys resB) ->
  generateResourceLockKeys resA ## generateResourceLockKeys resB ->
  (forall k, k ∈ generateResourceLockKeys resA ++ generateResourceLockKeys resB ->
             start !! k = None) ->
  run schedule (mkSystem start (invoke jobA resA) (invoke jobB resB)) = Some sys ->
  phase (first sys) ≠ Busy /\ phase (second sys) ≠ Busy /\
  (forall acquiredKeys, phase (first sys) ≠ RollingBack acquiredKeys) /\
  (forall acquiredKeys, phase (second sys) ≠ RollingBack acquiredKeys) /\
  (forall todo acquiredKeys k,
     phase (first sys) = Acquiring todo acquiredKeys \/
     phase (second sys) = Acquiring todo acquiredKeys ->
     k ∈ todo -> store sys !! k = None).
Proof.
  intros HndA HndB Hdis Hfree Hrun.
  apply (run_unhindered (generateResourceLockKeys resA)
           (generateResourceLockKeys resB)) in Hrun; try done.
  - destruct Hrun as [[_ HuA] [_ HuB]].
    split_and!.
    + intros Hp. by rewrite Hp in HuA.
    + intros Hp. by rewrite Hp in HuB.
    + intros acq Hp. by rewrite Hp in HuA.
    + intros acq Hp. by rewrite Hp in HuB.
    + intros todo acq k [Hp|Hp] Hk; [rewrite Hp in HuA|rewrite Hp in HuB].
      * destruct HuA as [_ Hf]. by apply Hf.
      * destruct HuB as [_ Hf]. by apply Hf.
  - unfold unhindered, invoke. cbn. split; [done|]. split; [done|].
    intros k Hk. apply Hfree. set_solver.
  - unfold unhindered, invoke. cbn. split; [done|]. split; [done|].
    intros k Hk. apply Hfree. set_solver.
Qed.

(** The user and the cart: no key in common. *)
Definition for_cart : list ResourceIdentifier := [LockFacts.cart_7].

Lemma locks_leave_no_residue_witness :
  "1" ≠ "2" /\
  exists sys,
    run one_after_the_other two_jobs = Some sys /\
    over (first sys) /\ over (second sys) /\
    store sys = ∅.
Proof.
  assert (Hne : "1" ≠ "2") by discriminate.
  split; [exact Hne|].
  destruct (run one_after_the_other two_jobs) as [sys|] eqn:Hrun;
    [|by vm_compute in Hrun].
  assert (Hover : over (first sys) /\ over (second sys)).
  { assert (Hsys : Some sys = run one_after_the_other two_jobs) by done.
    vm_compute in Hsys. injection Hsys as ->. by split. }
  destruct Hover as [HoverA HoverB].
  exists sys. split; [reflexivity|]. split; [exact HoverA|]. split; [exact HoverB|].
  exact (proj2 (proj2 (locks_leave_no_residue "1" "2" for_user for_cart_and_user ∅
                         one_after_the_other sys Hne Hrun)) HoverA HoverB).
Defined.

Lemma disjoint_resources_do_not_block_witness :
  NoDup (generateResourceLockKeys for_user) /\
  NoDup (generateResourceLockKeys for_cart) /\
  generateResourceLockKeys for_user ## generateResourceLockKeys for_cart /\
  exists sys,
    run [(First, true); (Second, true); (Second, true); (First, true)]
        (mkSystem ∅ (invoke "1" for_user) (invoke "2" for_cart)) = Some sys /\
    phase (first sys) ≠ Busy /\ phase (second sys) ≠ Busy.
Proof.
  assert (HndA : NoDup (generateResourceLockKeys for_user)).
  { vm_compute. repeat constructor; set_solver. }
  assert (HndB : NoDup (generateResourceLockKeys for_cart)).
  { vm_compute. repeat constructor; set_solver. }
  assert (Hdis : generateResourceLockKeys for_user ## generateResourceLockKeys for_cart).
  { vm_compute. intros k ->%list_elem_of_singleton Hin%list_elem_of_singleton.
    discriminate. }
  assert (Hfree : forall k,
            k ∈ generateResourceLockKeys for_user ++ generateResourceLockKeys for_cart ->
            (∅ : gmap string (string * Z)) !! k = None) by done.
  split; [exact HndA|]. split; [exact HndB|]. split; [exact Hdis|].
  destruct (run [(First, true); (Second, true); (Second, true); (First, true)]
                (mkSystem ∅ (invoke "1" for_user) (invoke "2" for_cart)))
    as [sys|] eqn:Hrun; [|by vm_compute in Hrun].
  destruct (disjoint_resources_do_not_block "1" "2" for_user for_cart ∅ _ sys
              HndA HndB Hdis Hfree Hrun) as (HA & HB & _).
  exists sys. split; [reflexivity|]. split; [exact HA|exact HB].
Defined.

End ScheduleFacts.

(** ** One invocation of the consumer, a command refused *)

Module ProcessFaults.
Import Redis RedisFacts KeyspaceFacts LockFacts LockCycle.
Import CompensationService CompensationFacts.
Import SimpleTransactionConsumer ConsumerFacts TrailFacts ProcessFacts.

Section Facts.
Context {V W : Type}.
Variable JSON_stringify : any V -> string.
Variable percent : nat -> nat -> Z.
Variable stepRegistry : StepRegistry.t V W.
Implicit Types (w : World V W) (d : JobData V).

(** A command the server refuses. *)
Lemma command_refused {H A} (body : Redis.t H -> A * Redis.t H)
    (r : Redis.t H) (e : Error) fs :
  faults r = Some e :: fs ->
  command body r = (Throw e, with_faults r fs).
Proof. intros Hf. unfold command. by rewrite Hf. Qed.

(** The invocation up to the end of its second loop. *)
Definition steps_run (env : Env) w (r1 : Redis.t (Hash V))
    (o2 : outcome (list (ExecutionResult V W))) (w2 : World V W) : Prop :=
  let d := data (job w) in
  currentStepIndex d <= length (steps d) /\
  DistributedLockService.acquireLock
    (finalResourceIdentifiers (userId d) (resourceIdentifiers d))
    (job_id (job w)) LOCK_TTL (redis w) = (Return true, r1) /\
  executeSteps JSON_stringify percent stepRegistry env (steps d)
    (length (steps d) - currentStepIndex d) (currentStepIndex d)
    (omap (restored stepRegistry) (take (currentStepIndex d) (steps d)))
    (with_redis w r1) = (o2, w2).

(** X28. A refused release fails a completed saga and leaves the
    lock. When the invocation got the lock and completed every step,
    and the server then refuses the release with [e]: [process]
    throws [e] in place of returning the result; the steps stay
    completed in the payload; the lock keys still hold the job id
    (until they expire); and no quarantine record is filed, the
    error being thrown after the [catch] block. *)
Theorem refused_release_fails_completed_saga env w r1 results w2
    (e : Error) fs :
  steps_run env w r1 (Return results) w2 ->
  faults (redis w2) = Some e :: fs ->
  exists w',
    process JSON_stringify percent stepRegistry env w = (Throw e, w') /\
    data (job w') = data (job w2) /\ progress (job w') = 100%Z /\
    trace w' = trace w2 /\
    strings (redis w') =
      set_all (DistributedLockService.generateResourceLockKeys
                 (finalResourceIdentifiers (userId (data (job w)))
                    (resourceIdentifiers (data (job w)))))
              (job_id (job w), LOCK_TTL) (strings (redis w)) /\
    hashes (redis w') = hashes (redis w) /\
    sets (redis w') = sets (redis w).
Proof.
  intros (Hle & Hacq & Hloop) Hfaults.
  set (d := data (job w)) in *.
  set (resources := finalResourceIdentifiers (userId d) (resourceIdentifiers d)) in *.
  assert (Hredis : redis w2 = r1).
  { change r1 with (redis (with_redis w r1)).
    eapply executeSteps_success; [| |exact Hloop]; [done|lia]. }
  pose proof Hloop as Htrace.
  apply executeSteps_trace in Htrace; [|done|lia].
  destruct Htrace as (Hs2 & _).
  destruct (acquireLock_outcomes _ _ _ _ _ _ Hacq) as (Htrue & _).
  destruct (Htrue eq_refl) as (_ & _ & Hs1).
  assert (Hkeep : hashes r1 = hashes (redis w) /\ sets r1 = sets (redis w)).
  { revert Hacq. unfold DistributedLockService.acquireLock.
    destruct (DistributedLockService.acquireLoop _ [] [] _ _ (redis w))
      as [[o acq] r0] eqn:Hl.
    apply acquireLoop_spec in Hl; [|done].
    destruct Hl as (done & _ & _ & _ & Hh & Hst & _).
    destruct o as [b|e0].
    - intros [= -> <-]. by split.
    - destruct (DistributedLockService.releaseLockInternal acq _ r0)
        as [[[]|e1] r2]; intros [=]. }
  destruct Hkeep as [Hh1 Hst1].
  eexists. unfold process. fold d. fold resources.
  unfold on_redis at 1. rewrite Hacq.
  unfold try_finally, try_catch, transaction. cbn [negb].
  unfold bind at 1. rewrite rebuildTrail_within by done.
  unfold bind at 1. rewrite Hloop.
  unfold bind, updateProgress, ret.
  unfold on_redis, DistributedLockService.releaseLock,
    DistributedLockService.releaseLockInternal, eval_release.
  cbn [redis with_job].
  rewrite (command_refused _ (redis w2) e fs Hfaults).
  split; [reflexivity|]. cbn. rewrite Hredis.
  by split_and!.
Qed.

(** X29. A refused quarantine does not change the error, nor keep
    the lock. When the invocation got the lock, a step failed with
    [e], and the server refuses the first command of the quarantine
    and none after it: [process] throws [e], the error of the step,
    not the error of the server; no quarantine record is filed; and
    the lock is released, the string keys being as before the
    invocation. *)
Theorem refused_quarantine_keeps_the_error env w r1 (e : Error) w2
    (refusal : Error) fs :
  steps_run env w r1 (Throw e) w2 ->
  faults (redis w2) = Some refusal :: fs ->
  quiet fs ->
  exists w',
    process JSON_stringify percent stepRegistry env w = (Throw e, w') /\
    job w' = job w2 /\ trace w' = trace w2 /\ persisted w' = persisted w2 /\
    strings (redis w') = strings (redis w) /\
    hashes (redis w') = hashes (redis w2) /\
    sets (redis w') = sets (redis w2).
Proof.
  intros (Hle & Hacq & Hloop) Hfaults Hq.
  set (d := data (job w)) in *.
  set (resources := finalResourceIdentifiers (userId d) (resourceIdentifiers d)) in *.
  pose proof Hloop as Htrace.
  apply executeSteps_trace in Htrace; [|done|lia].
  destruct Htrace as (Hs2 & _).
  destruct (acquireLock_outcomes _ _ _ _ _ _ Hacq) as (Htrue & _).
  destruct (Htrue eq_refl) as (_ & Hfree & Hs1).
  set (r3 := with_faults (redis w2) fs).
  destruct (releaseLockInternal_quiet
              (DistributedLockService.generateResourceLockKeys resources)
              (job_id (job w)) r3 Hq)
    as (r4 & Hrel & Hs4 & Hh4 & Hst4 & _).
  exists (with_redis w2 r4). unfold process. fold d. fold resources.
  unfold on_redis at 1. rewrite Hacq.
  unfold try_finally, try_catch, transaction. cbn [negb].
  unfold bind at 1. rewrite rebuildTrail_within by done.
  unfold bind at 1. rewrite Hloop.
  unfold bind at 1. unfold handleDeadLetterQueue, try_catch.
  unfold DLQService.addToDLQ. unfold bind at 1. unfold bind at 1.
  unfold on_redis at 1. unfold hset.
  rewrite (command_refused _ (redis w2) refusal fs Hfaults).
  unfold ret, throw. fold r3.
  unfold on_redis, DistributedLockService.releaseLock. cbn [redis with_redis].
  rewrite Hrel. split; [reflexivity|]. cbn.
  split_and!; try done.
  rewrite Hs4. subst r3. cbn. rewrite Hs2. cbn. rewrite Hs1.
  by apply release_set_all.
Qed.

End Facts.

(** A world whose server serves [served] commands and refuses the
    next one. *)
Definition refusing (j : Job Z) (served : nat) : World Z (list string) :=
  mkWorld (Redis.mk ∅ ∅ ∅ ∅ (replicate served None ++ [Some (new_Error "refused")]))
          j [] [] [].

Definition locked (w : World Z (list string)) :=
  DistributedLockService.acquireLock
    (finalResourceIdentifiers (userId (data (job w)))
       (resourceIdentifiers (data (job w))))
    (job_id (job w)) LOCK_TTL (redis w).

Definition stepped (w : World Z (list string)) :=
  executeSteps (fun _ => "") percent_of registry_abc no_env (steps (data (job w)))
    (length (steps (data (job w))) - currentStepIndex (data (job w)))
    (currentStepIndex (data (job w)))
    (omap (restored registry_abc)
          (take (currentStepIndex (data (job w))) (steps (data (job w)))))
    (with_redis w (locked w).2).

Lemma refused_release_fails_completed_saga_witness :
  exists results w',
    steps_run (fun _ => "") percent_of registry_abc no_env (refusing job_ab 1)
      (locked (refusing job_ab 1)).2 (Return results)
      (stepped (refusing job_ab 1)).2 /\
    faults (redis (stepped (refusing job_ab 1)).2) = [Some (new_Error "refused")] /\
    process (fun _ => "") percent_of registry_abc no_env (refusing job_ab 1)
      = (Throw (new_Error "refused"), w') /\
    progress (job w') = 100%Z /\
    hashes (redis w') = ∅.
Proof.
  set (w := refusing job_ab 1).
  assert (Hacq : locked w = (Return true, (locked w).2)) by (vm_compute; reflexivity).
  destruct (stepped w) as [o2 w2] eqn:Hloop.
  assert (Ho : exists results, o2 = Return results).
  { pose proof (f_equal fst Hloop) as Hfst. cbn in Hfst. rewrite <- Hfst.
    vm_compute. by eexists. }
  destruct Ho as [results ->].
  assert (Hf : faults (redis w2) = [Some (new_Error "refused")]).
  { pose proof (f_equal snd Hloop) as Hsnd. cbn in Hsnd. rewrite <- Hsnd.
    vm_compute. reflexivity. }
  assert (Hrun : steps_run (fun _ => "") percent_of registry_abc no_env w
                   (locked w).2 (Return results) w2).
  { split; [vm_compute; lia|]. split; [exact Hacq|exact Hloop]. }
  destruct (refused_release_fails_completed_saga (fun _ => "") percent_of
              registry_abc no_env w (locked w).2 results w2
              (new_Error "refused") [] Hrun Hf)
    as (w' & Hp & _ & Hprog & _ & _ & Hh & _).
  exists results, w'. cbn [snd].
  split; [exact Hrun|]. split; [exact Hf|]. split; [exact Hp|].
  split; [exact Hprog|exact Hh].
Defined.

Lemma refused_quarantine_keeps_the_error_witness :
  exists e w',
    steps_run (fun _ => "") percent_of registry_abc no_env (refusing job_abc 4)
      (locked (refusing job_abc 4)).2 (Throw e)
      (stepped (refusing job_abc 4)).2 /\
    faults (redis (stepped (refusing job_abc 4)).2) = [Some (new_Error "refused")] /\
    quiet (@nil (option Error)) /\
    process (fun _ => "") percent_of registry_abc no_env (refusing job_abc 4)
      = (Throw e, w') /\
    strings (redis w') = ∅.
Proof.
  set (w := refusing job_abc 4).
  assert (Hacq : locked w = (Return true, (locked w).2)) by (vm_compute; reflexivity).
  destruct (stepped w) as [o2 w2] eqn:Hloop.
  assert (Ho : exists e, o2 = Throw e).
  { pose proof (f_equal fst Hloop) as Hfst. cbn in Hfst. rewrite <- Hfst.
    vm_compute. by eexists. }
  destruct Ho as [e ->].
  assert (Hf : faults (redis w2) = [Some (new_Error "refused")]).
  { pose proof (f_equal snd Hloop) as Hsnd. cbn in Hsnd. rewrite <- Hsnd.
    vm_compute. reflexivity. }
  assert (Hq : quiet (@nil (option Error))) by reflexivity.
  assert (Hrun : steps_run (fun _ => "") percent_of registry_abc no_env w
                   (locked w).2 (Throw e) w2).
  { split; [vm_compute; lia|]. split; [exact Hacq|exact Hloop]. }
  destruct (refused_quarantine_keeps_the_error (fun _ => "") percent_of
              registry_abc no_env w (locked w).2 e w2
              (new_Error "refused") [] Hrun Hf Hq)
    as (w' & Hp & _ & _ & _ & Hs & _).
  exists e, w'. cbn [snd].
  split; [exact Hrun|]. split; [exact Hf|]. split; [exact Hq|].
  split; [exact Hp|exact Hs].
Defined.

End ProcessFaults.
